(** * CHRE core runtime: a shallow embedding of the request types, the
    request multiplexer, the host socket client's reconnect loop, the wifi
    scan-monitor state machine and the event loop, with the properties of
    the design document checked against them. *)

From stdpp Require Import base numbers option list.

Local Open Scope Z_scope.

(* ===================================================================== *)
(** ** core/sensors.cc: SensorRequest *)
(* ===================================================================== *)

Module Sensors.

(** Modelled from the spec: core/sensors.h, which declares
    [enum class SensorMode], is not among the sources; the modes are those
    that sensors.cc and the design document name. *)
Inductive SensorMode :=
| Off
| ActiveContinuous
| ActiveOneShot
| PassiveContinuous
| PassiveOneShot.

Definition SensorMode_eqb (a b : SensorMode) : bool :=
  match a, b with
  | Off, Off
  | ActiveContinuous, ActiveContinuous
  | ActiveOneShot, ActiveOneShot
  | PassiveContinuous, PassiveContinuous
  | PassiveOneShot, PassiveOneShot => true
  | _, _ => false
  end.

(** Modelled from the spec: [Nanoseconds] (util/time.h, not among the
    sources) wraps a [uint64_t]; the requests only compare such values and
    take their minimum, so they are kept as naturals [N]. *)
Definition Nanoseconds := N.

Record SensorRequest := mkSensorRequest {
  mInterval : Nanoseconds;
  mLatency : Nanoseconds;
  mMode : SensorMode
}.

(** [SensorRequest::SensorRequest(mode, interval, latency)] *)
Definition SensorRequest_of (mode : SensorMode)
    (interval latency : Nanoseconds) : SensorRequest :=
  {| mInterval := interval; mLatency := latency; mMode := mode |}.

(** [SensorRequest::SensorRequest()] *)
Definition SensorRequest_default : SensorRequest :=
  SensorRequest_of Off 0%N 0%N.

(** [SensorRequest::isEquivalentTo] *)
Definition isEquivalentTo (this request : SensorRequest) : bool :=
  SensorMode_eqb (mMode this) (mMode request)
  && (mInterval this =? mInterval request)%N
  && (mLatency this =? mLatency request)%N.

(** [SensorRequest::generateIntersectionOf] *)
Definition generateIntersectionOf (this request : SensorRequest)
    : SensorRequest :=
  let minimalInterval := N.min (mInterval this) (mInterval request) in
  let minimalLatency := N.min (mLatency this) (mLatency request) in
  let maximalSensorMode :=
    if SensorMode_eqb (mMode this) ActiveContinuous
       || SensorMode_eqb (mMode request) ActiveContinuous
    then ActiveContinuous
    else if SensorMode_eqb (mMode this) ActiveOneShot
            || SensorMode_eqb (mMode request) ActiveOneShot
    then ActiveOneShot
    else if SensorMode_eqb (mMode this) PassiveContinuous
            || SensorMode_eqb (mMode request) PassiveContinuous
    then PassiveContinuous
    else if SensorMode_eqb (mMode this) PassiveOneShot
            || SensorMode_eqb (mMode request) PassiveOneShot
    then PassiveOneShot
    else Off in
  SensorRequest_of maximalSensorMode minimalInterval minimalLatency.

Definition getInterval (r : SensorRequest) : Nanoseconds := mInterval r.
Definition getLatency (r : SensorRequest) : Nanoseconds := mLatency r.
Definition getMode (r : SensorRequest) : SensorMode := mMode r.

(** The priority of the modes in [generateIntersectionOf]: "Active
    continuous is the highest priority and passive one-shot is the
    lowest", a sensor that is off below them. *)
Definition modePriority (mode : SensorMode) : nat :=
  match mode with
  | Off => 0
  | PassiveOneShot => 1
  | PassiveContinuous => 2
  | ActiveOneShot => 3
  | ActiveContinuous => 4
  end.

(** The merge of a collection of requests, taken one after the other. *)
Definition mergeAll (start : SensorRequest) (requests : list SensorRequest)
    : SensorRequest :=
  foldl generateIntersectionOf start requests.

End Sensors.

(* ===================================================================== *)
(** ** core/request_multiplexer.h: RequestMultiplexer *)
(* ===================================================================== *)

Module Multiplexer.

(** The interface a request type offers to the multiplexer: a default
    constructor, [isEquivalentTo] and [generateIntersectionOf] (see
    [DummyRequest] in core/tests/request_multiplexer_test.cc). *)
Class Request (R : Type) := {
  identity : R;
  equivalent_to : R -> R -> bool;
  merge : R -> R -> R
}.

(** [DummyRequest] of core/tests/request_multiplexer_test.cc: an [int]
    priority, merged with [std::max]. *)
Record DummyRequest := mkDummyRequest { getPriority : Z }.

#[global] Instance DummyRequest_Request : Request DummyRequest := {|
  identity := mkDummyRequest 0;
  equivalent_to := fun this request =>
    getPriority this =? getPriority request;
  merge := fun this request =>
    mkDummyRequest (Z.max (getPriority this) (getPriority request))
|}.

#[global] Instance SensorRequest_Request : Request Sensors.SensorRequest := {|
  identity := Sensors.SensorRequest_default;
  equivalent_to := Sensors.isEquivalentTo;
  merge := Sensors.generateIntersectionOf
|}.

Section Mux.
Context {R : Type} `{Request R}.

Record RequestMultiplexer := mkMux {
  mRequests : list R;
  mCurrentMaximalRequest : R
}.

(** A default-constructed multiplexer: no request, default maximal. *)
Definition empty : RequestMultiplexer :=
  {| mRequests := []; mCurrentMaximalRequest := identity |}.

Definition getRequests (m : RequestMultiplexer) : list R := mRequests m.

Definition getCurrentMaximalRequest (m : RequestMultiplexer) : R :=
  mCurrentMaximalRequest m.

(** Modelled from the spec: core/request_multiplexer.h and its
    implementation are not among the sources (only the test is). "recompute
    maximal = fold(merge); set flag if changed": the maximal is the fold of
    the merge over the stored requests from the default-constructed request,
    and the flag tells whether the new maximal is not equivalent to the
    cached one. *)
Definition updateMaximalRequest (requests : list R) (m : RequestMultiplexer)
    : bool * RequestMultiplexer :=
  let maximalRequest := foldl merge identity requests in
  (negb (equivalent_to (mCurrentMaximalRequest m) maximalRequest),
   {| mRequests := requests; mCurrentMaximalRequest := maximalRequest |}).

(** Modelled from the spec: "add(r) -> (ok, maximal_changed): append r;
    recompute maximal". [canGrow] tells whether the vector of requests can
    take one more element; when it cannot the call fails ([None]) and
    leaves the multiplexer and the out-parameter alone. *)
Definition addRequest (canGrow : bool) (request : R) (m : RequestMultiplexer)
    : option bool * RequestMultiplexer :=
  if canGrow then
    let '(changed, m') := updateMaximalRequest (mRequests m ++ [request]) m in
    (Some changed, m')
  else (None, m).

(** Modelled from the spec: "remove(index) -> maximal_changed: erase,
    recompute". Erasing past the end removes nothing. *)
Definition removeRequest (index : nat) (m : RequestMultiplexer)
    : bool * RequestMultiplexer :=
  updateMaximalRequest (delete index (mRequests m)) m.

(** Modelled from the spec: "update_at(index, r) -> maximal_changed:
    replace and recompute". *)
Definition updateRequest (index : nat) (request : R) (m : RequestMultiplexer)
    : bool * RequestMultiplexer :=
  updateMaximalRequest (<[index := request]> (mRequests m)) m.

(** The operations of the claim on sequences of calls. *)
Inductive MuxOp :=
| OpAdd (canGrow : bool) (request : R)
| OpRemove (index : nat).

(** One call: what it wrote to the [maximalRequestChanged] out-parameter
    (if anything) and the multiplexer after it. *)
Definition step (m : RequestMultiplexer) (op : MuxOp)
    : option bool * RequestMultiplexer :=
  match op with
  | OpAdd canGrow request => addRequest canGrow request m
  | OpRemove index =>
      let '(changed, m') := removeRequest index m in (Some changed, m')
  end.

Definition run (ops : list MuxOp) (m : RequestMultiplexer)
    : RequestMultiplexer :=
  foldl (fun m op => snd (step m op)) m ops.

End Mux.

Arguments RequestMultiplexer R : clear implicits.
Arguments MuxOp R : clear implicits.

End Multiplexer.

(* ===================================================================== *)
(** ** host/common/socket_client.cc: SocketClient::reconnect *)
(* ===================================================================== *)

Module SocketClient.

(** What [reconnect] does that the outside can see, in order. *)
Inductive Action :=
| WaitFor (ms : Z)            (* mShutdownCond.wait_for(lock, delay, ...) *)
| TryConnect (connected : bool)
| OnSocketReconnected.        (* mCallbacks->onSocketReconnected() *)

(** The surroundings of one run: whether [mGracefulShutdown] is set when
    the wait of the i-th iteration returns, and whether the i-th call of
    [tryConnect] succeeds (iterations are counted from 0). *)
Record Env := mkEnv {
  gracefulShutdown : nat -> bool;
  tryConnect : nat -> bool
}.

(** [int32_t] arithmetic of [std::chrono::duration<int32_t, std::milli>]. *)
Definition wrap_int32 (z : Z) : Z := (z + 2 ^ 31) mod 2 ^ 32 - 2 ^ 31.

(** [std::chrono::minutes(5)] in milliseconds. *)
Definition kMaxDelay : Z := 5 * 60 * 1000.

(** The [while (--retryLimit > 0)] loop; [iter] counts the iterations done.
    [None] when the fuel is used up before the loop ends. *)
Fixpoint reconnect_loop (fuel : nat) (env : Env) (iter : nat)
    (retryLimit delay : Z) (trace : list Action)
    : option (bool * list Action) :=
  match fuel with
  | O => None
  | S fuel' =>
    let retryLimit := retryLimit - 1 in
    if retryLimit >? 0 then
      let trace := trace ++ [WaitFor delay] in
      if gracefulShutdown env iter then Some (false, trace)
      else if negb (tryConnect env iter) then
        let delay := wrap_int32 (delay * 2) in
        let delay := if delay >? kMaxDelay then kMaxDelay else delay in
        reconnect_loop fuel' env (S iter) retryLimit delay
                       (trace ++ [TryConnect false])
      else Some (true, trace ++ [TryConnect true; OnSocketReconnected])
    else Some (false, trace)
  end.

(** [SocketClient::reconnect] *)
Definition reconnect (env : Env) : option (bool * list Action) :=
  reconnect_loop 40 env 0 40 500 [].

(** The waits of a trace, in order. *)
Definition waits (trace : list Action) : list Z :=
  omap (fun a => match a with WaitFor ms => Some ms | _ => None end) trace.

Definition is_attempt (a : Action) : bool :=
  match a with TryConnect _ => true | _ => false end.

Definition is_reconnected (a : Action) : bool :=
  match a with OnSocketReconnected => true | _ => false end.

(** The number of calls of [tryConnect] in a trace. *)
Definition attempts (trace : list Action) : nat :=
  length (List.filter is_attempt trace).

(** The number of calls of [onSocketReconnected] in a trace. *)
Definition reconnected_calls (trace : list Action) : nat :=
  length (List.filter is_reconnected trace).

(** Whether, within the first [n] iterations from iteration [i] on, a
    connection attempt succeeds before a shutdown request is seen. *)
Fixpoint connects_within (env : Env) (i n : nat) : bool :=
  match n with
  | O => false
  | S n' =>
    if gracefulShutdown env i then false
    else if tryConnect env i then true
    else connects_within env (S i) n'
  end.

(** The wait before the attempt of iteration [k] (counted from 0). *)
Definition backoffDelay (k : nat) : Z := Z.min (500 * 2 ^ Z.of_nat k) kMaxDelay.

(** The time spent waiting in a trace, in milliseconds. *)
Definition totalWait (trace : list Action) : Z := foldr Z.add 0 (waits trace).

(** No shutdown request and no successful attempt in the [n] iterations
    from iteration [i] on. *)
Fixpoint allAttemptsFail (env : Env) (i n : nat) : bool :=
  match n with
  | O => true
  | S n' =>
    negb (gracefulShutdown env i) && negb (tryConnect env i)
    && allAttemptsFail env (S i) n'
  end.

(** An iteration whose attempt fails: the wait of iteration [k], then the
    attempt. *)
Definition failedRound (k : nat) : list Action :=
  [WaitFor (backoffDelay k); TryConnect false].

(** The number of iterations, among the [n] from iteration [i] on, that
    pass before one sees a shutdown request or a successful attempt. *)
Fixpoint failedRounds (env : Env) (i n : nat) : nat :=
  match n with
  | O => O
  | S n' =>
    if gracefulShutdown env i || tryConnect env i then O
    else S (failedRounds env (S i) n')
  end.

(** How a run leaves the loop in iteration [m], [limit] being the number
    of iterations that the retry limit allows: the result and what is done
    in that iteration. *)
Definition lastRound (env : Env) (m limit : nat) : bool * list Action :=
  if (limit <=? m)%nat then (false, [])
  else if gracefulShutdown env m then (false, [WaitFor (backoffDelay m)])
  else (true, [WaitFor (backoffDelay m); TryConnect true;
               OnSocketReconnected]).

End SocketClient.

(* ===================================================================== *)
(** ** core/wifi_request_manager.cc: the scan-monitor state machine *)
(* ===================================================================== *)

Module Wifi.

(** Modelled from the spec: the CHRE API header that defines the error
    codes ([uint8_t]) is not among the sources; [CHRE_ERROR_NONE] is the
    code of a completion without error, [CHRE_ERROR] another code. *)
Definition CHRE_ERROR_NONE : Z := 0.
Definition CHRE_ERROR : Z := 1.

(** [struct ScanMonitorStateTransition]; instance ids are [uint32_t], the
    cookie is an opaque pointer. *)
Record ScanMonitorStateTransition := mkTransition {
  nanoappInstanceId : Z;
  cookie : Z;
  enable : bool
}.

(** What the manager does to its surroundings, in order. *)
Inductive Output :=
| AsyncResultEvent (targetInstanceId : Z) (success : bool) (errorCode : Z)
                   (cookie : Z)      (* a posted CHRE_EVENT_WIFI_ASYNC_RESULT *)
| AsyncResultNotPosted (targetInstanceId : Z)
| PlatformConfigureScanMonitor (enable : bool)
| FatalError.

(** The surroundings: the capacity of the queue of transitions, and, as
    functions of what the manager has done so far, whether the driver
    accepts a request, whether an async result can be allocated and posted,
    and whether the vector of nanoapps can grow. *)
Record Env := mkEnv {
  kMaxScanMonitorStateTransitions : nat;
  platformAccepts : list Output -> bool -> bool;
  eventPosts : list Output -> bool;
  vectorGrows : list Output -> bool
}.

Record WifiRequestManager := mkManager {
  mScanMonitorNanoapps : list Z;
  mScanMonitorStateTransitions : list ScanMonitorStateTransition;
  outputs : list Output
}.

(** [WifiRequestManager::WifiRequestManager()] *)
Definition initial : WifiRequestManager :=
  {| mScanMonitorNanoapps := [];
     mScanMonitorStateTransitions := [];
     outputs := [] |}.

Definition set_nanoapps (l : list Z) (st : WifiRequestManager) :=
  {| mScanMonitorNanoapps := l;
     mScanMonitorStateTransitions := mScanMonitorStateTransitions st;
     outputs := outputs st |}.

Definition set_transitions (q : list ScanMonitorStateTransition)
    (st : WifiRequestManager) :=
  {| mScanMonitorNanoapps := mScanMonitorNanoapps st;
     mScanMonitorStateTransitions := q;
     outputs := outputs st |}.

Definition emit (o : Output) (st : WifiRequestManager) :=
  {| mScanMonitorNanoapps := mScanMonitorNanoapps st;
     mScanMonitorStateTransitions := mScanMonitorStateTransitions st;
     outputs := outputs st ++ [o] |}.

(** Modelled from the spec: [DynamicVector] (util/dynamic_vector.h) is not
    among the sources. The caller of [find] compares its result with
    [size()]: it is the index of the first occurrence, or the size of the
    vector when there is none. *)
Fixpoint find (l : list Z) (element : Z) : nat :=
  match l with
  | [] => O
  | x :: l' => if x =? element then O else S (find l' element)
  end.

(** Modelled from the spec: [DynamicVector::push_back] ("add on enable");
    the constructor of the manager reserved room for one element, beyond
    that the vector has to grow. *)
Definition push_back (env : Env) (x : Z) (st : WifiRequestManager)
    : bool * WifiRequestManager :=
  if (length (mScanMonitorNanoapps st) <? 1)%nat || vectorGrows env (outputs st)
  then (true, set_nanoapps (mScanMonitorNanoapps st ++ [x]) st)
  else (false, st).

(** Modelled from the spec: [DynamicVector::erase] ("remove on disable");
    erasing past the end removes nothing. *)
Definition erase (index : nat) (st : WifiRequestManager) : WifiRequestManager :=
  set_nanoapps (delete index (mScanMonitorNanoapps st)) st.

(** [WifiRequestManager::scanMonitorIsEnabled] *)
Definition scanMonitorIsEnabled (st : WifiRequestManager) : bool :=
  negb (length (mScanMonitorNanoapps st) =? 0)%nat.

(** [WifiRequestManager::nanoappHasScanMonitorRequest]: the result and the
    index found (written to [*nanoappIndex] when the result is true). *)
Definition nanoappHasScanMonitorRequest (st : WifiRequestManager)
    (instanceId : Z) : bool * nat :=
  let index := find (mScanMonitorNanoapps st) instanceId in
  let hasScanMonitorRequest :=
    (index =? length (mScanMonitorNanoapps st))%nat in
  (hasScanMonitorRequest, index).

(** [WifiRequestManager::scanMonitorIsInRequestedState] *)
Definition scanMonitorIsInRequestedState (st : WifiRequestManager)
    (requestedState nanoappHasRequest : bool) : bool :=
  Bool.eqb requestedState (scanMonitorIsEnabled st)
  || (negb requestedState
      && (negb nanoappHasRequest
          || (1 <? length (mScanMonitorNanoapps st))%nat)).

(** [WifiRequestManager::scanMonitorStateTransitionIsRequired] *)
Definition scanMonitorStateTransitionIsRequired (st : WifiRequestManager)
    (requestedState nanoappHasRequest : bool) : bool :=
  (requestedState && (length (mScanMonitorNanoapps st) =? 0)%nat)
  || (negb requestedState && nanoappHasRequest
      && (length (mScanMonitorNanoapps st) =? 1)%nat).

(** [WifiRequestManager::addScanMonitorRequestToQueue] *)
Definition addScanMonitorRequestToQueue (env : Env) (instanceId : Z)
    (enable : bool) (cookie : Z) (st : WifiRequestManager)
    : bool * WifiRequestManager :=
  let scanMonitorStateTransition :=
    {| nanoappInstanceId := instanceId; cookie := cookie; enable := enable |} in
  if (length (mScanMonitorStateTransitions st)
      <? kMaxScanMonitorStateTransitions env)%nat
  then (true, set_transitions
                (mScanMonitorStateTransitions st ++ [scanMonitorStateTransition])
                st)
  else (false, st).

(** [WifiRequestManager::updateNanoappScanMonitoringList] *)
Definition updateNanoappScanMonitoringList (env : Env) (enable : bool)
    (instanceId : Z) (st : WifiRequestManager) : bool * WifiRequestManager :=
  let '(hasExistingRequest, nanoappIndex) :=
    nanoappHasScanMonitorRequest st instanceId in
  if enable then
    if negb hasExistingRequest then push_back env instanceId st
    else (true, st)
  else
    if negb hasExistingRequest then (false, st)
    else (true, erase nanoappIndex st).

(** [WifiRequestManager::postScanMonitorAsyncResultEvent] *)
Definition postScanMonitorAsyncResultEvent (env : Env) (nanoappInstanceId : Z)
    (success enable : bool) (errorCode cookie : Z) (st : WifiRequestManager)
    : bool * WifiRequestManager :=
  let '(proceed, st) :=
    if negb success then (true, st)
    else updateNanoappScanMonitoringList env enable nanoappInstanceId st in
  if proceed then
    if eventPosts env (outputs st)
    then (true, emit (AsyncResultEvent nanoappInstanceId success errorCode
                                       cookie) st)
    else (false, emit (AsyncResultNotPosted nanoappInstanceId) st)
  else (false, st).

(** [WifiRequestManager::postScanMonitorAsyncResultEventFatal]; the result
    is false when [FATAL_ERROR] was reached. *)
Definition postScanMonitorAsyncResultEventFatal (env : Env)
    (nanoappInstanceId : Z) (success enable : bool) (errorCode cookie : Z)
    (st : WifiRequestManager) : bool * WifiRequestManager :=
  let '(posted, st) :=
    postScanMonitorAsyncResultEvent env nanoappInstanceId success enable
                                    errorCode cookie st in
  if posted then (true, st) else (false, emit FatalError st).

(** A [uint32_t] passed where a [bool] parameter is expected. *)
Definition bool_of_uint32 (z : Z) : bool := negb (z =? 0).

(** [WifiRequestManager::configureScanMonitor], for a nanoapp with the
    given instance id. *)
Definition configureScanMonitor (env : Env) (instanceId : Z) (enable : bool)
    (cookie : Z) (st : WifiRequestManager) : bool * WifiRequestManager :=
  if negb (length (mScanMonitorStateTransitions st) =? 0)%nat then
    addScanMonitorRequestToQueue env instanceId enable cookie st
  else if scanMonitorIsInRequestedState st enable (bool_of_uint32 instanceId)
  then
    postScanMonitorAsyncResultEvent env instanceId true enable
                                    CHRE_ERROR_NONE cookie st
  else if scanMonitorStateTransitionIsRequired st enable
            (bool_of_uint32 instanceId) then
    let '(success, st) :=
      addScanMonitorRequestToQueue env instanceId enable cookie st in
    if success then
      let success := platformAccepts env (outputs st) enable in
      let st := emit (PlatformConfigureScanMonitor enable) st in
      if negb success then
        (false,
         set_transitions
           (delete (length (mScanMonitorStateTransitions st) - 1)%nat
                   (mScanMonitorStateTransitions st)) st)
      else (true, st)
    else (false, st)
  else (false, st).

(** The [while] loop of [handleScanMonitorStateChangeSync] over the queue of
    transitions: [pending] is the queue at the start of an iteration. *)
Fixpoint processPendingTransitions (env : Env) (success : bool)
    (errorCode : Z) (pending : list ScanMonitorStateTransition)
    (st : WifiRequestManager) : WifiRequestManager :=
  let st := set_transitions pending st in
  match pending with
  | [] => st
  | stateTransition :: rest =>
    let hasScanMonitorRequest :=
      fst (nanoappHasScanMonitorRequest st
             (nanoappInstanceId stateTransition)) in
    if scanMonitorIsInRequestedState st (enable stateTransition)
                                     hasScanMonitorRequest then
      let '(alive, st) :=
        postScanMonitorAsyncResultEventFatal env
          (nanoappInstanceId stateTransition) success
          (enable stateTransition) errorCode (cookie stateTransition) st in
      if alive then processPendingTransitions env success errorCode rest st
      else st
    else if scanMonitorStateTransitionIsRequired st (enable stateTransition)
                                                 hasScanMonitorRequest then
      let accepted :=
        platformAccepts env (outputs st) (enable stateTransition) in
      let st := emit (PlatformConfigureScanMonitor (enable stateTransition))
                     st in
      if accepted then st
      else
        let '(alive, st) :=
          postScanMonitorAsyncResultEventFatal env
            (nanoappInstanceId stateTransition) false
            (enable stateTransition) CHRE_ERROR (cookie stateTransition) st in
        if alive then processPendingTransitions env success errorCode rest st
        else st
    else st
  end.

(** [WifiRequestManager::handleScanMonitorStateChangeSync] *)
Definition handleScanMonitorStateChangeSync (env : Env) (enabled : bool)
    (errorCode : Z) (st : WifiRequestManager) : WifiRequestManager :=
  let success := errorCode =? CHRE_ERROR_NONE in
  match mScanMonitorStateTransitions st with
  | [] => processPendingTransitions env success errorCode [] st
  | stateTransition :: rest =>
    let success := success && Bool.eqb (enable stateTransition) enabled in
    let '(alive, st) :=
      postScanMonitorAsyncResultEventFatal env
        (nanoappInstanceId stateTransition) success (enable stateTransition)
        errorCode (cookie stateTransition) st in
    if alive then processPendingTransitions env success errorCode rest st
    else st
  end.

(** The calls the manager receives. *)
Inductive Op :=
| Configure (instanceId : Z) (enable : bool) (cookie : Z)
| Completion (enabled : bool) (errorCode : Z).

Definition step (env : Env) (st : WifiRequestManager) (op : Op)
    : WifiRequestManager :=
  match op with
  | Configure instanceId enable cookie =>
      snd (configureScanMonitor env instanceId enable cookie st)
  | Completion enabled errorCode =>
      handleScanMonitorStateChangeSync env enabled errorCode st
  end.

Definition run (env : Env) (ops : list Op) (st : WifiRequestManager)
    : WifiRequestManager :=
  foldl (step env) st ops.

(** Surroundings in which nothing fails: the driver accepts every request,
    every event is posted, the vector grows, the queue takes 8 entries. *)
Definition cooperative : Env :=
  {| kMaxScanMonitorStateTransitions := 8;
     platformAccepts := fun _ _ => true;
     eventPosts := fun _ => true;
     vectorGrows := fun _ => true |}.

(** The predicate of the design document, over the list of monitoring
    nanoapps: [has_req] says that the nanoapp has an active request. *)
Definition in_requested_state (apps : list Z) (enable has_req : bool) : bool :=
  Bool.eqb enable (negb (length apps =? 0)%nat)
  || (negb enable && (negb has_req || (1 <? length apps)%nat)).

(** Whether the nanoapp is in the list of monitoring nanoapps. *)
Definition has_active_request (apps : list Z) (instanceId : Z) : bool :=
  existsb (Z.eqb instanceId) apps.

Definition is_AsyncResultEvent (o : Output) : bool :=
  match o with AsyncResultEvent _ _ _ _ => true | _ => false end.

(** The number of async results posted in a list of outputs. *)
Definition countAsyncResults (l : list Output) : nat :=
  length (List.filter is_AsyncResultEvent l).



End Wifi.

(* ===================================================================== *)
(** ** core/event.h and core/event_loop.cc: events and the event loop *)
(* ===================================================================== *)

Module EventLoop.

(** core/include/chre/core/event.h *)
Definition kSystemInstanceId : Z := 0.
Definition kBroadcastInstanceId : Z := 4294967295.   (* UINT32_MAX *)

(** [class Event]: the event type is a [uint16_t], the instance ids are
    [uint32_t], the data an opaque pointer and the free callback a function
    pointer ([None] for [nullptr]). *)
Record Event := mkEvent {
  eventType : Z;
  eventData : Z;
  freeCallback : option Z;
  senderInstanceId : Z;
  targetInstanceId : Z;
  mRefCount : nat
}.

Definition incrementRefCount (e : Event) : Event :=
  mkEvent (eventType e) (eventData e) (freeCallback e) (senderInstanceId e)
          (targetInstanceId e) (S (mRefCount e)).

Definition decrementRefCount (e : Event) : Event :=
  mkEvent (eventType e) (eventData e) (freeCallback e) (senderInstanceId e)
          (targetInstanceId e) (Nat.pred (mRefCount e)).

Definition isUnreferenced (e : Event) : bool := (mRefCount e =? 0)%nat.

(** An [Event *]: the index of a block of the event pool. *)
Abbreviation EventPtr := nat (only parsing).

(** Modelled from the spec: core/nanoapp.h is not among the sources. The
    "Nanoapp record" of the design document, as far as the event loop uses
    it, with its "bounded per-app event queue": the queue and the number of
    event pointers it can hold. [startResult] is what the nanoapp's start
    entry point returns; the entry points are code of the nanoapp and show
    in the trace of the loop only. *)
Record Nanoapp := mkNanoapp {
  mAppId : Z;
  mInstanceId : Z;
  mIsSystemNanoapp : bool;
  startResult : bool;
  mRegisteredEvents : list Z;
  mEventQueue : list EventPtr;
  mEventQueueCapacity : nat
}.

Definition getAppId (app : Nanoapp) : Z := mAppId app.
Definition getInstanceId (app : Nanoapp) : Z := mInstanceId app.

Definition setInstanceId (instanceId : Z) (app : Nanoapp) : Nanoapp :=
  mkNanoapp (mAppId app) instanceId (mIsSystemNanoapp app) (startResult app)
            (mRegisteredEvents app) (mEventQueue app)
            (mEventQueueCapacity app).

Definition setEventQueue (queue : list EventPtr) (app : Nanoapp) : Nanoapp :=
  mkNanoapp (mAppId app) (mInstanceId app) (mIsSystemNanoapp app)
            (startResult app) (mRegisteredEvents app) queue
            (mEventQueueCapacity app).

Definition hasPendingEvent (app : Nanoapp) : bool :=
  negb (length (mEventQueue app) =? 0)%nat.

(** Modelled from the spec: core/nanoapp.cc is not among the sources;
    "a.subscribed(event.type)" is membership in the set of subscribed
    broadcast event types. *)
Definition isRegisteredForBroadcastEvent (app : Nanoapp) (type : Z) : bool :=
  existsb (Z.eqb type) (mRegisteredEvents app).

(** What the loop does that nanoapps and the log can see, in order. Calls
    into nanoapp code carry the value of [mCurrentApp] at the call: the
    instance id of the nanoapp it points to, [None] for [nullptr]. The
    code that is called may call into the loop again while it runs (a
    handler or a free callback that posts an event): such a call of
    [postEvent] is not part of the functions below, which give what the
    loop itself does to its state. *)
Inductive Action :=
| NanoappStart (currentApp : option Z)
| NanoappHandleEvent (currentApp : option Z)
                     (senderInstanceId eventType eventData : Z)
| NanoappEnd (currentApp : option Z)
| FreeCallback (currentApp : option Z) (callback eventType eventData : Z)
| LogDroppingEvent (eventType : Z)
| LogError.

(** Constants and resources of the build and the platform that the sources
    at hand do not fix: the capacity of the inbound queue and whether the
    vector of nanoapps can take one more element at a given size. The
    capacity of the event pool is the number of its blocks. *)
Record Env := mkEnv {
  kMaxUnscheduledEventCount : nat;
  nanoappsCanGrow : nat -> bool
}.

(** Modelled from the spec: core/event_loop.h is not among the sources; the
    members are those that event_loop.cc uses, with the counter of instance
    ids of the event loop manager and the trace of what the loop did. *)
Record EventLoop := mkEventLoop {
  mRunning : bool;
  mNanoapps : list Nanoapp;
  mEvents : list EventPtr;
  mEventPool : list (option Event);
  mCurrentApp : option Z;
  mLastInstanceId : Z;
  trace : list Action
}.

Definition set_running (b : bool) (s : EventLoop) : EventLoop :=
  mkEventLoop b (mNanoapps s) (mEvents s) (mEventPool s) (mCurrentApp s)
              (mLastInstanceId s) (trace s).

Definition set_nanoapps (apps : list Nanoapp) (s : EventLoop) : EventLoop :=
  mkEventLoop (mRunning s) apps (mEvents s) (mEventPool s) (mCurrentApp s)
              (mLastInstanceId s) (trace s).

Definition set_events (events : list EventPtr) (s : EventLoop) : EventLoop :=
  mkEventLoop (mRunning s) (mNanoapps s) events (mEventPool s) (mCurrentApp s)
              (mLastInstanceId s) (trace s).

Definition set_pool (pool : list (option Event)) (s : EventLoop) : EventLoop :=
  mkEventLoop (mRunning s) (mNanoapps s) (mEvents s) pool (mCurrentApp s)
              (mLastInstanceId s) (trace s).

Definition set_current (app : option Z) (s : EventLoop) : EventLoop :=
  mkEventLoop (mRunning s) (mNanoapps s) (mEvents s) (mEventPool s) app
              (mLastInstanceId s) (trace s).

Definition set_last_instance_id (id : Z) (s : EventLoop) : EventLoop :=
  mkEventLoop (mRunning s) (mNanoapps s) (mEvents s) (mEventPool s)
              (mCurrentApp s) id (trace s).

Definition emit (a : Action) (s : EventLoop) : EventLoop :=
  mkEventLoop (mRunning s) (mNanoapps s) (mEvents s) (mEventPool s)
              (mCurrentApp s) (mLastInstanceId s) (trace s ++ [a]).

(** The event a pointer refers to, if the block is in use. *)
Definition deref (s : EventLoop) (event : EventPtr) : option Event :=
  mjoin (mEventPool s !! event).

(** Modelled from the spec: the pool ("bounded pool allocator") is not among
    the sources. [allocate] takes the first free block, if there is one. *)
Fixpoint first_free (pool : list (option Event)) : option EventPtr :=
  match pool with
  | [] => None
  | None :: _ => Some O
  | Some _ :: pool' => S <$> first_free pool'
  end.

Definition allocate (e : Event) (s : EventLoop) : option EventPtr * EventLoop :=
  match first_free (mEventPool s) with
  | Some event => (Some event, set_pool (<[event := Some e]> (mEventPool s)) s)
  | None => (None, s)
  end.

(** Modelled from the spec: [deallocate] returns the block to the pool. *)
Definition deallocate (event : EventPtr) (s : EventLoop) : EventLoop :=
  set_pool (<[event := None]> (mEventPool s)) s.

(** [EventLoop::lookupAppByAppId] *)
Definition lookupAppByAppId (s : EventLoop) (appId : Z) : option Nanoapp :=
  List.find (fun app => getAppId app =? appId) (mNanoapps s).

(** [EventLoop::lookupAppByInstanceId] *)
Definition lookupAppByInstanceId (s : EventLoop) (instanceId : Z)
    : option Nanoapp :=
  if negb (instanceId =? kSystemInstanceId) then
    List.find (fun app => getInstanceId app =? instanceId) (mNanoapps s)
  else None.

(** [EventLoop::findNanoappInstanceIdByAppId]: the instance id written to
    the out-parameter when an app is found. *)
Definition findNanoappInstanceIdByAppId (s : EventLoop) (appId : Z)
    : option Z :=
  getInstanceId <$> List.find (fun app => getAppId app =? appId) (mNanoapps s).

(** Modelled from the spec: [EventLoopManager::getNextInstanceId] is not
    among the sources; "assign a fresh monotonically increasing
    instance_id". *)
Definition getNextInstanceId (s : EventLoop) : Z * EventLoop :=
  let id := mLastInstanceId s + 1 in (id, set_last_instance_id id s).

(** [EventLoop::freeEvent] *)
Definition freeEvent (event : EventPtr) (s : EventLoop) : EventLoop :=
  match deref s event with
  | Some e =>
    let s :=
      match freeCallback e with
      | Some callback =>
        let s := set_current (getInstanceId
                                <$> lookupAppByInstanceId s (senderInstanceId e))
                             s in
        let s := emit (FreeCallback (mCurrentApp s) callback (eventType e)
                                    (eventData e)) s in
        set_current None s
      | None => s
      end in
    deallocate event s
  | None => s
  end.

(** [EventLoop::postEvent] *)
Definition postEvent (env : Env) (eventType eventData : Z)
    (freeCallback : option Z) (senderInstanceId targetInstanceId : Z)
    (s : EventLoop) : bool * EventLoop :=
  if mRunning s then
    let '(event, s) :=
      allocate (mkEvent eventType eventData freeCallback senderInstanceId
                        targetInstanceId 0) s in
    match event with
    | Some event =>
      if (length (mEvents s) <? kMaxUnscheduledEventCount env)%nat
      then (true, set_events (mEvents s ++ [event]) s)
      else (false, s)
    | None => (false, emit LogError s)
    end
  else (false, s).

(** [EventLoop::stop] *)
Definition stop (env : Env) (s : EventLoop) : EventLoop :=
  let '(_, s) := postEvent env 0 0 None kSystemInstanceId kSystemInstanceId s in
  set_running false s.

(** [EventLoop::startNanoapp]; the argument is a [UniquePtr<Nanoapp>],
    [None] when it is null. The event loop manager, which the code asks for
    an app with the same app id, holds this one event loop
    ([createEventLoop] asserts that there is no other). *)
Definition startNanoapp (env : Env) (nanoapp : option Nanoapp) (s : EventLoop)
    : bool * EventLoop :=
  match nanoapp with
  | None => (false, s)
  | Some nanoapp =>
    match findNanoappInstanceIdByAppId s (getAppId nanoapp) with
    | Some existingInstanceId => (false, emit LogError s)
    | None =>
      if negb (nanoappsCanGrow env (length (mNanoapps s))) then
        (false, emit LogError s)
      else
        let '(instanceId, s) := getNextInstanceId s in
        let newNanoapp := setInstanceId instanceId nanoapp in
        let s := set_nanoapps (mNanoapps s ++ [newNanoapp]) s in
        let s := set_current (Some (getInstanceId newNanoapp)) s in
        let s := emit (NanoappStart (mCurrentApp s)) s in
        let success := startResult newNanoapp in
        let s := set_current None s in
        if negb success then
          let s := emit LogError s in
          (false, set_nanoapps
                    (take (length (mNanoapps s) - 1)%nat (mNanoapps s)) s)
        else (true, s)
    end
  end.

(** The queue of the nanoapp can take one more event pointer. *)
Definition hasRoom (app : Nanoapp) : bool :=
  (length (mEventQueue app) <? mEventQueueCapacity app)%nat.

(** Modelled from the spec: [Nanoapp::postEvent] is not among the sources;
    "append the event to a.queue and increment its ref count", the queue
    being a "bounded FIFO of event pointers": "a full per-app queue causes
    that delivery attempt to fail", and nothing is appended or counted
    then. [distributeEvent] does not look at a result of the call. *)
Definition Nanoapp_postEvent (event : EventPtr) (app : Nanoapp)
    (pool : list (option Event)) : Nanoapp * list (option Event) :=
  if hasRoom app then
    (setEventQueue (mEventQueue app ++ [event]) app,
     alter (fmap incrementRefCount) event pool)
  else (app, pool).

(** The condition of the loop of [distributeEvent]. *)
Definition isRecipient (e : Event) (app : Nanoapp) : bool :=
  ((targetInstanceId e =? kBroadcastInstanceId)
   && isRegisteredForBroadcastEvent app (eventType e))
  || (targetInstanceId e =? getInstanceId app).

(** The loop of [distributeEvent] over the nanoapps. *)
Fixpoint distributeToNanoapps (e : Event) (event : EventPtr)
    (apps : list Nanoapp) (pool : list (option Event))
    : list Nanoapp * list (option Event) :=
  match apps with
  | [] => ([], pool)
  | app :: apps' =>
    let '(app, pool) :=
      if isRecipient e app then Nanoapp_postEvent event app pool
      else (app, pool) in
    let '(apps', pool) := distributeToNanoapps e event apps' pool in
    (app :: apps', pool)
  end.

(** [EventLoop::distributeEvent] *)
Definition distributeEvent (event : EventPtr) (s : EventLoop) : EventLoop :=
  match deref s event with
  | Some e =>
    let '(apps, pool) :=
      distributeToNanoapps e event (mNanoapps s) (mEventPool s) in
    let s := set_pool pool (set_nanoapps apps s) in
    match deref s event with
    | Some e =>
      if isUnreferenced e then
        let s := if negb (senderInstanceId e =? kSystemInstanceId)
                 then emit (LogDroppingEvent (eventType e)) s else s in
        freeEvent event s
      else s
    | None => s
    end
  | None => s
  end.

(** The loop of [flushInboundEventQueue]: distribute the inbound events in
    order; [fuel] bounds the number of iterations. *)
Fixpoint flushInboundEventQueue_loop (fuel : nat) (s : EventLoop) : EventLoop :=
  match fuel with
  | O => s
  | S fuel' =>
    match mEvents s with
    | [] => s
    | event :: rest =>
      flushInboundEventQueue_loop fuel' (distributeEvent event (set_events rest s))
    end
  end.

(** [EventLoop::flushInboundEventQueue]; nothing is added to the inbound
    queue meanwhile, so its length bounds the loop. *)
Definition flushInboundEventQueue (s : EventLoop) : EventLoop :=
  flushInboundEventQueue_loop (length (mEvents s)) s.

(** Modelled from the spec: [Nanoapp::processNextEvent] is not among the
    sources; the head of the queue is handed to the nanoapp's handler and
    the nanoapp's reference to it is dropped. The result is the event taken
    from the queue. *)
Definition processNextEvent (index : nat) (s : EventLoop)
    : option EventPtr * EventLoop :=
  match mNanoapps s !! index with
  | Some app =>
    match mEventQueue app with
    | event :: rest =>
      let s := set_nanoapps (<[index := setEventQueue rest app]> (mNanoapps s))
                            s in
      let s := match deref s event with
               | Some e => emit (NanoappHandleEvent (mCurrentApp s)
                                   (senderInstanceId e) (eventType e)
                                   (eventData e)) s
               | None => s
               end in
      (Some event,
       set_pool (alter (fmap decrementRefCount) event (mEventPool s)) s)
    | [] => (None, s)
    end
  | None => (None, s)
  end.

(** [EventLoop::deliverNextEvent], for the nanoapp at [index]. *)
Definition deliverNextEvent (index : nat) (s : EventLoop) : bool * EventLoop :=
  let s := set_current (getInstanceId <$> mNanoapps s !! index) s in
  let '(event, s) := processNextEvent index s in
  let s := set_current None s in
  let s := match event with
           | Some event =>
             match deref s event with
             | Some e => if isUnreferenced e then freeEvent event s else s
             | None => s
             end
           | None => s
           end in
  (from_option hasPendingEvent false (mNanoapps s !! index), s).

(** The loop of [deliverEvents] over the nanoapps from [index] on. *)
Fixpoint deliverEvents_loop (count index : nat) (havePendingEvents : bool)
    (s : EventLoop) : bool * EventLoop :=
  match count with
  | O => (havePendingEvents, s)
  | S count' =>
    match mNanoapps s !! index with
    | Some app =>
      if hasPendingEvent app then
        let '(pending, s) := deliverNextEvent index s in
        deliverEvents_loop count' (S index) (havePendingEvents || pending) s
      else deliverEvents_loop count' (S index) havePendingEvents s
    | None => (havePendingEvents, s)
    end
  end.

(** [EventLoop::deliverEvents] *)
Definition deliverEvents (s : EventLoop) : bool * EventLoop :=
  deliverEvents_loop (length (mNanoapps s)) 0 false s.

(** [while (deliverEvents());] with [None] when the fuel is used up first. *)
Fixpoint flushNanoappEventQueues_loop (fuel : nat) (s : EventLoop)
    : option EventLoop :=
  match fuel with
  | O => None
  | S fuel' =>
    let '(havePendingEvents, s) := deliverEvents s in
    if havePendingEvents then flushNanoappEventQueues_loop fuel' s
    else Some s
  end.

(** The number of events waiting in the queues of the nanoapps. *)
Definition pendingEvents (s : EventLoop) : nat :=
  sum_list (map (fun app => length (mEventQueue app)) (mNanoapps s)).

(** [EventLoop::flushNanoappEventQueues] *)
Definition flushNanoappEventQueues (s : EventLoop) : option EventLoop :=
  flushNanoappEventQueues_loop (S (pendingEvents s)) s.

(** [EventLoop::unloadNanoappAtIndex] *)
Definition unloadNanoappAtIndex (index : nat) (s : EventLoop) : EventLoop :=
  match mNanoapps s !! index with
  | Some nanoapp =>
    let s := set_current (Some (getInstanceId nanoapp)) s in
    let s := emit (NanoappEnd (mCurrentApp s)) s in
    let s := set_current None s in
    set_nanoapps (delete index (mNanoapps s)) s
  | None => s
  end.

(** [while (!mEvents.empty()) freeEvent(mEvents.pop());] *)
Fixpoint freeInboundEvents_loop (fuel : nat) (s : EventLoop) : EventLoop :=
  match fuel with
  | O => s
  | S fuel' =>
    match mEvents s with
    | [] => s
    | event :: rest =>
      freeInboundEvents_loop fuel' (freeEvent event (set_events rest s))
    end
  end.

(** [while (!mNanoapps.empty()) unloadNanoappAtIndex(mNanoapps.size() - 1);] *)
Fixpoint unloadAllNanoapps_loop (fuel : nat) (s : EventLoop) : EventLoop :=
  match fuel with
  | O => s
  | S fuel' =>
    if negb (length (mNanoapps s) =? 0)%nat then
      unloadAllNanoapps_loop fuel'
        (unloadNanoappAtIndex (length (mNanoapps s) - 1)%nat s)
    else s
  end.

(** The statements of [EventLoop::run] after its main loop. *)
Definition run_exit (s : EventLoop) : option EventLoop :=
  s ← flushNanoappEventQueues s;
  let s := freeInboundEvents_loop (length (mEvents s)) s in
  Some (unloadAllNanoapps_loop (length (mNanoapps s)) s).

(** The shutdown drain in the words of the design document: "(a) flush all
    inbound events through distribute; (b) call deliver repeatedly until all
    per-nanoapp queues drain; (c) unload every remaining nanoapp in reverse
    index order". *)
Definition shutdown_drain_spec (s : EventLoop) : option EventLoop :=
  let s := flushInboundEventQueue s in
  s ← flushNanoappEventQueues s;
  Some (unloadAllNanoapps_loop (length (mNanoapps s)) s).

(** The event pool has no free block. *)
Definition poolExhausted (s : EventLoop) : bool :=
  forallb (fun block => match block with Some _ => true | None => false end)
          (mEventPool s).

(** The inbound queue holds as many events as it can. *)
Definition inboundQueueFull (env : Env) (s : EventLoop) : bool :=
  negb (length (mEvents s) <? kMaxUnscheduledEventCount env)%nat.

(** The inbound queue holds pointers to distinct blocks in use. *)
Definition inboundWellFormed (s : EventLoop) : Prop :=
  NoDup (mEvents s) /\ forall event, In event (mEvents s) ->
                                     is_Some (deref s event).

(** The blocks of the pool that are in use. *)
Definition blocksInUse (pool : list (option Event)) : list EventPtr :=
  List.filter (fun i => match mjoin (pool !! i) with
                        | Some _ => true
                        | None => false
                        end)
              (seq 0 (length pool)).

(** An app with the given app id is in the list of nanoapps. *)
Definition appIdExists (s : EventLoop) (appId : Z) : bool :=
  existsb (fun app => getAppId app =? appId) (mNanoapps s).

(** The nanoapp is a recipient of the event and its queue can take it. *)
Definition takesEvent (e : Event) (app : Nanoapp) : bool :=
  isRecipient e app && hasRoom app.

(** The nanoapp after [distributeEvent] gave it the event, or passed it by. *)
Definition afterDistribute (e : Event) (event : EventPtr) (app : Nanoapp)
    : Nanoapp :=
  if takesEvent e app then setEventQueue (mEventQueue app ++ [event]) app
  else app.

(** What a call of [freeEvent] for [e] adds to the trace. *)
Definition freeEventActions (s : EventLoop) (e : Event) : list Action :=
  match freeCallback e with
  | Some callback =>
      [FreeCallback (getInstanceId
                       <$> lookupAppByInstanceId s (senderInstanceId e))
                    callback (eventType e) (eventData e)]
  | None => []
  end.

(** The event with [n] more references. *)
Definition addRefs (n : nat) (e : Event) : Event :=
  mkEvent (eventType e) (eventData e) (freeCallback e) (senderInstanceId e)
          (targetInstanceId e) (mRefCount e + n).

(** The nanoapp without the head of its queue. *)
Definition popHead (app : Nanoapp) : Nanoapp :=
  setEventQueue (tail (mEventQueue app)) app.

Definition is_delivery (a : Action) : bool :=
  match a with
  | NanoappHandleEvent _ _ _ _ | FreeCallback _ _ _ _ => true
  | _ => false
  end.


Definition is_NanoappEnd (a : Action) : bool :=
  match a with NanoappEnd _ => true | _ => false end.

(** The arguments of a call of [postEvent]. *)
Record PostedEvent := mkPostedEvent {
  postedType : Z;
  postedData : Z;
  postedFreeCallback : option Z;
  postedSender : Z;
  postedTarget : Z
}.

(** The event that [postEvent] builds from its arguments. *)
Definition eventOf (p : PostedEvent) : Event :=
  mkEvent (postedType p) (postedData p) (postedFreeCallback p)
          (postedSender p) (postedTarget p) 0.

Definition post (env : Env) (p : PostedEvent) (s : EventLoop)
    : bool * EventLoop :=
  postEvent env (postedType p) (postedData p) (postedFreeCallback p)
            (postedSender p) (postedTarget p) s.

(** [EventLoop::currentNanoappIsStopping]; [mStoppingNanoapp] is the
    instance id of the nanoapp that [unloadNanoapp] is unloading, [None]
    for [nullptr]. *)
Definition currentNanoappIsStopping (mStoppingNanoapp : option Z)
    (s : EventLoop) : bool :=
  bool_decide (mCurrentApp s = mStoppingNanoapp) || negb (mRunning s).

(** [EventLoop::findNanoappByInstanceId] (the lock apart). *)
Definition findNanoappByInstanceId (s : EventLoop) (instanceId : Z)
    : option Nanoapp :=
  lookupAppByInstanceId s instanceId.


(** One pass through the body of the main loop of [run]: [None] when
    [mEvents.pop()] finds the inbound queue empty and blocks. *)
Definition run_iteration (havePendingEvents : bool) (s : EventLoop)
    : option (bool * EventLoop) :=
  if negb havePendingEvents || negb (length (mEvents s) =? 0)%nat then
    match mEvents s with
    | event :: rest =>
        Some (deliverEvents (distributeEvent event (set_events rest s)))
    | [] => None
    end
  else Some (deliverEvents s).

(** Modelled from the spec: the host communication manager is not among
    the sources; "ask the host bridge to drain messages sent by this app's
    app_id (each message's free callback becomes a pending event in the
    inbound queue)". [posts] are the events that the drain posts. *)
Definition flushMessagesSentByNanoapp (env : Env) (posts : list PostedEvent)
    (s : EventLoop) : EventLoop :=
  foldl (fun s p => snd (post env p s)) s posts.

(** The scan of [unloadNanoapp] for the first nanoapp with the instance
    id, from index [i] on. *)
Fixpoint findIndexByInstanceId (apps : list Nanoapp) (instanceId : Z)
    (i : nat) : option (nat * Nanoapp) :=
  match apps with
  | [] => None
  | app :: apps' =>
    if instanceId =? getInstanceId app then Some (i, app)
    else findIndexByInstanceId apps' instanceId (S i)
  end.

(** [EventLoop::unloadNanoapp]; [posts] are the events posted while the
    messages of the nanoapp are flushed. [mStoppingNanoapp] is set while the
    queues of the nanoapps are flushed and cleared before the function
    returns; it is read by [currentNanoappIsStopping] only. [None] when the
    fuel of [flushNanoappEventQueues] is used up. *)
Definition unloadNanoapp (env : Env) (posts : list PostedEvent)
    (instanceId : Z) (allowSystemNanoappUnload : bool) (s : EventLoop)
    : option (bool * EventLoop) :=
  match findIndexByInstanceId (mNanoapps s) instanceId 0 with
  | Some (i, app) =>
    if negb allowSystemNanoappUnload && mIsSystemNanoapp app then
      Some (false, emit LogError s)
    else
      let s := flushMessagesSentByNanoapp env posts s in
      let s := flushInboundEventQueue s in
      s ← flushNanoappEventQueues s;
      let s := unloadNanoappAtIndex i s in
      Some (true, s)
  | None => Some (false, s)
  end.

(** The nanoapp without the events of its queue. *)
Definition withoutQueue (app : Nanoapp) : Nanoapp := setEventQueue [] app.

(** No event waits in the inbound queue or in the queue of a nanoapp. *)
Definition idle (s : EventLoop) : Prop :=
  mEvents s = [] /\ Forall (fun app => mEventQueue app = []) (mNanoapps s).

Definition is_drop_or_free (a : Action) : bool :=
  match a with
  | LogDroppingEvent _ | FreeCallback _ _ _ _ => true
  | _ => false
  end.

(** The call of the handler of a nanoapp for an event. *)
Definition handlerCall (e : Event) (app : Nanoapp) : Action :=
  NanoappHandleEvent (Some (getInstanceId app)) (senderInstanceId e)
                     (eventType e) (eventData e).

(** The calls that the event loop receives. *)
Inductive LoopOp :=
| OpPostEvent (p : PostedEvent)
| OpStartNanoapp (nanoapp : option Nanoapp)
| OpDistribute
| OpDeliver
| OpUnloadNanoapp (posts : list PostedEvent) (instanceId : Z)
                  (allowSystemNanoappUnload : bool)
| OpStop.

Definition loopStep (env : Env) (s : EventLoop) (op : LoopOp) : EventLoop :=
  match op with
  | OpPostEvent p => snd (post env p s)
  | OpStartNanoapp nanoapp => snd (startNanoapp env nanoapp s)
  | OpDistribute =>
    match mEvents s with
    | event :: rest => distributeEvent event (set_events rest s)
    | [] => s
    end
  | OpDeliver => snd (deliverEvents s)
  | OpUnloadNanoapp posts instanceId allow =>
    match unloadNanoapp env posts instanceId allow s with
    | Some (_, s') => s'
    | None => s
    end
  | OpStop => stop env s
  end.

Definition runOps (env : Env) (ops : list LoopOp) (s : EventLoop) : EventLoop :=
  foldl (loopStep env) s ops.

(** A loop without nanoapps and events, with a pool of [blocks] free
    blocks. *)
Definition newEventLoop (running : bool) (blocks : nat) : EventLoop :=
  mkEventLoop running [] [] (replicate blocks None) None 0 [].

(** The nanoapp [app'] is [app] with events appended to its queue. *)
Definition queueGrows (app app' : Nanoapp) : Prop :=
  withoutQueue app' = withoutQueue app
  /\ mEventQueue app `prefix_of` mEventQueue app'.

(** The event pointers that wait in the queues of the nanoapps. *)
Definition queuedEvents (apps : list Nanoapp) : list EventPtr :=
  flat_map mEventQueue apps.

(** How often an event waits in the queues of the nanoapps. *)
Definition countQueued (apps : list Nanoapp) (event : EventPtr) : nat :=
  length (List.filter (Nat.eqb event) (queuedEvents apps)).

(** The pointers that the loop holds are accounted for in the pool: the
    inbound queue holds pointers to distinct blocks in use that wait in no
    queue of a nanoapp, the queues of the nanoapps hold pointers to blocks
    in use, and the reference count of every block in use is the number of
    times it waits in these queues. *)
Definition eventsAccounted (apps : list Nanoapp) (events : list EventPtr)
    (pool : list (option Event)) : Prop :=
  NoDup events
  /\ (forall event, In event events ->
        is_Some (mjoin (pool !! event))
        /\ ~ In event (queuedEvents apps))
  /\ (forall event, In event (queuedEvents apps) ->
        is_Some (mjoin (pool !! event)))
  /\ (forall event e, pool !! event = Some (Some e) ->
        mRefCount e = countQueued apps event).

(** The pointers of the loop in a state are accounted for in its pool. *)
Definition accounted (s : EventLoop) : Prop :=
  eventsAccounted (mNanoapps s) (mEvents s) (mEventPool s).

(** The nanoapp that a call of [startNanoapp] hands over has no event
    waiting yet. *)
Definition startsFresh (op : LoopOp) : Prop :=
  match op with
  | OpStartNanoapp (Some nanoapp) => mEventQueue nanoapp = []
  | _ => True
  end.

End EventLoop.

(* ===================================================================== *)
(** ** Properties of SensorRequest *)
(* ===================================================================== *)

Section SensorsFacts.
Import Sensors.

Lemma SensorMode_eqb_eq a b : SensorMode_eqb a b = true <-> a = b.
Proof. destruct a, b; simpl; split; congruence. Qed.

Lemma isEquivalentTo_eq x y : isEquivalentTo x y = true <-> x = y.
Proof.
  destruct x as [i l m], y as [i' l' m']. unfold isEquivalentTo. simpl.
  rewrite !andb_true_iff, SensorMode_eqb_eq, !N.eqb_eq.
  split; [intros [[-> ->] ->]; reflexivity | intros [= -> -> ->]; auto].
Qed.

(** The merged mode is the one of the record that is merged with the
    default-constructed request. *)
Lemma generateIntersectionOf_default_mode x :
  getMode (generateIntersectionOf x SensorRequest_default) = getMode x.
Proof. destruct x as [i l []]; reflexivity. Qed.

Lemma generateIntersectionOf_comm x y :
  generateIntersectionOf x y = generateIntersectionOf y x.
Proof.
  destruct x as [i l m], y as [i' l' m']. unfold generateIntersectionOf.
  simpl. rewrite (N.min_comm i i'), (N.min_comm l l').
  destruct m, m'; reflexivity.
Qed.

Lemma generateIntersectionOf_assoc x y z :
  generateIntersectionOf (generateIntersectionOf x y) z
  = generateIntersectionOf x (generateIntersectionOf y z).
Proof.
  destruct x as [i l m], y as [i' l' m'], z as [i'' l'' m''].
  unfold generateIntersectionOf. simpl.
  rewrite <- !N.min_assoc. destruct m, m', m''; reflexivity.
Qed.

Lemma generateIntersectionOf_idem x : generateIntersectionOf x x = x.
Proof.
  destruct x as [i l m]. unfold generateIntersectionOf. simpl.
  rewrite !N.min_id. destruct m; reflexivity.
Qed.

(** Merging [x] with the default-constructed request (mode off, interval
    0, latency 0) keeps the mode of [x] and gives interval 0 and latency
    0, the minimum with the default's zeros; the result is equivalent to
    [x] exactly when the interval and the latency of [x] are both 0. The
    merge is commutative, associative and idempotent. *)
Lemma generateIntersectionOf_default x y z :
  generateIntersectionOf x SensorRequest_default
    = SensorRequest_of (getMode x) 0%N 0%N
  /\ (isEquivalentTo (generateIntersectionOf x SensorRequest_default) x = true
      <-> getInterval x = 0%N /\ getLatency x = 0%N)
  /\ generateIntersectionOf x y = generateIntersectionOf y x
  /\ generateIntersectionOf (generateIntersectionOf x y) z
     = generateIntersectionOf x (generateIntersectionOf y z)
  /\ generateIntersectionOf x x = x.
Proof.
  assert (E : generateIntersectionOf x SensorRequest_default
              = SensorRequest_of (getMode x) 0%N 0%N).
  { destruct x as [i l m]. unfold generateIntersectionOf. simpl.
    rewrite !N.min_0_r. destruct m; reflexivity. }
  split; [exact E |]. split.
  - rewrite E, isEquivalentTo_eq. destruct x as [i l m]. simpl.
    unfold SensorRequest_of. split.
    + intros [= <- <-]. auto.
    + intros [-> ->]. reflexivity.
  - split; [apply generateIntersectionOf_comm |].
    split; [apply generateIntersectionOf_assoc
           | apply generateIntersectionOf_idem].
Qed.

(** The default-constructed request is not an identity of the merge: an
    active continuous request with an interval and a latency of 10 ns is
    not equivalent to its merge with it. *)
Lemma generateIntersectionOf_default_not_identity :
  ~ (forall x, isEquivalentTo
                 (generateIntersectionOf x SensorRequest_default) x = true).
Proof.
  intros H.
  specialize (H (SensorRequest_of ActiveContinuous 10%N 10%N)).
  vm_compute in H. discriminate.
Qed.

(** C4, the code at the failing input: the request of the tests
    LowerLatencyIsHigherPriorityThanHigherLatency and
    HigherFrequencyIsHigherPriorityThanLowerFrequency (active continuous,
    interval and latency 10 ns) merged with the default-constructed
    request comes out with interval 0 and latency 0, on whichever side the
    default request stands, and is not equivalent to the request. *)
Example generateIntersectionOf_default_at_10ns :
  let x := SensorRequest_of ActiveContinuous 10%N 10%N in
  SensorRequest_default = SensorRequest_of Off 0%N 0%N
  /\ generateIntersectionOf x SensorRequest_default
     = SensorRequest_of ActiveContinuous 0%N 0%N
  /\ generateIntersectionOf SensorRequest_default x
     = SensorRequest_of ActiveContinuous 0%N 0%N
  /\ isEquivalentTo (generateIntersectionOf x SensorRequest_default) x = false.
Proof. vm_compute. repeat split; reflexivity. Qed.

(** Requests that ask for the default interval and latency of the CHRE API
    (the largest [uint64_t]) do behave as identities for the two minima, as
    the tests NonDefaultAndDefaultFrequency and NonDefaultAndDefaultLatency
    expect. *)
Lemma generateIntersectionOf_sentinel_identity x :
  (mInterval x <= 18446744073709551615)%N ->
  (mLatency x <= 18446744073709551615)%N ->
  generateIntersectionOf x
    (SensorRequest_of Off 18446744073709551615%N 18446744073709551615%N)
  = x.
Proof.
  intros Hi Hl. destruct x as [i l m]. unfold generateIntersectionOf.
  simpl in *. rewrite !N.min_l by assumption. destruct m; reflexivity.
Qed.

(** X1: the mode of a merged request is the one of higher priority among
    the two (off < passive one-shot < passive continuous < active one-shot
    < active continuous), and its interval and latency are the smaller
    ones. *)
Theorem generateIntersectionOf_max_priority x y :
  modePriority (getMode (generateIntersectionOf x y))
  = Nat.max (modePriority (getMode x)) (modePriority (getMode y))
  /\ (getMode (generateIntersectionOf x y) = getMode x
      \/ getMode (generateIntersectionOf x y) = getMode y)
  /\ getInterval (generateIntersectionOf x y)
     = N.min (getInterval x) (getInterval y)
  /\ getLatency (generateIntersectionOf x y)
     = N.min (getLatency x) (getLatency y).
Proof.
  destruct x as [i l m], y as [i' l' m']. unfold generateIntersectionOf.
  simpl. destruct m, m'; simpl; auto.
Qed.

(** X2: [isEquivalentTo] holds exactly for equal requests; it is therefore
    reflexive, symmetric and transitive, and merging equivalent requests
    gives equivalent results. *)
Theorem isEquivalentTo_is_equality x y :
  (isEquivalentTo x y = true <-> x = y)
  /\ isEquivalentTo x x = true
  /\ isEquivalentTo x y = isEquivalentTo y x
  /\ (forall z, isEquivalentTo x y = true ->
                isEquivalentTo (generateIntersectionOf x z)
                               (generateIntersectionOf y z) = true).
Proof.
  split; [apply isEquivalentTo_eq |]. split; [apply isEquivalentTo_eq; auto |].
  split.
  - destruct (isEquivalentTo x y) eqn:Hxy, (isEquivalentTo y x) eqn:Hyx; auto.
    + apply isEquivalentTo_eq in Hxy. subst.
      rewrite (proj2 (isEquivalentTo_eq y y) eq_refl) in Hyx. discriminate.
    + apply isEquivalentTo_eq in Hyx. subst.
      rewrite (proj2 (isEquivalentTo_eq x x) eq_refl) in Hxy. discriminate.
  - intros z Hxy. apply isEquivalentTo_eq in Hxy. subst.
    apply isEquivalentTo_eq. reflexivity.
Qed.

Lemma mergeAll_swap start x y requests :
  mergeAll start (x :: y :: requests) = mergeAll start (y :: x :: requests).
Proof.
  unfold mergeAll. simpl. f_equal.
  rewrite !generateIntersectionOf_assoc.
  rewrite (generateIntersectionOf_comm x y). reflexivity.
Qed.

(** X3: the merge of a collection of requests does not depend on the order
    in which they are merged. *)
Theorem mergeAll_order_independent start requests requests' :
  Permutation requests requests' ->
  mergeAll start requests = mergeAll start requests'.
Proof.
  intros Hperm. revert start.
  induction Hperm as [| x l l' _ IH | x y l | l l' l'' _ IH1 _ IH2];
    intros start.
  - reflexivity.
  - apply (IH (generateIntersectionOf start x)).
  - apply mergeAll_swap.
  - rewrite IH1. apply IH2.
Qed.

(** An instance: three requests, merged in two orders. *)
Lemma mergeAll_order_independent_witness :
  let a := SensorRequest_of ActiveOneShot 20%N 50%N in
  let b := SensorRequest_of PassiveContinuous 10%N 100%N in
  let c := SensorRequest_of Off 30%N 5%N in
  Permutation [a; b; c] [c; a; b]
  /\ mergeAll (SensorRequest_of Off 1000%N 1000%N) [a; b; c]
     = mergeAll (SensorRequest_of Off 1000%N 1000%N) [c; a; b].
Proof.
  intros a b c.
  assert (Hperm : Permutation [a; b; c] [c; a; b]).
  { change [c; a; b] with ([c] ++ [a; b]).
    change [a; b; c] with ([a; b] ++ [c]). apply Permutation_app_comm. }
  split; [exact Hperm |].
  apply (mergeAll_order_independent _ _ _ Hperm).
Defined.

End SensorsFacts.

(* ===================================================================== *)
(** ** Properties of the request multiplexer *)
(* ===================================================================== *)

Section MultiplexerFacts.
Import Multiplexer.
Context {R : Type} `{Request R}.

Lemma updateMaximalRequest_maximal requests (m : RequestMultiplexer R) :
  getCurrentMaximalRequest (snd (updateMaximalRequest requests m))
  = foldl merge identity (getRequests (snd (updateMaximalRequest requests m))).
Proof. reflexivity. Qed.

Lemma step_maximal (m : RequestMultiplexer R) op :
  getCurrentMaximalRequest m = foldl merge identity (getRequests m) ->
  getCurrentMaximalRequest (snd (step m op))
  = foldl merge identity (getRequests (snd (step m op))).
Proof.
  intros Hm. destruct op as [[] r | i]; simpl; try exact Hm; reflexivity.
Qed.

Lemma run_snoc ops op (m : RequestMultiplexer R) :
  run (ops ++ [op]) m = snd (step (run ops m) op).
Proof. unfold run. rewrite foldl_app. reflexivity. Qed.

Lemma run_maximal ops :
  getCurrentMaximalRequest (run ops (empty (R := R)))
  = foldl merge identity (getRequests (run ops (empty (R := R)))).
Proof.
  induction ops as [| op ops IH] using rev_ind; [reflexivity |].
  rewrite run_snoc. apply step_maximal, IH.
Qed.

(** C2: after every sequence of addRequest and removeRequest calls on a
    fresh multiplexer the cached maximal is the fold of the merge over the
    stored requests from the default request; and whatever call comes next,
    a failed addRequest changes nothing, and any other call writes to its
    out-parameter whether the maximal after it is not equivalent to the one
    before. *)
Theorem multiplexer_maximal_is_fold (ops : list (MuxOp R)) :
  let m := run ops empty in
  getCurrentMaximalRequest m = foldl merge identity (getRequests m)
  /\ forall op,
       match step m op with
       | (Some changed, m') =>
           changed = negb (equivalent_to (getCurrentMaximalRequest m)
                                         (getCurrentMaximalRequest m'))
           /\ getRequests m' =
                match op with
                | OpAdd _ request => getRequests m ++ [request]
                | OpRemove index => delete index (getRequests m)
                end
       | (None, m') => m' = m /\ exists request, op = OpAdd false request
       end.
Proof.
  intros m. split; [apply run_maximal |].
  intros [[] r | i]; simpl; eauto.
Qed.

End MultiplexerFacts.

(** The expectations of core/tests/request_multiplexer_test.cc, replayed on
    the model. *)
Section MultiplexerTests.
Import Multiplexer.

Let add (p : Z) := addRequest true (mkDummyRequest p).

Example DefaultRequestDoesNotCauseNewMaximal :
  let '(changed, m) := add 0 empty in
  changed = Some false /\ getPriority (getCurrentMaximalRequest m) = 0.
Proof. vm_compute. auto. Qed.

Example NewLowerPriorityRequestDoesNotCauseNewMaximal :
  let '(c1, m1) := add 10 empty in
  let '(c2, m2) := add 5 m1 in
  c1 = Some true /\ c2 = Some false
  /\ getPriority (getCurrentMaximalRequest m2) = 10.
Proof. vm_compute. auto. Qed.

Example AddOneRemoveMaximal :
  let '(c1, m1) := add 10 empty in
  let '(c2, m2) := removeRequest 0 m1 in
  c1 = Some true /\ c2 = true
  /\ equivalent_to (getCurrentMaximalRequest m2) identity = true
  /\ getRequests m2 = [].
Proof. vm_compute. auto. Qed.

Example AddManyRemoveBeforeMaximalThenRemoveMaximal :
  let '(_, m1) := add 1 empty in
  let '(_, m2) := add 5 m1 in
  let '(c3, m3) := add 10 m2 in
  let '(c4, m4) := removeRequest 0 m3 in
  let '(c5, m5) := removeRequest 1 m4 in
  c3 = Some true /\ c4 = false /\ c5 = true
  /\ getPriority (getCurrentMaximalRequest m4) = 10
  /\ getPriority (getCurrentMaximalRequest m5) = 5
  /\ map getPriority (getRequests m5) = [5].
Proof. vm_compute. auto 10. Qed.

(** Two sensor requests, {active continuous, 10 ms, 100 ms} and {passive
    one-shot, 20 ms, 50 ms}, in a multiplexer of sensor requests: the fold
    starts from the default-constructed request, whose interval and latency
    are 0, and so are those of the maximal. *)
Example sensor_requests_maximal :
  let '(_, m1) :=
    addRequest true
      (Sensors.SensorRequest_of Sensors.ActiveContinuous 10000000%N
                                100000000%N)
      empty in
  let '(_, m2) :=
    addRequest true
      (Sensors.SensorRequest_of Sensors.PassiveOneShot 20000000%N 50000000%N)
      m1 in
  getCurrentMaximalRequest m2
  = Sensors.SensorRequest_of Sensors.ActiveContinuous 0%N 0%N.
Proof. vm_compute. reflexivity. Qed.

End MultiplexerTests.

(* ===================================================================== *)
(** ** Properties of SocketClient::reconnect *)
(* ===================================================================== *)

Section SocketClientFacts.
Import SocketClient.

Lemma waits_app t1 t2 : waits (t1 ++ t2) = waits t1 ++ waits t2.
Proof. apply omap_app. Qed.

Lemma attempts_app t1 t2 : attempts (t1 ++ t2) = (attempts t1 + attempts t2)%nat.
Proof. unfold attempts. rewrite List.filter_app, length_app. reflexivity. Qed.

Lemma reconnected_calls_app t1 t2 :
  reconnected_calls (t1 ++ t2)
  = (reconnected_calls t1 + reconnected_calls t2)%nat.
Proof.
  unfold reconnected_calls. rewrite List.filter_app, length_app. reflexivity.
Qed.

(** The delay after a failed attempt: doubling never leaves [int32_t] and
    the cap keeps the closed form. *)
Lemma next_delay (i : nat) :
  let delay := Z.min (500 * 2 ^ Z.of_nat i) kMaxDelay in
  (if wrap_int32 (delay * 2) >? kMaxDelay then kMaxDelay
   else wrap_int32 (delay * 2))
  = Z.min (500 * 2 ^ Z.of_nat (S i)) kMaxDelay.
Proof.
  intros delay.
  assert (Hp : 0 < 2 ^ Z.of_nat i) by (apply Z.pow_pos_nonneg; lia).
  rewrite Nat2Z.inj_succ, Z.pow_succ_r by lia.
  assert (Hd : 0 < delay <= 300000) by (unfold delay, kMaxDelay; lia).
  assert (Hw : wrap_int32 (delay * 2) = delay * 2).
  { unfold wrap_int32. rewrite Z.mod_small; lia. }
  rewrite Hw. unfold delay, kMaxDelay in *.
  destruct (Z.gtb_spec (Z.min (500 * 2 ^ Z.of_nat i) (5 * 60 * 1000) * 2)
                       (5 * 60 * 1000)); lia.
Qed.

Lemma reconnect_loop_spec env fuel : forall iter trace,
  (0 < fuel)%nat ->
  exists ok tr,
    reconnect_loop fuel env iter (Z.of_nat fuel)
      (Z.min (500 * 2 ^ Z.of_nat iter) kMaxDelay) trace
    = Some (ok, trace ++ tr)
    /\ (forall k d, waits tr !! k = Some d ->
          d = Z.min (500 * 2 ^ Z.of_nat (iter + k)) kMaxDelay)
    /\ (attempts tr <= fuel - 1)%nat
    /\ ok = connects_within env iter (fuel - 1)
    /\ reconnected_calls tr = (if ok then 1 else 0)%nat.
Proof.
  induction fuel as [| fuel IH]; intros iter trace Hf; [lia |].
  cbn [reconnect_loop].
  replace (Z.of_nat (S fuel) - 1) with (Z.of_nat fuel) by lia.
  replace (S fuel - 1)%nat with fuel by lia.
  destruct (Z.gtb_spec (Z.of_nat fuel) 0) as [Hpos | Hzero].
  2:{ exists false, []. assert (fuel = 0%nat) as -> by lia.
      rewrite app_nil_r. repeat split; auto. intros k d Hk. destruct k; discriminate. }
  destruct fuel as [| fuel']; [lia |].
  pose proof (next_delay iter) as Hnext. cbv zeta in Hnext.
  set (delay := Z.min (500 * 2 ^ Z.of_nat iter) kMaxDelay) in *.
  cbn [connects_within].
  destruct (gracefulShutdown env iter) eqn:Hs.
  { exists false, [WaitFor delay]. repeat split; auto.
    - intros [| k] d Hk; simpl in Hk; [| destruct k; discriminate].
      injection Hk as <-. rewrite Nat.add_0_r. reflexivity.
    - unfold attempts. simpl. lia. }
  destruct (tryConnect env iter) eqn:Hc; cbn [negb].
  { exists true, [WaitFor delay; TryConnect true; OnSocketReconnected].
    rewrite <- app_assoc. repeat split; auto.
    - intros [| k] d Hk; simpl in Hk; [| destruct k; discriminate].
      injection Hk as <-. rewrite Nat.add_0_r. reflexivity.
    - unfold attempts. simpl. lia. }
  rewrite Hnext.
  destruct (IH (S iter) ((trace ++ [WaitFor delay]) ++ [TryConnect false]))
    as (ok & tr & Hrun & Hw & Ha & Hok & Hr); [lia |].
  exists ok, (WaitFor delay :: TryConnect false :: tr).
  rewrite Hrun. rewrite <- !app_assoc. simpl. repeat split; auto.
  - intros [| k] d Hk; simpl in Hk.
    + injection Hk as <-. rewrite Nat.add_0_r. reflexivity.
    + apply Hw in Hk. rewrite Hk. do 3 f_equal. lia.
  - change (WaitFor delay :: TryConnect false :: tr)
      with ([WaitFor delay; TryConnect false] ++ tr).
    rewrite attempts_app. unfold attempts at 1. simpl. simpl in Ha. lia.
  - rewrite Hok. f_equal. lia.
Qed.

(** The whole run in closed form: failed iterations, each a wait of the
    fixed sequence of delays and a failed attempt, up to the first
    iteration that sees a shutdown request or a successful attempt or that
    the retry limit does not allow. *)
Lemma reconnect_loop_shape env fuel : forall iter trace,
  (0 < fuel)%nat ->
  let m := failedRounds env iter (fuel - 1) in
  reconnect_loop fuel env iter (Z.of_nat fuel) (backoffDelay iter) trace
  = Some (fst (lastRound env (iter + m) (iter + (fuel - 1))),
          trace ++ flat_map failedRound (seq iter m)
          ++ snd (lastRound env (iter + m) (iter + (fuel - 1)))).
Proof.
  induction fuel as [| fuel IH]; intros iter trace Hf; [lia |].
  cbn [reconnect_loop].
  replace (Z.of_nat (S fuel) - 1) with (Z.of_nat fuel) by lia.
  replace (S fuel - 1)%nat with fuel by lia.
  destruct (Z.gtb_spec (Z.of_nat fuel) 0) as [Hpos | Hzero].
  2:{ assert (fuel = 0%nat) as -> by lia. cbn [failedRounds seq flat_map].
      unfold lastRound. rewrite !Nat.add_0_r, Nat.leb_refl. cbn [fst snd].
      rewrite !app_nil_r. reflexivity. }
  destruct fuel as [| fuel']; [lia |].
  pose proof (next_delay iter) as Hnext. cbv zeta in Hnext.
  fold (backoffDelay iter) in Hnext. fold (backoffDelay (S iter)) in Hnext.
  cbn [failedRounds].
  assert (Hlimit : (iter + S fuel' <=? iter + 0)%nat = false)
    by (apply Nat.leb_gt; lia).
  destruct (gracefulShutdown env iter) eqn:Hs.
  { cbn [orb seq flat_map]. unfold lastRound. rewrite Hlimit, Nat.add_0_r, Hs.
    reflexivity. }
  destruct (tryConnect env iter) eqn:Hc; cbn [negb orb].
  { cbn [seq flat_map]. unfold lastRound.
    rewrite Hlimit, Nat.add_0_r, Hs, <- app_assoc. reflexivity. }
  rewrite Hnext, IH by lia.
  replace (S fuel' - 1)%nat with fuel' by lia.
  replace (S iter + failedRounds env (S iter) fuel')%nat
    with (iter + S (failedRounds env (S iter) fuel'))%nat by lia.
  replace (S iter + fuel')%nat with (iter + S fuel')%nat by lia.
  cbn [seq flat_map]. unfold failedRound at 2.
  rewrite <- !app_assoc. reflexivity.
Qed.

Lemma failedRounds_le env n : forall i, (failedRounds env i n <= n)%nat.
Proof.
  induction n as [| n IH]; intros i; cbn; [lia |].
  destruct (_ || _); [lia |]. specialize (IH (S i)). lia.
Qed.

(** The iteration after the failed ones, when the retry limit allows it,
    sees a shutdown request or a successful attempt. *)
Lemma failedRounds_stop env n : forall i,
  (failedRounds env i n < n)%nat ->
  gracefulShutdown env (i + failedRounds env i n)
  || tryConnect env (i + failedRounds env i n) = true.
Proof.
  induction n as [| n IH]; intros i; cbn; [lia |].
  destruct (_ || _) eqn:Hstop; [rewrite Nat.add_0_r; auto |].
  intros Hlt. replace (i + S (failedRounds env (S i) n))%nat
    with (S i + failedRounds env (S i) n)%nat by lia.
  apply IH. lia.
Qed.

Lemma failedRounds_failed env n : forall i k,
  (k < failedRounds env i n)%nat ->
  gracefulShutdown env (i + k) = false /\ tryConnect env (i + k) = false.
Proof.
  induction n as [| n IH]; intros i k; cbn; [lia |].
  destruct (_ || _) eqn:Hstop; [lia |]. apply orb_false_iff in Hstop.
  destruct k as [| k]; [rewrite Nat.add_0_r; tauto |].
  intros Hlt. replace (i + S k)%nat with (S i + k)%nat by lia.
  apply IH. lia.
Qed.

Lemma attempts_failedRounds i m :
  attempts (flat_map failedRound (seq i m)) = m.
Proof.
  revert i. induction m as [| m IH]; intros i; [reflexivity |].
  cbn [seq flat_map]. rewrite attempts_app, IH. reflexivity.
Qed.

Lemma length_failedRounds i m :
  length (flat_map failedRound (seq i m)) = (2 * m)%nat.
Proof.
  revert i. induction m as [| m IH]; intros i; [reflexivity |].
  cbn [seq flat_map]. rewrite length_app, IH. cbn. lia.
Qed.

Lemma waits_failedRounds i m :
  waits (flat_map failedRound (seq i m)) = map backoffDelay (seq i m).
Proof.
  revert i. induction m as [| m IH]; intros i; [reflexivity |].
  cbn [seq flat_map map]. rewrite waits_app, IH. reflexivity.
Qed.

Lemma last_failedRounds m : forall i,
  flat_map failedRound (seq i (S m)) !! (2 * m + 1)%nat
  = Some (TryConnect false).
Proof.
  induction m as [| m IH]; intros i; [reflexivity |].
  cbn [seq flat_map]. unfold failedRound at 1. cbn [app].
  replace (2 * S m + 1)%nat with (S (S (2 * m + 1))) by lia.
  cbn [lookup list_lookup]. apply (IH (S i)).
Qed.

(** In a run in closed form every attempt comes directly after a wait,
    and every wait is directly followed by an attempt unless it is the
    last action. *)
Lemma failedRounds_paced ending : forall m i,
  (forall j c, ending !! j = Some (TryConnect c) ->
     exists j' d, j = S j' /\ ending !! j' = Some (WaitFor d)) ->
  (forall j d, ending !! j = Some (WaitFor d) ->
     (exists c, ending !! S j = Some (TryConnect c))
     \/ S j = length ending) ->
  let trace := flat_map failedRound (seq i m) ++ ending in
  (forall j c, trace !! j = Some (TryConnect c) ->
     exists j' d, j = S j' /\ trace !! j' = Some (WaitFor d))
  /\ (forall j d, trace !! j = Some (WaitFor d) ->
        (exists c, trace !! S j = Some (TryConnect c))
        \/ S j = length trace).
Proof.
  induction m as [| m IH]; intros i Hattempt Hwait; [split; assumption |].
  destruct (IH (S i) Hattempt Hwait) as [IHa IHw].
  cbn [seq flat_map]. unfold failedRound at 1 3 5 7 9. cbn [app]. split.
  - intros [| [| j]] c Hj; cbn in Hj.
    + discriminate.
    + exists O, (backoffDelay i). split; reflexivity.
    + destruct (IHa j c Hj) as (j' & d & -> & Hj').
      exists (S (S j')), d. split; [reflexivity | exact Hj'].
  - intros [| [| j]] d Hj; cbn in Hj.
    + left. exists false. reflexivity.
    + discriminate.
    + destruct (IHw j d Hj) as [[c Hc] | Hlast].
      * left. exists c. exact Hc.
      * right. cbn [length]. rewrite Hlast. reflexivity.
Qed.

(** C9: every run of [reconnect] ends, and it runs as follows. As long as
    no shutdown is requested and the attempts fail, the k-th iteration
    (k counted from 1) waits min(500 * 2^(k-1) ms, 5 minutes) and then
    makes the k-th attempt, for 39 iterations at most, below the retry
    limit of 40. The first iteration that sees a shutdown request ends the
    run after its wait, without an attempt; the first one whose attempt
    succeeds ends it with one call of onSocketReconnected. The run returns
    true exactly in this last case, and onSocketReconnected is called
    exactly once then and never otherwise. *)
Theorem reconnect_backoff (env : Env) :
  exists ok trace,
    reconnect env = Some (ok, trace)
    /\ (forall k d, waits trace !! k = Some d ->
          d = Z.min (500 * 2 ^ Z.of_nat k) (5 * 60 * 1000))
    /\ (attempts trace <= 39)%nat
    /\ ok = connects_within env 0 39
    /\ reconnected_calls trace = (if ok then 1 else 0)%nat
    /\ let m := failedRounds env 0 39 in
       trace = flat_map failedRound (seq 0 m) ++ snd (lastRound env m 39)
       /\ ok = fst (lastRound env m 39)
       /\ (m <= 39)%nat
       /\ (forall k, (k < m)%nat ->
             gracefulShutdown env k = false /\ tryConnect env k = false)
       /\ ((m < 39)%nat ->
           gracefulShutdown env m || tryConnect env m = true).
Proof.
  destruct (reconnect_loop_spec env 40 0 []) as (ok & tr & Hrun & Hrest);
    [lia |].
  pose proof (reconnect_loop_shape env 40 0 []) as Hshape.
  cbv zeta in Hshape. specialize (Hshape ltac:(lia)).
  change (reconnect_loop 40 env 0 (Z.of_nat 40) (backoffDelay 0) [])
    with (reconnect_loop 40 env 0 (Z.of_nat 40)
            (Z.min (500 * 2 ^ Z.of_nat 0) kMaxDelay) []) in Hshape.
  rewrite Hrun in Hshape. injection Hshape as Hok Htr.
  exists ok, tr. split; [exact Hrun |].
  destruct Hrest as (Hw & Ha & Hc & Hr).
  split; [exact Hw |]. split; [exact Ha |]. split; [exact Hc |].
  split; [exact Hr |]. cbv zeta.
  split; [exact Htr |]. split; [exact Hok |].
  split; [apply failedRounds_le |]. split.
  - intros k Hk. apply (failedRounds_failed env 39 0 k Hk).
  - intros Hm. apply (failedRounds_stop env 39 0 Hm).
Qed.

(** The scenario "EAGAIN 4 times then success": delays 500 ms, 1 s, 2 s,
    4 s and then a fifth wait of 8 s before the attempt that connects. *)
Example reconnect_four_failures :
  reconnect {| gracefulShutdown := fun _ => false;
               tryConnect := fun i => (4 <=? i)%nat |}
  = Some (true,
          [WaitFor 500; TryConnect false; WaitFor 1000; TryConnect false;
           WaitFor 2000; TryConnect false; WaitFor 4000; TryConnect false;
           WaitFor 8000; TryConnect true; OnSocketReconnected]).
Proof. vm_compute. reflexivity. Qed.

Lemma backoffDelay_nonneg k : 0 <= backoffDelay k.
Proof.
  unfold backoffDelay, kMaxDelay.
  assert (0 < 2 ^ Z.of_nat k) by (apply Z.pow_pos_nonneg; lia). lia.
Qed.

Lemma sum_backoff_le i n m :
  (n <= m)%nat ->
  foldr Z.add 0 (map backoffDelay (seq i n))
  <= foldr Z.add 0 (map backoffDelay (seq i m)).
Proof.
  revert i m. induction n as [| n IH]; intros i m Hle.
  - simpl. clear Hle. revert i. induction m as [| m IHm]; intros i; simpl;
      [lia |]. pose proof (backoffDelay_nonneg i). specialize (IHm (S i)).
    lia.
  - destruct m as [| m]; [lia |]. simpl.
    specialize (IH (S i) m). lia.
Qed.

(** The waits of a run are the first ones of the fixed sequence of delays,
    an attempt follows every wait but possibly the last, and a run in which
    every attempt fails and no shutdown is requested uses all its
    iterations. *)
Lemma reconnect_loop_waits env fuel : forall iter trace,
  (0 < fuel)%nat ->
  exists ok tr n,
    reconnect_loop fuel env iter (Z.of_nat fuel) (backoffDelay iter) trace
    = Some (ok, trace ++ tr)
    /\ (n <= fuel - 1)%nat
    /\ waits tr = map backoffDelay (seq iter n)
    /\ (attempts tr = n \/ S (attempts tr) = n)
    /\ (allAttemptsFail env iter (fuel - 1) = true ->
        ok = false /\ n = (fuel - 1)%nat /\ attempts tr = n
        /\ reconnected_calls tr = O).
Proof.
  induction fuel as [| fuel IH]; intros iter trace Hf; [lia |].
  cbn [reconnect_loop].
  replace (Z.of_nat (S fuel) - 1) with (Z.of_nat fuel) by lia.
  replace (S fuel - 1)%nat with fuel by lia.
  destruct (Z.gtb_spec (Z.of_nat fuel) 0) as [Hpos | Hzero].
  2:{ exists false, [], O. assert (fuel = 0%nat) as -> by lia.
      rewrite app_nil_r. repeat split; auto. }
  destruct fuel as [| fuel']; [lia |].
  pose proof (next_delay iter) as Hnext. cbv zeta in Hnext.
  fold (backoffDelay iter) in Hnext. fold (backoffDelay (S iter)) in Hnext.
  cbn [allAttemptsFail].
  destruct (gracefulShutdown env iter) eqn:Hs.
  { exists false, [WaitFor (backoffDelay iter)], 1%nat.
    repeat split; auto; try lia; discriminate. }
  destruct (tryConnect env iter) eqn:Hc; cbn [negb].
  { exists true,
      [WaitFor (backoffDelay iter); TryConnect true; OnSocketReconnected],
      1%nat.
    rewrite <- app_assoc. repeat split; auto; try lia; discriminate. }
  rewrite Hnext.
  destruct (IH (S iter)
               ((trace ++ [WaitFor (backoffDelay iter)]) ++ [TryConnect false]))
    as (ok & tr & n & Hrun & Hn & Hw & Ha & Hall); [lia |].
  exists ok, (WaitFor (backoffDelay iter) :: TryConnect false :: tr), (S n).
  rewrite Hrun, <- !app_assoc. cbn [app].
  change (WaitFor (backoffDelay iter) :: TryConnect false :: tr)
    with ([WaitFor (backoffDelay iter); TryConnect false] ++ tr).
  rewrite waits_app, attempts_app, reconnected_calls_app, Hw.
  replace (S fuel' - 1)%nat with fuel' in * by lia.
  assert (Ha2 : attempts [WaitFor (backoffDelay iter); TryConnect false]
                = 1%nat) by reflexivity.
  assert (Hr2 : reconnected_calls
                  [WaitFor (backoffDelay iter); TryConnect false] = O)
    by reflexivity.
  rewrite Ha2, Hr2.
  split; [reflexivity |]. split; [lia |]. split; [reflexivity |].
  split; [lia |].
  intros H. apply Hall in H. destruct H as (-> & -> & Hatt & Hrec).
  repeat split; auto; lia.
Qed.

(** X4: whatever happens to the attempts, [reconnect] waits 9211500 ms at
    most in total (a little over 2.5 hours, as the comment on the retry
    limit says). It waits once in every iteration it enters: once more
    than there are iterations that fail, up to 39 times. Every attempt
    comes directly after a wait, and every wait is directly followed by an
    attempt, but for a last wait that a shutdown request ends, after which
    [reconnect] returns false. *)
Theorem reconnect_total_wait (env : Env) :
  exists ok trace,
    reconnect env = Some (ok, trace)
    /\ 0 <= totalWait trace <= 9211500
    /\ (attempts trace <= length (waits trace) <= S (attempts trace))%nat
    /\ length (waits trace) = Nat.min 39 (S (failedRounds env 0 39))
    /\ (forall j c, trace !! j = Some (TryConnect c) ->
          exists j' d, j = S j' /\ trace !! j' = Some (WaitFor d))
    /\ (forall j d, trace !! j = Some (WaitFor d) ->
          (exists c, trace !! S j = Some (TryConnect c))
          \/ (S j = length trace /\ ok = false
              /\ gracefulShutdown env (attempts trace) = true)).
Proof.
  destruct (reconnect_loop_waits env 40 0 [])
    as (ok & tr & n & Hrun & Hn & Hw & Ha & _); [lia |].
  pose proof (reconnect_loop_shape env 40 0 []) as Hshape.
  cbv zeta in Hshape. specialize (Hshape ltac:(lia)).
  change (40 - 1)%nat with 39%nat in Hshape.
  rewrite !Nat.add_0_l, app_nil_l in Hshape. rewrite app_nil_l in Hrun.
  pose proof (failedRounds_le env 39 0) as Hm.
  set (m := failedRounds env 0 39) in *. clearbody m.
  rewrite Hrun in Hshape. injection Hshape as Hok Htr.
  exists ok, tr. split; [exact Hrun |].
  unfold totalWait. rewrite Hw, length_map, length_seq. split.
  { split.
    + pose proof (sum_backoff_le 0 0 n). simpl in H. lia.
    + pose proof (sum_backoff_le 0 n 39) as Hle.
      change (foldr Z.add 0 (map backoffDelay (seq 0 39))) with 9211500 in Hle.
      lia. }
  split; [lia |].
  assert (Hlen : n = Nat.min 39 (S m)).
  { apply (f_equal length) in Hw. rewrite length_map, length_seq in Hw.
    rewrite <- Hw, Htr, waits_app, length_app, waits_failedRounds,
      length_map, length_seq.
    unfold lastRound.
    destruct (Nat.leb_spec 39 m);
      [change (m + 0 = Nat.min 39 (S m))%nat; lia |].
    destruct (gracefulShutdown env m);
      change (m + 1 = Nat.min 39 (S m))%nat; lia. }
  split; [exact Hlen |].
  assert (Hending :
    (forall j c, snd (lastRound env m 39) !! j = Some (TryConnect c) ->
       exists j' d, j = S j'
                    /\ snd (lastRound env m 39) !! j' = Some (WaitFor d))
    /\ (forall j d, snd (lastRound env m 39) !! j = Some (WaitFor d) ->
          (exists c, snd (lastRound env m 39) !! S j = Some (TryConnect c))
          \/ (S j = length (snd (lastRound env m 39))
              /\ snd (lastRound env m 39) = [WaitFor (backoffDelay m)]))).
  { unfold lastRound. destruct (39 <=? m)%nat; cbn [snd].
    { split; intros j ? Hj; destruct j; discriminate. }
    destruct (gracefulShutdown env m); cbn [snd]; split.
    - intros [| [| j]] c Hj; discriminate.
    - intros [| [| j]] d Hj; try discriminate. right. split; reflexivity.
    - intros [| [| [| j]]] c Hj; try discriminate.
      exists O, (backoffDelay m). split; reflexivity.
    - intros [| [| [| j]]] d Hj; try discriminate. left. exists true.
      reflexivity. }
  destruct Hending as [Hea Hew].
  destruct (failedRounds_paced (snd (lastRound env m 39)) m 0 Hea)
    as [Hpa Hpw].
  { intros j d Hj. destruct (Hew j d Hj) as [Hc | [Hl _]]; [left | right];
      assumption. }
  rewrite <- Htr in Hpa, Hpw. split; [exact Hpa |].
  intros j d Hj. destruct (Hpw j d Hj) as [Hc | Hlast]; [left; exact Hc |].
  right. split; [exact Hlast |].
  assert (Hj' : (flat_map failedRound (seq 0 m) ++ snd (lastRound env m 39))
                !! j = Some (WaitFor d)) by (rewrite <- Htr; exact Hj).
  pose proof (length_failedRounds 0 m) as Hlm.
  rewrite Htr, length_app, Hlm in Hlast.
  revert Hok Htr Hj' Hlast. unfold lastRound.
  destruct (Nat.leb_spec 39 m) as [Hge | Hlt]; cbn [fst snd length].
  { intros _ _ Hj'. rewrite app_nil_r in Hj'. intros Hlast.
    exfalso. destruct m as [| k]; [lia |].
    assert (Hodd : j = (2 * k + 1)%nat) by lia. subst j.
    rewrite last_failedRounds in Hj'. discriminate. }
  destruct (gracefulShutdown env m) eqn:Hs; cbn [fst snd length].
  - intros <- -> _ _. split; [reflexivity |].
    rewrite attempts_app, attempts_failedRounds. cbn.
    rewrite Nat.add_0_r. exact Hs.
  - intros _ _ Hj' Hlast. exfalso. assert (Hj2 : j = (2 * m + 2)%nat) by lia.
    subst j. rewrite lookup_app_r in Hj' by lia.
    replace (2 * m + 2 - length (flat_map failedRound (seq 0 m)))%nat
      with 2%nat in Hj' by lia.
    discriminate.
Qed.

(** X5: when every attempt fails and no shutdown is requested, [reconnect]
    gives up after exactly 39 attempts and 9211500 ms of waiting, returns
    false and never calls onSocketReconnected. *)
Theorem reconnect_gives_up (env : Env)
    (Hfail : forall i, tryConnect env i = false)
    (Hrunning : forall i, gracefulShutdown env i = false) :
  exists trace,
    reconnect env = Some (false, trace)
    /\ attempts trace = 39%nat
    /\ totalWait trace = 9211500
    /\ reconnected_calls trace = O.
Proof.
  destruct (reconnect_loop_waits env 40 0 [])
    as (ok & tr & n & Hrun & Hn & Hw & Ha & Hall); [lia |].
  assert (Hallfail : forall i k, allAttemptsFail env i k = true).
  { intros i k. revert i. induction k as [| k IHk]; intros i; [reflexivity |].
    cbn. rewrite Hfail, Hrunning, IHk. reflexivity. }
  destruct (Hall (Hallfail _ _)) as (-> & -> & Hatt & Hrec).
  exists tr. split; [exact Hrun |]. split; [exact Hatt |].
  split; [| exact Hrec]. unfold totalWait. rewrite Hw. reflexivity.
Qed.

(** An instance: a daemon that never comes back. *)
Lemma reconnect_gives_up_witness :
  let env := {| gracefulShutdown := fun _ => false;
                tryConnect := fun _ => false |} in
  ((forall i, tryConnect env i = false)
   /\ (forall i, gracefulShutdown env i = false))
  /\ exists trace,
       reconnect env = Some (false, trace)
       /\ attempts trace = 39%nat
       /\ totalWait trace = 9211500
       /\ reconnected_calls trace = O.
Proof.
  intros env. split; [split; intros i; reflexivity |].
  apply (reconnect_gives_up env); intros i; reflexivity.
Defined.

End SocketClientFacts.

(* ===================================================================== *)
(** ** Properties of the scan-monitor state machine *)
(* ===================================================================== *)

Section WifiFacts.
Import Wifi.

(** With nobody in the list, [nanoappHasScanMonitorRequest] answers true for
    every instance id, and the index it reports is the size of the list. *)
Lemma nanoappHasScanMonitorRequest_nil st instanceId :
  mScanMonitorNanoapps st = [] ->
  nanoappHasScanMonitorRequest st instanceId = (true, O).
Proof. intros E. unfold nanoappHasScanMonitorRequest. rewrite E. reflexivity. Qed.

Lemma updateNanoappScanMonitoringList_nil env enable instanceId st :
  mScanMonitorNanoapps st = [] ->
  fst (updateNanoappScanMonitoringList env enable instanceId st) = true
  /\ mScanMonitorNanoapps
       (snd (updateNanoappScanMonitoringList env enable instanceId st)) = [].
Proof.
  intros E. unfold updateNanoappScanMonitoringList.
  rewrite (nanoappHasScanMonitorRequest_nil _ _ E).
  destruct enable; simpl; rewrite ?E; auto.
Qed.

Lemma postScanMonitorAsyncResultEvent_nil env id success enable code cookie st :
  mScanMonitorNanoapps st = [] ->
  mScanMonitorNanoapps
    (snd (postScanMonitorAsyncResultEvent env id success enable code cookie st))
  = [].
Proof.
  intros E. unfold postScanMonitorAsyncResultEvent.
  destruct success; simpl.
  - destruct (updateNanoappScanMonitoringList_nil env enable id st E)
      as [Hok Hnil].
    destruct (updateNanoappScanMonitoringList env enable id st) as [ok st'].
    simpl in *. subst ok. destruct (eventPosts env (outputs st')); exact Hnil.
  - destruct (eventPosts env (outputs st)); exact E.
Qed.

Lemma postScanMonitorAsyncResultEventFatal_nil env id success enable code
    cookie st :
  mScanMonitorNanoapps st = [] ->
  mScanMonitorNanoapps
    (snd (postScanMonitorAsyncResultEventFatal env id success enable code
                                               cookie st))
  = [].
Proof.
  intros E. unfold postScanMonitorAsyncResultEventFatal.
  pose proof (postScanMonitorAsyncResultEvent_nil env id success enable code
                                                  cookie st E) as Hnil.
  destruct (postScanMonitorAsyncResultEvent env id success enable code cookie st)
    as [[] st']; exact Hnil.
Qed.

Lemma addScanMonitorRequestToQueue_nanoapps env id enable cookie st :
  mScanMonitorNanoapps
    (snd (addScanMonitorRequestToQueue env id enable cookie st))
  = mScanMonitorNanoapps st.
Proof.
  unfold addScanMonitorRequestToQueue.
  destruct (_ <? _)%nat; reflexivity.
Qed.

Lemma configureScanMonitor_nil env id enable cookie st :
  mScanMonitorNanoapps st = [] ->
  mScanMonitorNanoapps (snd (configureScanMonitor env id enable cookie st)) = [].
Proof.
  intros E. unfold configureScanMonitor.
  destruct (negb _).
  { rewrite addScanMonitorRequestToQueue_nanoapps. exact E. }
  destruct (scanMonitorIsInRequestedState _ _ _).
  { apply postScanMonitorAsyncResultEvent_nil, E. }
  destruct (scanMonitorStateTransitionIsRequired _ _ _); [| exact E].
  pose proof (addScanMonitorRequestToQueue_nanoapps env id enable cookie st)
    as Hq.
  destruct (addScanMonitorRequestToQueue env id enable cookie st) as [[] st'];
    simpl in *; [| congruence].
  destruct (platformAccepts _ _ _); simpl; congruence.
Qed.

Lemma processPendingTransitions_nil env success code pending : forall st,
  mScanMonitorNanoapps st = [] ->
  mScanMonitorNanoapps (processPendingTransitions env success code pending st)
  = [].
Proof.
  induction pending as [| t rest IH]; intros st E; [exact E |].
  cbn [processPendingTransitions].
  set (st0 := set_transitions (t :: rest) st).
  assert (E0 : mScanMonitorNanoapps st0 = []) by exact E.
  destruct (scanMonitorIsInRequestedState _ _ _).
  { pose proof (postScanMonitorAsyncResultEventFatal_nil env
                  (nanoappInstanceId t) success (enable t) code (cookie t)
                  st0 E0) as Hnil.
    destruct (postScanMonitorAsyncResultEventFatal _ _ _ _ _ _ _)
      as [[] st']; simpl in Hnil; auto. }
  destruct (scanMonitorStateTransitionIsRequired _ _ _); [| exact E0].
  destruct (platformAccepts _ _ _); [exact E0 |].
  set (st1 := emit _ st0).
  assert (E1 : mScanMonitorNanoapps st1 = []) by exact E.
  pose proof (postScanMonitorAsyncResultEventFatal_nil env
                (nanoappInstanceId t) false (enable t) CHRE_ERROR (cookie t)
                st1 E1) as Hnil.
  destruct (postScanMonitorAsyncResultEventFatal _ _ _ _ _ _ _)
    as [[] st']; simpl in Hnil; auto.
Qed.

Lemma handleScanMonitorStateChangeSync_nil env enabled code st :
  mScanMonitorNanoapps st = [] ->
  mScanMonitorNanoapps (handleScanMonitorStateChangeSync env enabled code st)
  = [].
Proof.
  intros E. unfold handleScanMonitorStateChangeSync.
  destruct (mScanMonitorStateTransitions st) as [| t rest].
  { apply processPendingTransitions_nil, E. }
  pose proof (postScanMonitorAsyncResultEventFatal_nil env
                (nanoappInstanceId t)
                ((code =? CHRE_ERROR_NONE) && Bool.eqb (enable t) enabled)
                (enable t) code (cookie t) st E) as Hnil.
  destruct (postScanMonitorAsyncResultEventFatal _ _ _ _ _ _ _)
    as [[] st']; simpl in Hnil; auto.
  apply processPendingTransitions_nil, Hnil.
Qed.

(** Whatever is requested and whatever the driver reports, the list of
    monitoring nanoapps of a manager that starts without any stays empty. *)
Lemma scan_monitor_list_stays_empty env ops :
  mScanMonitorNanoapps (run env ops initial) = [].
Proof.
  unfold run. induction ops as [| op ops IH] using rev_ind; [reflexivity |].
  rewrite foldl_app. simpl.
  destruct op as [id enable cookie | enabled code]; simpl.
  - apply configureScanMonitor_nil, IH.
  - apply handleScanMonitorStateChangeSync_nil, IH.
Qed.

(** C1, the code at the failing input: nanoapp 5 asks to enable the scan
    monitor, the driver is called and reports the monitor enabled without
    error; the nanoapp is sent a successful async result, yet the list of
    monitoring nanoapps is still empty. *)
Theorem scan_monitor_enable_not_recorded :
  let st := run cooperative
                [Configure 5 true 11; Completion true CHRE_ERROR_NONE]
                initial in
  outputs st = [PlatformConfigureScanMonitor true;
                AsyncResultEvent 5 true CHRE_ERROR_NONE 11]
  /\ mScanMonitorStateTransitions st = []
  /\ mScanMonitorNanoapps st = []
  /\ nanoappHasScanMonitorRequest st 5 = (true, O)
  /\ find [5] 5 = O /\ find [5] 6 = length [5].
Proof. vm_compute. repeat split; reflexivity. Qed.

(** In a state in which nanoapp 7 alone monitors and no transition is
    queued, nanoapp 9, which has no request, asks to disable. By the
    predicate of the design document the monitor is in the requested state
    for nanoapp 9; [configureScanMonitor], which hands the instance id to
    the predicates where the flag is expected, queues a transition and has
    the driver disable the monitor instead of posting a result. The list
    of monitoring nanoapps of a manager is always empty
    ([scan_monitor_list_stays_empty]), so that no sequence of calls leads
    to this state. *)
Example configureScanMonitor_disable_without_request :
  let st := {| mScanMonitorNanoapps := [7];
               mScanMonitorStateTransitions := [];
               outputs := [] |} in
  has_active_request (mScanMonitorNanoapps st) 9 = false
  /\ in_requested_state (mScanMonitorNanoapps st) false false = true
  /\ scanMonitorIsInRequestedState st false (bool_of_uint32 9) = false
  /\ configureScanMonitor cooperative 9 false 11 st
     = (true, {| mScanMonitorNanoapps := [7];
                 mScanMonitorStateTransitions := [mkTransition 9 11 false];
                 outputs := [PlatformConfigureScanMonitor false] |}).
Proof. vm_compute. repeat split; reflexivity. Qed.



Lemma transitionIsRequired_negb st requestedState nanoappHasRequest :
  scanMonitorStateTransitionIsRequired st requestedState nanoappHasRequest
  = negb (scanMonitorIsInRequestedState st requestedState nanoappHasRequest).
Proof.
  unfold scanMonitorStateTransitionIsRequired, scanMonitorIsInRequestedState,
    scanMonitorIsEnabled.
  destruct (mScanMonitorNanoapps st) as [| a [| b l]],
    requestedState, nanoappHasRequest; reflexivity.
Qed.

(** X6: in every state and for every request exactly one of
    [scanMonitorIsInRequestedState] and
    [scanMonitorStateTransitionIsRequired] holds, so the branches that
    report an invalid configuration are never taken. A request to enable is
    in the requested state exactly when the scan monitor is enabled, and a
    request to disable always is when the scan monitor is disabled. *)
Theorem scanMonitor_predicates_complementary st requestedState
    nanoappHasRequest :
  scanMonitorStateTransitionIsRequired st requestedState nanoappHasRequest
  = negb (scanMonitorIsInRequestedState st requestedState nanoappHasRequest)
  /\ (scanMonitorIsInRequestedState st true nanoappHasRequest
      = scanMonitorIsEnabled st)
  /\ (scanMonitorIsEnabled st = false ->
      scanMonitorIsInRequestedState st false nanoappHasRequest = true).
Proof.
  split; [apply transitionIsRequired_negb |].
  unfold scanMonitorIsInRequestedState, scanMonitorIsEnabled.
  destruct (mScanMonitorNanoapps st) as [| a [| b l]], nanoappHasRequest;
    cbn; split; auto; discriminate.
Qed.

Lemma updateNanoappScanMonitoringList_frame env enable id st :
  mScanMonitorStateTransitions
    (snd (updateNanoappScanMonitoringList env enable id st))
  = mScanMonitorStateTransitions st
  /\ outputs (snd (updateNanoappScanMonitoringList env enable id st))
     = outputs st.
Proof.
  unfold updateNanoappScanMonitoringList, nanoappHasScanMonitorRequest,
    push_back.
  destruct enable, (_ =? _)%nat; simpl; auto.
  destruct (_ || _); auto.
Qed.

Lemma postScanMonitorAsyncResultEvent_frame env id success enable code cookie
    st :
  let r := postScanMonitorAsyncResultEvent env id success enable code cookie
                                           st in
  mScanMonitorStateTransitions (snd r) = mScanMonitorStateTransitions st
  /\ if fst r
     then outputs (snd r)
          = outputs st ++ [AsyncResultEvent id success code cookie]
     else outputs (snd r) = outputs st
          \/ outputs (snd r) = outputs st ++ [AsyncResultNotPosted id].
Proof.
  unfold postScanMonitorAsyncResultEvent.
  destruct success; cbn [negb].
  - destruct (updateNanoappScanMonitoringList_frame env enable id st)
      as [Hq Ho].
    destruct (updateNanoappScanMonitoringList env enable id st) as [[] st1];
      cbn [fst snd] in *; [| auto].
    destruct (eventPosts env (outputs st1)); cbn; rewrite Ho; auto.
  - destruct (eventPosts env (outputs st)); cbn; auto.
Qed.

Lemma postScanMonitorAsyncResultEventFatal_frame env id success enable code
    cookie st :
  let r := postScanMonitorAsyncResultEventFatal env id success enable code
                                                cookie st in
  mScanMonitorStateTransitions (snd r) = mScanMonitorStateTransitions st
  /\ if fst r
     then outputs (snd r)
          = outputs st ++ [AsyncResultEvent id success code cookie]
     else exists new, outputs (snd r) = outputs st ++ new
                      /\ In FatalError new.
Proof.
  unfold postScanMonitorAsyncResultEventFatal.
  destruct (postScanMonitorAsyncResultEvent_frame env id success enable code
                                                  cookie st) as [Hq Ho].
  destruct (postScanMonitorAsyncResultEvent env id success enable code cookie
                                            st) as [[] st1];
    cbn [fst snd] in *; [auto |].
  split; [exact Hq |]. cbn. destruct Ho as [Ho | Ho]; rewrite Ho.
  - exists [FatalError]. simpl. auto.
  - exists [AsyncResultNotPosted id; FatalError]. rewrite <- app_assoc.
    simpl. auto.
Qed.

(** X7: a call of [configureScanMonitor] that returns true has either
    appended the request to the queue of transitions, without posting a
    result, or found the queue empty and posted one successful async result
    to the caller, without touching the queue; a call that returns false
    leaves the queue as it was and posts no result. *)
Theorem configureScanMonitor_outcome env id enable cookie st :
  let '(ok, st') := configureScanMonitor env id enable cookie st in
  if ok then
    (mScanMonitorStateTransitions st'
     = mScanMonitorStateTransitions st ++ [mkTransition id cookie enable]
     /\ countAsyncResults (outputs st') = countAsyncResults (outputs st))
    \/ (mScanMonitorStateTransitions st = []
        /\ mScanMonitorStateTransitions st' = []
        /\ outputs st'
           = outputs st ++ [AsyncResultEvent id true CHRE_ERROR_NONE cookie])
  else
    mScanMonitorStateTransitions st' = mScanMonitorStateTransitions st
    /\ countAsyncResults (outputs st') = countAsyncResults (outputs st).
Proof.
  unfold configureScanMonitor.
  destruct (mScanMonitorStateTransitions st) as [| t q] eqn:Hq; cbn [length].
  - cbn [Nat.eqb negb].
    destruct (scanMonitorIsInRequestedState _ _ _).
    { destruct (postScanMonitorAsyncResultEvent_frame env id true enable
                  CHRE_ERROR_NONE cookie st) as [Hq' Ho].
      destruct (postScanMonitorAsyncResultEvent env id true enable
                  CHRE_ERROR_NONE cookie st) as [[] st1]; cbn [fst snd] in *.
      - right. rewrite Hq' , Hq. auto.
      - rewrite Hq', Hq. split; [reflexivity |].
        destruct Ho as [-> | ->]; [reflexivity |].
        unfold countAsyncResults. rewrite List.filter_app, length_app.
        simpl. lia. }
    destruct (scanMonitorStateTransitionIsRequired _ _ _); [| rewrite Hq; auto].
    unfold addScanMonitorRequestToQueue. rewrite Hq. cbn [length].
    destruct (0 <? _)%nat; [| rewrite Hq; auto].
    destruct (platformAccepts _ _ _); cbn.
    + left. split; [reflexivity |].
      unfold countAsyncResults. rewrite List.filter_app, length_app.
      simpl. lia.
    + split; [reflexivity |].
      unfold countAsyncResults. rewrite List.filter_app, length_app.
      simpl. lia.
  - cbn [Nat.eqb negb]. unfold addScanMonitorRequestToQueue. rewrite Hq.
    destruct (_ <? _)%nat; cbn; rewrite ?Hq; auto.
Qed.

(** X8: while a transition is queued, [configureScanMonitor] neither calls
    the driver nor posts anything nor touches the list of monitoring
    nanoapps: it appends the request behind the queued ones and returns
    true, or, when the queue is full, changes nothing and returns false. *)
Theorem configureScanMonitor_while_pending env id enable cookie st
    (Hpending : mScanMonitorStateTransitions st <> []) :
  configureScanMonitor env id enable cookie st
  = if (length (mScanMonitorStateTransitions st)
        <? kMaxScanMonitorStateTransitions env)%nat
    then (true,
          set_transitions (mScanMonitorStateTransitions st
                           ++ [mkTransition id cookie enable]) st)
    else (false, st).
Proof.
  unfold configureScanMonitor.
  destruct (mScanMonitorStateTransitions st) as [| t q] eqn:Hq;
    [congruence |].
  cbn [length Nat.eqb negb]. unfold addScanMonitorRequestToQueue.
  rewrite Hq. reflexivity.
Qed.

(** An instance: nanoapp 9 asks while the request of nanoapp 5 is in
    flight. *)
Lemma configureScanMonitor_while_pending_witness :
  let st := {| mScanMonitorNanoapps := [];
               mScanMonitorStateTransitions := [mkTransition 5 11 true];
               outputs := [PlatformConfigureScanMonitor true] |} in
  mScanMonitorStateTransitions st <> []
  /\ configureScanMonitor cooperative 9 true 12 st
     = (true,
        {| mScanMonitorNanoapps := [];
           mScanMonitorStateTransitions :=
             [mkTransition 5 11 true; mkTransition 9 12 true];
           outputs := [PlatformConfigureScanMonitor true] |}).
Proof.
  intros st. split; [discriminate |].
  rewrite (configureScanMonitor_while_pending cooperative 9 true 12 st);
    [reflexivity | discriminate].
Defined.

Lemma countAsyncResults_app l1 l2 :
  countAsyncResults (l1 ++ l2)
  = (countAsyncResults l1 + countAsyncResults l2)%nat.
Proof.
  unfold countAsyncResults. rewrite List.filter_app, length_app. reflexivity.
Qed.

(** The loop of [handleScanMonitorStateChangeSync]: unless a fatal error
    stops it, it posts one async result for each transition it takes off
    the queue, and it stops with the queue empty or with a request for the
    transition at the head accepted by the driver. *)
Lemma processPendingTransitions_outcome env success code pending : forall st,
  let st' := processPendingTransitions env success code pending st in
  exists new,
    outputs st' = outputs st ++ new
    /\ (In FatalError new
        \/ exists done,
             pending = done ++ mScanMonitorStateTransitions st'
             /\ countAsyncResults new = length done
             /\ (mScanMonitorStateTransitions st' = []
                 \/ exists t rest before,
                      mScanMonitorStateTransitions st' = t :: rest
                      /\ outputs st'
                         = before ++ [PlatformConfigureScanMonitor (enable t)]
                      /\ platformAccepts env before (enable t) = true)).
Proof.
  induction pending as [| t rest IH]; intros st.
  - exists []. rewrite app_nil_r. split; [reflexivity |]. right.
    exists []. cbn. auto.
  - cbn [processPendingTransitions].
    set (st0 := set_transitions (t :: rest) st).
    rewrite (transitionIsRequired_negb st0).
    destruct (scanMonitorIsInRequestedState st0 (enable t) _); cbn [negb].
    + destruct (postScanMonitorAsyncResultEventFatal_frame env
                  (nanoappInstanceId t) success (enable t) code (cookie t)
                  st0) as [_ Ho].
      destruct (postScanMonitorAsyncResultEventFatal env
                  (nanoappInstanceId t) success (enable t) code (cookie t)
                  st0) as [[] st1]; cbn [fst snd] in *.
      * destruct (IH st1) as (new & Hnew & Hcases). cbv zeta in *.
        exists ([AsyncResultEvent (nanoappInstanceId t) success code
                                  (cookie t)] ++ new).
        split; [rewrite Hnew, Ho, <- app_assoc; reflexivity |].
        destruct Hcases as [Hfatal | (done & Hd & Hc & Hend)];
          [left; right; exact Hfatal | right].
        exists (t :: done).
        split; [simpl; f_equal; exact Hd |].
        split; [rewrite countAsyncResults_app, Hc; reflexivity | exact Hend].
      * destruct Ho as (new & Hnew & Hin). exists new. cbv zeta. auto.
    + destruct (platformAccepts env (outputs st0) (enable t)) eqn:Hacc.
      * exists [PlatformConfigureScanMonitor (enable t)]. cbv zeta.
        split; [reflexivity |]. right. exists []. cbn.
        repeat split; auto. right. exists t, rest, (outputs st). auto.
      * set (st1 := emit (PlatformConfigureScanMonitor (enable t)) st0).
        destruct (postScanMonitorAsyncResultEventFatal_frame env
                    (nanoappInstanceId t) false (enable t) CHRE_ERROR
                    (cookie t) st1) as [_ Ho].
        destruct (postScanMonitorAsyncResultEventFatal env
                    (nanoappInstanceId t) false (enable t) CHRE_ERROR
                    (cookie t) st1) as [[] st2]; cbn [fst snd] in *.
        -- destruct (IH st2) as (new & Hnew & Hcases). cbv zeta in *.
           exists ([PlatformConfigureScanMonitor (enable t);
                    AsyncResultEvent (nanoappInstanceId t) false CHRE_ERROR
                                     (cookie t)] ++ new).
           split.
           { rewrite Hnew, Ho. cbn [outputs emit st1 st0 set_transitions].
             rewrite <- !app_assoc. reflexivity. }
           destruct Hcases as [Hfatal | (done & Hd & Hc & Hend)];
             [left; right; right; exact Hfatal | right].
           exists (t :: done).
        split; [simpl; f_equal; exact Hd |].
        split; [rewrite countAsyncResults_app, Hc; reflexivity | exact Hend].
        -- destruct Ho as (new & Hnew & Hin). cbv zeta.
           exists (PlatformConfigureScanMonitor (enable t) :: new).
           split.
           { rewrite Hnew. cbn [outputs emit st1 st0 set_transitions].
             rewrite <- app_assoc. reflexivity. }
           left. right. exact Hin.
Qed.

(** X9: a completion handled by [handleScanMonitorStateChangeSync], unless
    a fatal error stops it, takes the transition at the head off the queue
    and posts its result first, successful exactly when the completion
    carries no error and reports the state that was asked for, with the
    error code of the completion; it posts one async result for each
    transition it takes off the queue; and it leaves the queue empty or
    with a request for the new head accepted by the driver as the last
    thing done. With nothing queued it does nothing. *)
Theorem handleScanMonitorStateChangeSync_outcome env enabled code st :
  let st' := handleScanMonitorStateChangeSync env enabled code st in
  exists new,
    outputs st' = outputs st ++ new
    /\ (In FatalError new
        \/ exists done,
             mScanMonitorStateTransitions st
             = done ++ mScanMonitorStateTransitions st'
             /\ countAsyncResults new = length done
             /\ match mScanMonitorStateTransitions st with
                | [] => st' = st
                | t :: _ =>
                  exists done' new',
                    done = t :: done'
                    /\ new = AsyncResultEvent (nanoappInstanceId t)
                               ((code =? CHRE_ERROR_NONE)
                                && Bool.eqb (enable t) enabled)
                               code (cookie t) :: new'
                end
             /\ (mScanMonitorStateTransitions st' = []
                 \/ exists t rest before,
                      mScanMonitorStateTransitions st' = t :: rest
                      /\ outputs st'
                         = before ++ [PlatformConfigureScanMonitor (enable t)]
                      /\ platformAccepts env before (enable t) = true)).
Proof.
  unfold handleScanMonitorStateChangeSync.
  destruct (mScanMonitorStateTransitions st) as [| t rest] eqn:Hq.
  - exists []. rewrite app_nil_r. cbn. split; [reflexivity |]. right.
    exists []. cbn. repeat split; auto.
    unfold set_transitions. rewrite <- Hq. destruct st; reflexivity.
  - destruct (postScanMonitorAsyncResultEventFatal_frame env
                (nanoappInstanceId t)
                ((code =? CHRE_ERROR_NONE) && Bool.eqb (enable t) enabled)
                (enable t) code (cookie t) st) as [_ Ho].
    destruct (postScanMonitorAsyncResultEventFatal env
                (nanoappInstanceId t)
                ((code =? CHRE_ERROR_NONE) && Bool.eqb (enable t) enabled)
                (enable t) code (cookie t) st) as [[] st1];
      cbn [fst snd] in *.
    + destruct (processPendingTransitions_outcome env
                  ((code =? CHRE_ERROR_NONE) && Bool.eqb (enable t) enabled)
                  code rest st1) as (new & Hnew & Hcases).
      cbv zeta in *.
      exists ([AsyncResultEvent (nanoappInstanceId t)
                 ((code =? CHRE_ERROR_NONE) && Bool.eqb (enable t) enabled)
                 code (cookie t)] ++ new).
      split; [rewrite Hnew, Ho, <- app_assoc; reflexivity |].
      destruct Hcases as [Hfatal | (done & Hd & Hc & Hend)];
        [left; right; exact Hfatal | right].
      exists (t :: done).
      split; [simpl; f_equal; exact Hd |].
      split; [rewrite countAsyncResults_app, Hc; reflexivity |].
      split; [eauto | exact Hend].
    + destruct Ho as (new & Hnew & Hin). exists new. cbv zeta. auto.
Qed.

(** X10: whatever is requested and whatever the driver reports, a manager
    that starts without monitoring nanoapps never considers the scan
    monitor enabled, and it answers for every instance id that the nanoapp
    has a scan-monitor request. *)
Theorem scan_monitor_never_enabled env ops instanceId :
  scanMonitorIsEnabled (run env ops initial) = false
  /\ fst (nanoappHasScanMonitorRequest (run env ops initial) instanceId)
     = true.
Proof.
  pose proof (scan_monitor_list_stays_empty env ops) as Hnil.
  unfold scanMonitorIsEnabled.
  rewrite (nanoappHasScanMonitorRequest_nil _ _ Hnil), Hnil. auto.
Qed.

End WifiFacts.

(* ===================================================================== *)
(** ** Properties of the event loop *)
(* ===================================================================== *)

Section EventLoopFacts.
Import EventLoop.

(** *** Lookup by instance id and the context of free callbacks *)

Lemma trace_freeEvent event s :
  trace (freeEvent event s)
  = trace s ++ from_option (freeEventActions s) [] (deref s event).
Proof.
  unfold freeEvent, freeEventActions.
  destruct (deref s event) as [e |]; simpl; [| by rewrite app_nil_r].
  destruct (freeCallback e); simpl; [reflexivity | by rewrite app_nil_r].
Qed.

Lemma mCurrentApp_freeEvent event s :
  mCurrentApp s = None -> mCurrentApp (freeEvent event s) = None.
Proof.
  intros Hc. unfold freeEvent.
  destruct (deref s event) as [e |]; [| exact Hc].
  destruct (freeCallback e); [reflexivity | exact Hc].
Qed.

Lemma mNanoapps_freeEvent event s :
  mNanoapps (freeEvent event s) = mNanoapps s.
Proof.
  unfold freeEvent. destruct (deref s event) as [e |]; [| reflexivity].
  destruct (freeCallback e); reflexivity.
Qed.

Lemma mEvents_freeEvent event s : mEvents (freeEvent event s) = mEvents s.
Proof.
  unfold freeEvent. destruct (deref s event) as [e |]; [| reflexivity].
  destruct (freeCallback e); reflexivity.
Qed.

Lemma mEventPool_freeEvent event s :
  mEventPool (freeEvent event s)
  = match deref s event with
    | Some _ => <[event := None]> (mEventPool s)
    | None => mEventPool s
    end.
Proof.
  unfold freeEvent. destruct (deref s event) as [e |]; [| reflexivity].
  destruct (freeCallback e); reflexivity.
Qed.


(** C10: whatever the list of nanoapps holds (even an entry whose instance
    id is the SYSTEM id), looking up the SYSTEM instance id gives no
    nanoapp; so when [freeEvent] releases an event sent by the SYSTEM
    instance, its free callback (if it has one) runs with a null current
    nanoapp, and the current nanoapp is null after the callback. *)
Theorem lookupAppByInstanceId_system (s : EventLoop) (event : EventPtr) :
  lookupAppByInstanceId s kSystemInstanceId = None
  /\ match deref s event with
     | Some e =>
       if senderInstanceId e =? kSystemInstanceId then
         match freeCallback e with
         | Some callback =>
           trace (freeEvent event s)
           = trace s ++ [FreeCallback None callback (eventType e)
                                      (eventData e)]
           /\ mCurrentApp (freeEvent event s) = None
         | None =>
           trace (freeEvent event s) = trace s
           /\ mCurrentApp (freeEvent event s) = mCurrentApp s
         end
       else True
     | None => True
     end.
Proof.
  split; [reflexivity |].
  destruct (deref s event) as [e |] eqn:Hd; [| exact I].
  destruct (Z.eqb_spec (senderInstanceId e) kSystemInstanceId) as [Hs |];
    [| exact I].
  pose proof (trace_freeEvent event s) as Ht. rewrite Hd in Ht.
  unfold freeEventActions in Ht. simpl in Ht. rewrite Hs in Ht.
  unfold freeEvent in *. rewrite Hd in *.
  destruct (freeCallback e); simpl in *.
  - split; [exact Ht | reflexivity].
  - split; [rewrite app_nil_r in Ht; exact Ht | reflexivity].
Qed.

(** The list is not consulted: an entry that carries the SYSTEM id is not
    returned, although a search of the list would find it. *)
Example lookupAppByInstanceId_system_entry :
  let app := mkNanoapp 77 kSystemInstanceId false true [] [] 4 in
  let s := mkEventLoop true [app] [] [] None 1 [] in
  lookupAppByInstanceId s kSystemInstanceId = None
  /\ List.find (fun a => getInstanceId a =? kSystemInstanceId) (mNanoapps s)
     = Some app.
Proof. split; reflexivity. Qed.

(** *** postEvent *)

Lemma first_free_None pool :
  first_free pool = None
  <-> forallb (fun b : option Event =>
                 match b with Some _ => true | None => false end) pool = true.
Proof.
  induction pool as [| [e |] pool IH]; simpl.
  - tauto.
  - destruct (first_free pool); simpl; [| tauto].
    split; [discriminate | intros H; apply IH in H; discriminate].
  - split; discriminate.
Qed.

Lemma first_free_Some pool event :
  first_free pool = Some event -> pool !! event = Some None.
Proof.
  revert event. induction pool as [| [e |] pool IH]; intros event; simpl.
  - discriminate.
  - destruct (first_free pool) as [p |]; simpl; [| discriminate].
    intros [= <-]. simpl. apply IH. reflexivity.
  - intros [= <-]. reflexivity.
Qed.

(** The result of [postEvent] in every state and for every capacity of
    the inbound queue: true exactly when the loop is running, the event
    pool has a free block and [mEvents.push] finds room; the new event,
    with no reference yet, is then appended to the inbound queue. In every
    other case the inbound queue is as before. *)
Lemma postEvent_result env type data callback sender target s :
  let '(ok, s') := postEvent env type data callback sender target s in
  ok = mRunning s && negb (poolExhausted s) && negb (inboundQueueFull env s)
  /\ if ok then
       exists event,
         mEvents s' = mEvents s ++ [event]
         /\ deref s event = None
         /\ deref s' event = Some (mkEvent type data callback sender target 0)
     else mEvents s' = mEvents s.
Proof.
  unfold postEvent, poolExhausted, inboundQueueFull, allocate.
  destruct (mRunning s); simpl; [| auto].
  destruct (first_free (mEventPool s)) as [event |] eqn:Hf.
  - assert (Hex : forallb (fun b : option Event =>
                    match b with Some _ => true | None => false end)
                    (mEventPool s) = false).
    { destruct (forallb _ _) eqn:Hall; [| reflexivity].
      apply first_free_None in Hall. congruence. }
    rewrite Hex. simpl. rewrite negb_involutive.
    destruct (_ <? _)%nat; simpl; split; auto.
    exists event. pose proof (first_free_Some _ _ Hf) as Hslot.
    split; [reflexivity |]. unfold deref. simpl. split.
    + rewrite Hslot. reflexivity.
    + rewrite list_lookup_insert_eq; [reflexivity |].
      eapply lookup_lt_Some, Hslot.
  - apply first_free_None in Hf. rewrite Hf. simpl. auto.
Qed.

(** With an inbound queue smaller than the pool [mEvents.push] can fail:
    with room for one inbound event, which is taken, the loop running and
    a free block in the pool, [postEvent] returns false. *)
Lemma postEvent_fails_on_full_queue :
  ~ (forall env type data callback sender target s,
       fst (postEvent env type data callback sender target s) = false ->
       mRunning s = false \/ poolExhausted s = true).
Proof.
  intros H.
  specialize (H (mkEnv 1 (fun _ => true)) 512 0 None 3 kBroadcastInstanceId
                (mkEventLoop true [] [O]
                   [Some (mkEvent 512 0 None 3 kBroadcastInstanceId 0); None]
                   None 1 [])).
  vm_compute in H. destruct H; [reflexivity | discriminate..].
Qed.

(** That state is reached by one successful call on a loop that has two
    blocks in its pool and room for one inbound event. *)
Example postEvent_then_full :
  postEvent (mkEnv 1 (fun _ => true)) 512 0 None 3 kBroadcastInstanceId
            (mkEventLoop true [] [] [None; None] None 1 [])
  = (true,
     mkEventLoop true [] [O]
       [Some (mkEvent 512 0 None 3 kBroadcastInstanceId 0); None] None 1 []).
Proof. reflexivity. Qed.

Lemma filter_length_lt {A} (f : A -> bool) (l : list A) x :
  In x l -> f x = false -> (length (List.filter f l) < length l)%nat.
Proof.
  induction l as [| y l IH]; intros Hin Hx; [destruct Hin |].
  pose proof (List.filter_length_le f l) as Hle. simpl.
  destruct Hin as [-> | Hin].
  - rewrite Hx. lia.
  - specialize (IH Hin Hx). destruct (f y); simpl; lia.
Qed.

Lemma blocksInUse_lt pool :
  first_free pool <> None -> (length (blocksInUse pool) < length pool)%nat.
Proof.
  intros Hfree.
  destruct (first_free pool) as [event |] eqn:Hf; [| congruence].
  apply first_free_Some in Hf. unfold blocksInUse.
  pose proof (filter_length_lt
                (fun i => match mjoin (pool !! i) with
                          | Some _ => true
                          | None => false
                          end)
                (seq 0 (length pool)) event) as Hlt.
  rewrite length_seq in Hlt. apply Hlt.
  - apply in_seq. apply lookup_lt_Some in Hf. lia.
  - cbv beta. rewrite Hf. reflexivity.
Qed.

(** Where the inbound queue is at least as large as the event pool and
    holds pointers to distinct blocks in use, it is never full while the
    pool has a free block: the third cause of failure of [postEvent] then
    does not arise. *)
Lemma inboundQueueFull_needs_small_queue env s :
  inboundWellFormed s ->
  (length (mEventPool s) <= kMaxUnscheduledEventCount env)%nat ->
  poolExhausted s = false ->
  inboundQueueFull env s = false.
Proof.
  intros [Hnd Hlive] Hcap Hex. unfold inboundQueueFull.
  assert (Hfree : first_free (mEventPool s) <> None).
  { intros Hnone. apply first_free_None in Hnone.
    unfold poolExhausted in Hex. congruence. }
  apply blocksInUse_lt in Hfree.
  assert (Hincl : incl (mEvents s) (blocksInUse (mEventPool s))).
  { intros event Hin. destruct (Hlive event Hin) as [e He].
    unfold blocksInUse. apply List.filter_In. unfold deref in He.
    rewrite He. split; [| reflexivity].
    apply in_seq. destruct (mEventPool s !! event) eqn:Hl; [| discriminate].
    apply lookup_lt_Some in Hl. lia. }
  apply NoDup_ListNoDup in Hnd.
  pose proof (List.NoDup_incl_length Hnd Hincl) as Hlen.
  apply negb_false_iff, Nat.ltb_lt. lia.
Qed.

(** C6: where the inbound queue is at least as large as the event pool
    (the sources at hand fix neither size) and holds pointers to distinct
    blocks in use (as it does in every state that the loop reaches from
    its construction, [reachable_accounted]), [postEvent] returns false
    only when the loop is not running or the event pool is exhausted; in
    every other case it appends the event, with no reference yet, to the
    inbound queue and returns true. The queue then still holds pointers to
    distinct blocks in use, and the pool has as many blocks as before. *)
Theorem postEvent_fails_only_when_stopping_or_exhausted
    env type data callback sender target s
    (Hqueue : inboundWellFormed s)
    (Hsize : (length (mEventPool s) <= kMaxUnscheduledEventCount env)%nat) :
  let '(ok, s') := postEvent env type data callback sender target s in
  (ok = false <-> mRunning s = false \/ poolExhausted s = true)
  /\ (if ok then
        exists event,
          mEvents s' = mEvents s ++ [event]
          /\ deref s event = None
          /\ deref s' event
             = Some (mkEvent type data callback sender target 0)
      else s' = s \/ s' = emit LogError s)
  /\ inboundWellFormed s'
  /\ length (mEventPool s') = length (mEventPool s).
Proof.
  pose proof (inboundQueueFull_needs_small_queue env s Hqueue Hsize) as Hroom.
  unfold inboundQueueFull in Hroom.
  unfold postEvent, allocate.
  destruct (mRunning s) eqn:Hrunning.
  2:{ split; [split; auto |]. split; [left; reflexivity |].
      split; [exact Hqueue | reflexivity]. }
  destruct (first_free (mEventPool s)) as [event |] eqn:Hfree.
  - assert (Hex : poolExhausted s = false).
    { unfold poolExhausted. destruct (forallb _ _) eqn:Hall; [| reflexivity].
      apply first_free_None in Hall. congruence. }
    specialize (Hroom Hex). apply negb_false_iff in Hroom.
    cbv beta iota zeta. cbn [mEvents set_pool]. rewrite Hroom, Hex.
    pose proof (first_free_Some _ _ Hfree) as Hslot.
    assert (Hlt : (event < length (mEventPool s))%nat)
      by (eapply lookup_lt_Some, Hslot).
    assert (Hnew : ~ In event (mEvents s)).
    { intros Hin. destruct Hqueue as [_ Hlive].
      destruct (Hlive event Hin) as [e He]. unfold deref in He.
      rewrite Hslot in He. discriminate. }
    split; [split; [discriminate | intros [H | H]; discriminate] |].
    split; [| split].
    + exists event. split; [reflexivity |]. unfold deref. cbn. split.
      * rewrite Hslot. reflexivity.
      * rewrite list_lookup_insert_eq by exact Hlt. reflexivity.
    + destruct Hqueue as [Hnd Hlive]. split; cbn [mEvents set_events].
      * apply NoDup_app. split; [exact Hnd |].
        split; [| apply NoDup_singleton].
        intros x Hx Hx'. apply list_elem_of_singleton in Hx'. subst x.
        apply Hnew, list_elem_of_In, Hx.
      * intros other Hin. apply in_app_or in Hin as [Hin | [<- | []]].
        -- unfold deref. cbn.
           assert (Hne : event <> other) by (intros ->; exact (Hnew Hin)).
           rewrite list_lookup_insert_ne by exact Hne.
           exact (Hlive other Hin).
        -- unfold deref. cbn.
           rewrite list_lookup_insert_eq by exact Hlt. eexists. reflexivity.
    + cbn. apply length_insert.
  - assert (Hex : poolExhausted s = true)
      by (apply first_free_None, Hfree).
    rewrite Hex.
    split; [split; auto |]. split; [right; reflexivity |].
    split; [exact Hqueue | reflexivity].
Qed.

(** An instance: a running loop with a pool of two blocks, one of them in
    use by the one inbound event, and an inbound queue for two events. *)
Lemma postEvent_fails_only_when_stopping_or_exhausted_witness :
  let env := mkEnv 2 (fun _ => true) in
  let s := mkEventLoop true [] [O]
             [Some (mkEvent 512 0 None 3 kBroadcastInstanceId 0); None]
             None 1 [] in
  (inboundWellFormed s
   /\ (length (mEventPool s) <= kMaxUnscheduledEventCount env)%nat)
  /\ fst (postEvent env 256 7 (Some 42) 3 1 s) = true
  /\ mEvents (snd (postEvent env 256 7 (Some 42) 3 1 s)) = [O; 1%nat].
Proof.
  intros env s.
  assert (Hqueue : inboundWellFormed s).
  { split; [apply NoDup_singleton |].
    intros event [<- | []]. eexists. reflexivity. }
  assert (Hsize : (length (mEventPool s) <= kMaxUnscheduledEventCount env)%nat)
    by (cbn; lia).
  split; [split; assumption |].
  pose proof (postEvent_fails_only_when_stopping_or_exhausted
                env 256 7 (Some 42) 3 1 s Hqueue Hsize) as H.
  destruct (postEvent env 256 7 (Some 42) 3 1 s) as [ok s'] eqn:Hpost.
  destruct H as (Hok & Hif & _). cbn [fst snd].
  destruct ok.
  - split; [reflexivity |]. vm_compute in Hpost. injection Hpost as <-.
    reflexivity.
  - exfalso. destruct (proj1 Hok eq_refl) as [H | H]; discriminate.
Defined.

(** *** startNanoapp *)

Lemma findNanoappInstanceIdByAppId_None s appId :
  findNanoappInstanceIdByAppId s appId = None <-> appIdExists s appId = false.
Proof.
  unfold findNanoappInstanceIdByAppId, appIdExists.
  induction (mNanoapps s) as [| app apps IH]; simpl; [tauto |].
  destruct (getAppId app =? appId); simpl; [split; discriminate | exact IH].
Qed.

(** C7: for a nanoapp handed to [startNanoapp], the call fails exactly when
    an app with the same app id is in the list, the list cannot take one
    more nanoapp, or the start entry point returns false. In this last case
    the list of nanoapps is the one before the call and the call adds to
    the trace the start of the nanoapp (in its own context, under a fresh
    instance id) and an error message: its end entry point is not called.
    On success the nanoapp is the last of the list. *)
Theorem startNanoapp_result env nanoapp s :
  let '(ok, s') := startNanoapp env (Some nanoapp) s in
  let duplicate := appIdExists s (getAppId nanoapp) in
  let full := negb (nanoappsCanGrow env (length (mNanoapps s))) in
  ok = negb (duplicate || full || negb (startResult nanoapp))
  /\ if duplicate || full then
       mNanoapps s' = mNanoapps s /\ trace s' = trace s ++ [LogError]
     else if startResult nanoapp then
       mNanoapps s'
       = mNanoapps s ++ [setInstanceId (mLastInstanceId s + 1) nanoapp]
       /\ trace s' = trace s ++ [NanoappStart (Some (mLastInstanceId s + 1))]
     else
       mNanoapps s' = mNanoapps s
       /\ trace s' = trace s ++ [NanoappStart (Some (mLastInstanceId s + 1));
                                 LogError]
       /\ List.filter is_NanoappEnd (trace s')
          = List.filter is_NanoappEnd (trace s).
Proof.
  unfold startNanoapp.
  destruct (findNanoappInstanceIdByAppId s (getAppId nanoapp)) as [id |] eqn:Hf.
  { assert (Hd : appIdExists s (getAppId nanoapp) = true).
    { destruct (appIdExists s (getAppId nanoapp)) eqn:Hd; [reflexivity |].
      apply findNanoappInstanceIdByAppId_None in Hd. congruence. }
    rewrite Hd. simpl. auto. }
  apply findNanoappInstanceIdByAppId_None in Hf. rewrite Hf. simpl.
  destruct (nanoappsCanGrow env (length (mNanoapps s))); simpl; [| auto].
  destruct (startResult nanoapp) eqn:Hstart; simpl.
  - auto.
  - rewrite length_app. simpl.
    replace (length (mNanoapps s) + 1 - 1)%nat with (length (mNanoapps s))
      by lia.
    rewrite take_app_length. rewrite <- app_assoc. simpl.
    repeat split; auto.
    rewrite List.filter_app. simpl. apply app_nil_r.
Qed.

(** A null [UniquePtr] is refused without any effect. *)
Lemma startNanoapp_null env s : startNanoapp env None s = (false, s).
Proof. reflexivity. Qed.

(** *** distributeEvent *)

Lemma distributeToNanoapps_apps e event apps : forall pool,
  fst (distributeToNanoapps e event apps pool)
  = map (afterDistribute e event) apps.
Proof.
  induction apps as [| app apps IH]; intros pool; [reflexivity |].
  simpl. unfold afterDistribute at 1. unfold takesEvent, Nanoapp_postEvent.
  destruct (isRecipient e app); [destruct (hasRoom app) |]; simpl;
    match goal with
    | |- context [distributeToNanoapps e event apps ?p] =>
        specialize (IH p); destruct (distributeToNanoapps e event apps p)
    end; simpl in *; congruence.
Qed.

Lemma distributeToNanoapps_pool e event apps : forall pool,
  snd (distributeToNanoapps e event apps pool)
  = Nat.iter (length (List.filter (takesEvent e) apps))
             (alter (fmap incrementRefCount) event) pool.
Proof.
  induction apps as [| app apps IH]; intros pool; [reflexivity |].
  simpl. unfold takesEvent at 1. unfold Nanoapp_postEvent.
  destruct (isRecipient e app); [destruct (hasRoom app) |]; simpl;
    match goal with
    | |- context [distributeToNanoapps e event apps ?p] =>
        specialize (IH p); destruct (distributeToNanoapps e event apps p)
    end; simpl in *; subst; [| reflexivity ..].
  apply Nat.iter_swap.
Qed.

Lemma iter_increment_lookup n event : forall (pool : list (option Event)) e,
  pool !! event = Some (Some e) ->
  Nat.iter n (alter (fmap incrementRefCount) event) pool !! event
  = Some (Some (addRefs n e)).
Proof.
  induction n as [| n IH]; intros pool e Hl.
  - simpl. rewrite Hl. destruct e. unfold addRefs. simpl.
    rewrite Nat.add_0_r. reflexivity.
  - rewrite Nat.iter_succ_r. erewrite IH.
    2:{ rewrite list_lookup_alter_eq, Hl. reflexivity. }
    destruct e. unfold addRefs, incrementRefCount. simpl.
    do 3 f_equal. lia.
Qed.

Lemma deref_Some s event e :
  deref s event = Some e <-> mEventPool s !! event = Some (Some e).
Proof.
  unfold deref. destruct (mEventPool s !! event) as [[e' |] |]; simpl;
    split; congruence.
Qed.

Lemma map_afterDistribute_none e event apps :
  length (List.filter (takesEvent e) apps) = O ->
  map (afterDistribute e event) apps = apps.
Proof.
  induction apps as [| app apps IH]; [reflexivity |]. simpl.
  unfold afterDistribute at 1.
  destruct (takesEvent e app); simpl; [discriminate |].
  intros Hn. rewrite IH; auto.
Qed.


Lemma takesEvent_recipients e apps :
  Forall (fun app => hasRoom app = true) (List.filter (isRecipient e) apps) ->
  List.filter (takesEvent e) apps = List.filter (isRecipient e) apps.
Proof.
  induction apps as [| app apps IH]; [reflexivity |].
  cbn [List.filter]. unfold takesEvent at 1.
  destruct (isRecipient e app); cbn [andb].
  - intros Hroom. apply Forall_cons in Hroom as [-> Hroom].
    rewrite (IH Hroom). reflexivity.
  - exact IH.
Qed.



(** A recipient whose queue is full is passed by: with no other recipient
    the event is dropped and freed at once. *)
Example distributeEvent_full_queue :
  let e := mkEvent 256 0 (Some 42) 2 kBroadcastInstanceId 0 in
  let s := mkEventLoop true
             [mkNanoapp 1000 1 false true [256] [1%nat] 1;
              mkNanoapp 2000 2 false true [] [] 4]
             [] [Some e; Some (mkEvent 512 0 None 2 1 1)] None 2 [] in
  isRecipient e (mkNanoapp 1000 1 false true [256] [1%nat] 1) = true
  /\ mNanoapps (distributeEvent O s) = mNanoapps s
  /\ trace (distributeEvent O s)
     = [LogDroppingEvent 256; FreeCallback (Some 2) 42 256 0]
  /\ deref (distributeEvent O s) O = None.
Proof. vm_compute. repeat split; reflexivity. Qed.

(** *** Delivery and the statements of run after its main loop *)

Lemma setEventQueue_id app : setEventQueue (mEventQueue app) app = app.
Proof. destruct app; reflexivity. Qed.

Lemma popHead_no_pending app : hasPendingEvent app = false -> popHead app = app.
Proof.
  unfold hasPendingEvent, popHead. destruct app as [a i y r e q]. simpl.
  destruct q; [reflexivity | discriminate].
Qed.

Lemma freeEventActions_deliveries s o :
  forallb is_delivery (from_option (freeEventActions s) [] o) = true.
Proof.
  destruct o as [e |]; [| reflexivity]. unfold freeEventActions. simpl.
  destruct (freeCallback e); reflexivity.
Qed.


Lemma processNextEvent_spec index s app event rest :
  mNanoapps s !! index = Some app ->
  mEventQueue app = event :: rest ->
  exists s1,
    processNextEvent index s = (Some event, s1)
    /\ mNanoapps s1 = <[index := setEventQueue rest app]> (mNanoapps s)
    /\ mEvents s1 = mEvents s
    /\ exists t, trace s1 = trace s ++ t /\ forallb is_delivery t = true.
Proof.
  intros Happ Hq. unfold processNextEvent. rewrite Happ, Hq.
  eexists. split; [reflexivity |].
  destruct (deref _ event) as [e |]; cbn.
  - repeat split. eexists. split; reflexivity.
  - repeat split. exists []. rewrite app_nil_r. auto.
Qed.

(** One delivery: the nanoapp at [index] loses the head of its queue, the
    other nanoapps and the inbound queue are untouched, and the trace grows
    by the call of the handler and, possibly, of the free callback. *)
Lemma deliverNextEvent_spec index s app :
  mNanoapps s !! index = Some app ->
  mNanoapps (snd (deliverNextEvent index s))
  = <[index := popHead app]> (mNanoapps s)
  /\ mEvents (snd (deliverNextEvent index s)) = mEvents s
  /\ fst (deliverNextEvent index s) = hasPendingEvent (popHead app)
  /\ exists t, trace (snd (deliverNextEvent index s)) = trace s ++ t
               /\ forallb is_delivery t = true.
Proof.
  intros Happ. unfold deliverNextEvent.
  set (s0 := set_current (getInstanceId <$> mNanoapps s !! index) s).
  assert (Happ0 : mNanoapps s0 !! index = Some app) by exact Happ.
  destruct (mEventQueue app) as [| event rest] eqn:Hq.
  - assert (Hrun : processNextEvent index s0 = (None, s0))
      by (unfold processNextEvent; rewrite Happ0, Hq; reflexivity).
    rewrite Hrun. cbn. rewrite Happ. cbn.
    assert (Hid : popHead app = app)
      by (apply popHead_no_pending; unfold hasPendingEvent; rewrite Hq;
          reflexivity).
    rewrite Hid, list_insert_id by exact Happ.
    repeat split; auto. exists []. rewrite app_nil_r. auto.
  - assert (Hpop : popHead app = setEventQueue rest app)
      by (unfold popHead; rewrite Hq; reflexivity).
    rewrite Hpop.
    assert (Hlt : (index < length (mNanoapps s))%nat)
      by (eapply lookup_lt_Some, Happ).
    destruct (processNextEvent_spec index s0 app event rest Happ0 Hq)
      as (s1 & Hrun & Hn1 & He1 & t1 & Ht1 & Hd1).
    rewrite Hrun. cbv beta iota zeta.
    set (s2 := set_current None s1).
    assert (Hfinal : forall s3,
              s3 = s2 \/ s3 = freeEvent event s2 ->
              mNanoapps s3 = <[index := setEventQueue rest app]> (mNanoapps s)
              /\ mEvents s3 = mEvents s
              /\ exists t, trace s3 = trace s ++ t
                           /\ forallb is_delivery t = true).
    { intros s3 [-> | ->].
      - repeat split; auto. exists t1. auto.
      - rewrite mNanoapps_freeEvent, mEvents_freeEvent, trace_freeEvent.
        repeat split; auto.
        eexists. cbn. rewrite Ht1. cbn. rewrite <- app_assoc.
        split; [reflexivity |].
        rewrite forallb_app, Hd1. apply freeEventActions_deliveries. }
    match goal with
    | |- context [mNanoapps (snd (_, ?st))] => set (s3 := st)
    end.
    assert (H3 : s3 = s2 \/ s3 = freeEvent event s2).
    { unfold s3. destruct (deref s2 event) as [e |]; [| auto].
      destruct (isUnreferenced e); auto. }
    destruct (Hfinal s3 H3) as (Hn & He & Ht).
    cbn [fst snd]. rewrite Hn.
    rewrite list_lookup_insert_eq by exact Hlt. cbn.
    repeat split; auto.
Qed.

(** One round of [deliverEvents] over the nanoapps still to visit. *)
Lemma deliverEvents_loop_spec todo : forall done s have,
  mNanoapps s = done ++ todo ->
  let r := deliverEvents_loop (length todo) (length done) have s in
  mNanoapps (snd r) = done ++ map popHead todo
  /\ mEvents (snd r) = mEvents s
  /\ fst r
     = have || existsb (fun app => hasPendingEvent (popHead app)) todo
  /\ exists t, trace (snd r) = trace s ++ t /\ forallb is_delivery t = true.
Proof.
  induction todo as [| app todo IH]; intros done s have Happs.
  - cbn. rewrite orb_false_r. repeat split; auto.
    exists []. rewrite app_nil_r. auto.
  - cbn [deliverEvents_loop length].
    assert (Hl : mNanoapps s !! length done = Some app)
      by (rewrite Happs; apply list_lookup_middle; reflexivity).
    rewrite Hl.
    destruct (hasPendingEvent app) eqn:Hp.
    + destruct (deliverNextEvent_spec _ _ _ Hl) as (Hn & He & Hf & t & Ht & Hd).
      destruct (deliverNextEvent (length done) s) as [pending s1].
      cbn [fst snd] in *.
      assert (Happs1 : mNanoapps s1 = (done ++ [popHead app]) ++ todo).
      { rewrite Hn, Happs, insert_app_r_alt by lia.
        rewrite Nat.sub_diag, <- app_assoc. reflexivity. }
      specialize (IH (done ++ [popHead app]) s1 (have || pending) Happs1).
      rewrite length_app in IH. cbn [length] in IH.
      rewrite Nat.add_1_r in IH. cbv zeta in IH.
      destruct IH as (Hn' & He' & Hf' & t' & Ht' & Hd').
      cbv zeta. rewrite Hn', He', Hf', <- app_assoc. cbn.
      repeat split; auto.
      * rewrite Hf, orb_assoc. reflexivity.
      * exists (t ++ t'). rewrite Ht', Ht, <- app_assoc, forallb_app, Hd, Hd'.
        auto.
    + assert (Hid : popHead app = app) by (apply popHead_no_pending, Hp).
      assert (Happs1 : mNanoapps s = (done ++ [app]) ++ todo)
        by (rewrite <- app_assoc; exact Happs).
      specialize (IH (done ++ [app]) s have Happs1).
      rewrite length_app in IH. cbn [length] in IH.
      rewrite Nat.add_1_r in IH. cbv zeta in IH.
      destruct IH as (Hn' & He' & Hf' & t' & Ht' & Hd').
      cbv zeta. rewrite Hn', He', Hf', <- app_assoc. cbn. rewrite Hid, Hp.
      repeat split; auto. exists t'. auto.
Qed.

Lemma deliverEvents_spec s :
  mNanoapps (snd (deliverEvents s)) = map popHead (mNanoapps s)
  /\ mEvents (snd (deliverEvents s)) = mEvents s
  /\ fst (deliverEvents s)
     = existsb (fun app => hasPendingEvent (popHead app)) (mNanoapps s)
  /\ exists t, trace (snd (deliverEvents s)) = trace s ++ t
               /\ forallb is_delivery t = true.
Proof.
  exact (deliverEvents_loop_spec (mNanoapps s) [] s false eq_refl).
Qed.

Lemma pending_popHead_le apps :
  (sum_list (map (fun app => length (mEventQueue app)) (map popHead apps))
   <= sum_list (map (fun app => length (mEventQueue app)) apps))%nat.
Proof.
  induction apps as [| app apps IH]; [reflexivity |]. cbn.
  destruct (mEventQueue app); cbn; lia.
Qed.

Lemma pending_popHead_lt apps :
  existsb (fun app => hasPendingEvent (popHead app)) apps = true ->
  (sum_list (map (fun app => length (mEventQueue app)) (map popHead apps))
   < sum_list (map (fun app => length (mEventQueue app)) apps))%nat.
Proof.
  induction apps as [| app apps IH]; [discriminate |]. cbn.
  pose proof (pending_popHead_le apps) as Hle.
  unfold hasPendingEvent at 1. cbn.
  destruct (mEventQueue app) as [| e [| e' q]]; cbn; intros H;
    try (apply IH in H); lia.
Qed.

Lemma popHead_drained apps :
  existsb (fun app => hasPendingEvent (popHead app)) apps = false ->
  Forall (fun app => mEventQueue app = []) (map popHead apps).
Proof.
  induction apps as [| app apps IH]; [constructor |]. cbn.
  intros H. apply orb_false_iff in H as [Hh Ht].
  constructor; [| apply IH, Ht].
  unfold hasPendingEvent in Hh.
  change (mEventQueue (popHead app)) with (tail (mEventQueue app)) in *.
  destruct (tail (mEventQueue app)); [reflexivity | discriminate].
Qed.

Lemma map_getInstanceId_popHead apps :
  map getInstanceId (map popHead apps) = map getInstanceId apps.
Proof. rewrite map_map. reflexivity. Qed.

(** [flushNanoappEventQueues] ends as soon as the fuel exceeds the number of
    pending events: all the queues of the nanoapps are then empty, the
    nanoapps are the same, in the same order, the inbound queue is untouched
    and only handlers and free callbacks were called. *)
Lemma flushNanoappEventQueues_loop_spec fuel : forall s,
  (pendingEvents s < fuel)%nat ->
  exists s1 t,
    flushNanoappEventQueues_loop fuel s = Some s1
    /\ Forall (fun app => mEventQueue app = []) (mNanoapps s1)
    /\ map getInstanceId (mNanoapps s1) = map getInstanceId (mNanoapps s)
    /\ mEvents s1 = mEvents s
    /\ trace s1 = trace s ++ t /\ forallb is_delivery t = true.
Proof.
  induction fuel as [| fuel IH]; intros s Hfuel; [lia |].
  cbn [flushNanoappEventQueues_loop].
  destruct (deliverEvents_spec s) as (Hn & He & Hf & t & Ht & Hd).
  destruct (deliverEvents s) as [have s']. cbn [fst snd] in *.
  destruct have.
  - symmetry in Hf. apply pending_popHead_lt in Hf.
    destruct (IH s') as (s1 & t1 & Hrun & Hall & Hids & Hev & Htr & Hdel).
    { unfold pendingEvents in *. rewrite Hn. lia. }
    exists s1, (t ++ t1). rewrite Hrun, Hids, Hn, map_getInstanceId_popHead.
    rewrite Hev, He, Htr, Ht, <- app_assoc, forallb_app, Hd, Hdel. auto 10.
  - exists s', t. symmetry in Hf. apply popHead_drained in Hf.
    rewrite <- Hn in Hf.
    rewrite Hn at 2. rewrite map_getInstanceId_popHead. repeat split; auto.
Qed.


Lemma find_instance_ids x (l l' : list Nanoapp) :
  map getInstanceId l = map getInstanceId l' ->
  getInstanceId <$> List.find (fun app => getInstanceId app =? x) l
  = getInstanceId <$> List.find (fun app => getInstanceId app =? x) l'.
Proof.
  revert l'. induction l as [| a l IH]; intros [| a' l'] Hmap;
    try discriminate; [reflexivity |].
  cbn in Hmap. injection Hmap as Ha Hl. cbn. rewrite Ha.
  destruct (getInstanceId a' =? x); cbn; [congruence | auto].
Qed.

Lemma freeEventActions_ids s s' e :
  map getInstanceId (mNanoapps s) = map getInstanceId (mNanoapps s') ->
  freeEventActions s e = freeEventActions s' e.
Proof.
  intros Hids. unfold freeEventActions, lookupAppByInstanceId.
  destruct (freeCallback e); [| reflexivity].
  destruct (negb _); [| reflexivity].
  rewrite (find_instance_ids _ _ _ Hids). reflexivity.
Qed.








(** A stopped loop with one nanoapp (instance 1, registered for events of
    type 0x100) and one inbound broadcast event of that type. *)
Example run_exit_inbound_event :
  let s := mkEventLoop false [mkNanoapp 1000 1 false true [256] [] 4] [O]
             [Some (mkEvent 256 0 (Some 42) kSystemInstanceId
                            kBroadcastInstanceId 0)]
             None 1 [] in
  trace <$> run_exit s
  = Some [FreeCallback None 42 256 0; NanoappEnd (Some 1)]
  /\ trace <$> shutdown_drain_spec s
     = Some [NanoappHandleEvent (Some 1) kSystemInstanceId 256 0;
             FreeCallback None 42 256 0; NanoappEnd (Some 1)].
Proof. vm_compute. split; reflexivity. Qed.


(** *** stop, lookups and the start of nanoapps *)

Lemma postEvent_frame env type data callback sender target s :
  let s' := snd (postEvent env type data callback sender target s) in
  mNanoapps s' = mNanoapps s /\ mCurrentApp s' = mCurrentApp s
  /\ mRunning s' = mRunning s /\ mLastInstanceId s' = mLastInstanceId s
  /\ (trace s' = trace s \/ trace s' = trace s ++ [LogError]).
Proof.
  unfold postEvent, allocate.
  destruct (mRunning s) eqn:Hr; [| cbn; repeat split; auto].
  destruct (first_free (mEventPool s)); [| cbn; repeat split; auto].
  cbv beta iota zeta. cbn [mEvents set_pool].
  destruct (length (mEvents s) <? kMaxUnscheduledEventCount env)%nat; cbn;
    repeat split; auto.
Qed.

(** What [postEvent] does to the inbound queue and the pool. *)
Lemma postEvent_queue env type data callback sender target s :
  let r := postEvent env type data callback sender target s in
  (fst r = true
   /\ exists event,
        first_free (mEventPool s) = Some event
        /\ mEvents (snd r) = mEvents s ++ [event]
        /\ mEventPool (snd r)
           = <[event := Some (mkEvent type data callback sender target 0)]>
               (mEventPool s))
  \/ (fst r = false /\ mEvents (snd r) = mEvents s
      /\ (mEventPool (snd r) = mEventPool s
          \/ exists event,
               first_free (mEventPool s) = Some event
               /\ mEventPool (snd r)
                  = <[event := Some (mkEvent type data callback sender
                                             target 0)]> (mEventPool s))).
Proof.
  unfold postEvent, allocate. destruct (mRunning s); [| cbn; auto].
  destruct (first_free (mEventPool s)) as [event |] eqn:Hf; [| cbn; auto].
  cbv beta iota zeta. cbn [mEvents set_pool].
  destruct (length (mEvents s) <? kMaxUnscheduledEventCount env)%nat; cbn.
  - left. split; [reflexivity |]. exists event. auto.
  - right. split; [reflexivity |]. split; [reflexivity |]. right.
    exists event. auto.
Qed.

Lemma deref_insert_eq (pool : list (option Event)) event e :
  pool !! event = Some None ->
  mjoin (<[event := Some e]> pool !! event) = Some e.
Proof.
  intros Hl. rewrite list_lookup_insert_eq; [reflexivity |].
  eapply lookup_lt_Some, Hl.
Qed.

(** X11: [stop] clears the running flag; from then on [postEvent] returns
    false for every event and changes nothing. [stop] itself leaves the
    nanoapps alone and adds to the inbound queue at most its own event, of
    type 0, without data and free callback, from and to the SYSTEM
    instance. *)
Theorem stop_refuses_events env s type data callback sender target :
  mRunning (stop env s) = false
  /\ postEvent env type data callback sender target (stop env s)
     = (false, stop env s)
  /\ mNanoapps (stop env s) = mNanoapps s
  /\ (mEvents (stop env s) = mEvents s
      \/ exists event,
           mEvents (stop env s) = mEvents s ++ [event]
           /\ deref s event = None
           /\ deref (stop env s) event
              = Some (mkEvent 0 0 None kSystemInstanceId kSystemInstanceId 0)).
Proof.
  unfold stop.
  pose proof (postEvent_queue env 0 0 None kSystemInstanceId
                kSystemInstanceId s) as Hpost.
  pose proof (postEvent_frame env 0 0 None kSystemInstanceId
                kSystemInstanceId s) as Hframe.
  destruct (postEvent env 0 0 None kSystemInstanceId kSystemInstanceId s)
    as [ok s1]. cbn [fst snd] in *. cbv zeta in *.
  destruct Hframe as (Hn & _ & _ & _ & _).
  split; [reflexivity |]. split; [reflexivity |]. split; [exact Hn |].
  destruct Hpost as [(_ & event & Hf & He & Hp) | (_ & He & _)];
    [right | left; exact He].
  exists event. apply first_free_Some in Hf.
  split; [exact He |]. unfold deref. cbn. rewrite Hp, Hf.
  split; [reflexivity |]. apply deref_insert_eq, Hf.
Qed.




(** X13: [lookupAppByInstanceId] returns a nanoapp of the list that has the
    instance id asked for, which is then not the SYSTEM id; it returns
    nothing exactly when the id is the SYSTEM id or no nanoapp of the list
    has it. [findNanoappInstanceIdByAppId] finds an instance id exactly
    when a nanoapp of the list has the app id, and the id is the one of
    such a nanoapp. *)
Theorem lookup_hits_and_misses s instanceId appId :
  match lookupAppByInstanceId s instanceId with
  | Some app =>
      In app (mNanoapps s) /\ getInstanceId app = instanceId
      /\ instanceId <> kSystemInstanceId
  | None =>
      instanceId = kSystemInstanceId
      \/ forall app, In app (mNanoapps s) -> getInstanceId app <> instanceId
  end
  /\ match findNanoappInstanceIdByAppId s appId with
     | Some id =>
         exists app, In app (mNanoapps s) /\ getAppId app = appId
                     /\ getInstanceId app = id
     | None => forall app, In app (mNanoapps s) -> getAppId app <> appId
     end.
Proof.
  split.
  - unfold lookupAppByInstanceId.
    destruct (Z.eqb_spec instanceId kSystemInstanceId) as [Hs | Hs]; cbn;
      [auto |].
    destruct (List.find _ (mNanoapps s)) as [app |] eqn:Hf.
    + apply List.find_some in Hf as [Hin Hid]. apply Z.eqb_eq in Hid. auto.
    + right. intros app Hin Hid.
      apply (List.find_none _ _ Hf) in Hin. apply Z.eqb_neq in Hin. auto.
  - unfold findNanoappInstanceIdByAppId.
    destruct (List.find _ (mNanoapps s)) as [app |] eqn:Hf; cbn.
    + apply List.find_some in Hf as [Hin Hid]. apply Z.eqb_eq in Hid.
      exists app. auto.
    + intros app Hin Hid.
      apply (List.find_none _ _ Hf) in Hin. apply Z.eqb_neq in Hin. auto.
Qed.

(** *** Rounds of delivery and the flush of the inbound queue *)

Lemma pendingEvents_popHead apps :
  sum_list (map (fun app => length (mEventQueue app)) apps)
  = (sum_list (map (fun app => length (mEventQueue app)) (map popHead apps))
     + length (List.filter hasPendingEvent apps))%nat.
Proof.
  induction apps as [| app apps IH]; [reflexivity |]. cbn.
  unfold hasPendingEvent at 1. destruct (mEventQueue app); cbn; lia.
Qed.

Lemma existsb_popHead apps :
  existsb hasPendingEvent (map popHead apps)
  = existsb (fun app => hasPendingEvent (popHead app)) apps.
Proof.
  induction apps as [| app apps IH]; [reflexivity |].
  cbn [map existsb]. rewrite IH. reflexivity.
Qed.

(** X14: one round of [deliverEvents] takes exactly the head off the queue
    of every nanoapp that has a pending event and leaves the rest of the
    queues and the order of the nanoapps as they are; it calls handlers
    and free callbacks only; and it returns true exactly when a nanoapp
    still has a pending event afterwards. *)
Theorem deliverEvents_round_robin s :
  let '(havePendingEvents, s') := deliverEvents s in
  mNanoapps s' = map popHead (mNanoapps s)
  /\ pendingEvents s
     = (pendingEvents s' + length (List.filter hasPendingEvent (mNanoapps s)))%nat
  /\ havePendingEvents = existsb hasPendingEvent (mNanoapps s')
  /\ exists t, trace s' = trace s ++ t /\ forallb is_delivery t = true.
Proof.
  destruct (deliverEvents_spec s) as (Hn & He & Hf & Ht).
  destruct (deliverEvents s) as [have s']. cbn [fst snd] in *.
  split; [exact Hn |]. split.
  - unfold pendingEvents. rewrite Hn. apply pendingEvents_popHead.
  - split; [| exact Ht]. rewrite Hf, Hn. symmetry. apply existsb_popHead.
Qed.

Lemma queueGrows_refl app : queueGrows app app.
Proof. split; reflexivity. Qed.

Lemma queueGrows_trans a b c : queueGrows a b -> queueGrows b c -> queueGrows a c.
Proof.
  intros [Hab Pab] [Hbc Pbc]. split; [congruence |].
  etransitivity; eassumption.
Qed.

Lemma Forall2_queueGrows_refl apps : Forall2 queueGrows apps apps.
Proof. induction apps; constructor; auto using queueGrows_refl. Qed.

Lemma Forall2_queueGrows_trans l k m :
  Forall2 queueGrows l k -> Forall2 queueGrows k m -> Forall2 queueGrows l m.
Proof. apply Forall2_trans. exact queueGrows_trans. Qed.

Lemma queueGrows_afterDistribute e event apps :
  Forall2 queueGrows apps (map (afterDistribute e event) apps).
Proof.
  induction apps as [| app apps IH]; constructor; [| exact IH].
  unfold afterDistribute. destruct (takesEvent e app);
    [| apply queueGrows_refl].
  split; [destruct app; reflexivity |]. cbn. apply prefix_app_r. reflexivity.
Qed.

Lemma queueGrows_withoutQueue l k :
  Forall2 queueGrows l k -> map withoutQueue k = map withoutQueue l.
Proof.
  induction 1 as [| a b l k [Hw _] _ IH]; [reflexivity |].
  cbn. rewrite Hw, IH. reflexivity.
Qed.

Lemma mRunning_freeEvent event s : mRunning (freeEvent event s) = mRunning s.
Proof.
  unfold freeEvent. destruct (deref s event) as [e |]; [| reflexivity].
  destruct (freeCallback e); reflexivity.
Qed.

Lemma mLastInstanceId_freeEvent event s :
  mLastInstanceId (freeEvent event s) = mLastInstanceId s.
Proof.
  unfold freeEvent. destruct (deref s event) as [e |]; [| reflexivity].
  destruct (freeCallback e); reflexivity.
Qed.

Lemma freeEventActions_drop_or_free s o :
  forallb is_drop_or_free (from_option (freeEventActions s) [] o) = true.
Proof.
  destruct o as [e |]; [| reflexivity]. unfold freeEventActions. simpl.
  destruct (freeCallback e); reflexivity.
Qed.

(** What [distributeEvent] leaves alone, whatever the event: the inbound
    queue, the flags, the nanoapps but for events appended to their
    queues. *)
Lemma distributeEvent_frame event s :
  let s' := distributeEvent event s in
  mEvents s' = mEvents s /\ mRunning s' = mRunning s
  /\ mLastInstanceId s' = mLastInstanceId s
  /\ Forall2 queueGrows (mNanoapps s) (mNanoapps s')
  /\ (mCurrentApp s = None -> mCurrentApp s' = None)
  /\ exists t, trace s' = trace s ++ t /\ forallb is_drop_or_free t = true.
Proof.
  unfold distributeEvent.
  destruct (deref s event) as [e |].
  2:{ repeat split; auto using Forall2_queueGrows_refl.
      exists []. rewrite app_nil_r. auto. }
  pose proof (distributeToNanoapps_apps e event (mNanoapps s) (mEventPool s))
    as Happs.
  destruct (distributeToNanoapps e event (mNanoapps s) (mEventPool s))
    as [apps pool]. cbn [fst] in Happs. subst apps.
  set (s1 := set_pool pool
               (set_nanoapps (map (afterDistribute e event) (mNanoapps s)) s)).
  assert (Hbase : mEvents s1 = mEvents s /\ mRunning s1 = mRunning s
                  /\ mLastInstanceId s1 = mLastInstanceId s
                  /\ Forall2 queueGrows (mNanoapps s) (mNanoapps s1)
                  /\ (mCurrentApp s = None -> mCurrentApp s1 = None)
                  /\ exists t, trace s1 = trace s ++ t
                               /\ forallb is_drop_or_free t = true).
  { split; [reflexivity |]. split; [reflexivity |]. split; [reflexivity |].
    split; [apply queueGrows_afterDistribute |]. split; [auto |].
    exists []. rewrite app_nil_r. auto. }
  destruct (deref s1 event) as [e' |]; [| exact Hbase].
  destruct (isUnreferenced e'); [| exact Hbase].
  destruct Hbase as (He & Hr & Hl & Hq & Hc & _).
  rewrite mEvents_freeEvent, mRunning_freeEvent, mLastInstanceId_freeEvent,
    mNanoapps_freeEvent, trace_freeEvent.
  destruct (negb (senderInstanceId e' =? kSystemInstanceId)).
  - split; [exact He |]. split; [exact Hr |]. split; [exact Hl |].
    split; [exact Hq |]. split.
    + intros H. apply mCurrentApp_freeEvent. cbn. auto.
    + eexists. cbn [trace emit]. rewrite <- app_assoc. split; [reflexivity |].
      cbn. apply freeEventActions_drop_or_free.
  - split; [exact He |]. split; [exact Hr |]. split; [exact Hl |].
    split; [exact Hq |]. split.
    + intros H. apply mCurrentApp_freeEvent. auto.
    + eexists. split; [reflexivity |]. apply freeEventActions_drop_or_free.
Qed.

Lemma flushInboundEventQueue_loop_spec fuel : forall s,
  (length (mEvents s) <= fuel)%nat ->
  let s' := flushInboundEventQueue_loop fuel s in
  mEvents s' = [] /\ mRunning s' = mRunning s
  /\ mLastInstanceId s' = mLastInstanceId s
  /\ Forall2 queueGrows (mNanoapps s) (mNanoapps s')
  /\ (mCurrentApp s = None -> mCurrentApp s' = None)
  /\ exists t, trace s' = trace s ++ t /\ forallb is_drop_or_free t = true.
Proof.
  induction fuel as [| fuel IH]; intros s Hlen.
  - cbn. destruct (mEvents s); [| cbn in Hlen; lia].
    repeat split; auto using Forall2_queueGrows_refl.
    exists []. rewrite app_nil_r. auto.
  - cbn [flushInboundEventQueue_loop].
    destruct (mEvents s) as [| event rest] eqn:Hev.
    { rewrite Hev. repeat split; auto using Forall2_queueGrows_refl.
      exists []. rewrite app_nil_r. auto. }
    destruct (distributeEvent_frame event (set_events rest s))
      as (He & Hr & Hl & Hq & Hc & t & Ht & Hd).
    set (s1 := distributeEvent event (set_events rest s)) in *.
    destruct (IH s1) as (He' & Hr' & Hl' & Hq' & Hc' & t' & Ht' & Hd').
    { rewrite He. cbn in *. lia. }
    cbv zeta. rewrite He', Hr', Hl', Hr, Hl.
    split; [reflexivity |]. split; [reflexivity |]. split; [reflexivity |].
    split; [eapply Forall2_queueGrows_trans; [exact Hq | exact Hq'] |].
    split; [auto |].
    exists (t ++ t'). rewrite Ht', Ht, <- app_assoc, forallb_app, Hd, Hd'.
    auto.
Qed.

(** X15: [flushInboundEventQueue] empties the inbound queue. It keeps the
    nanoapps and their order and takes nothing out of their queues, to
    which it only appends; it calls no entry point of a nanoapp: apart
    from messages about dropped events it invokes free callbacks only. *)
Theorem flushInboundEventQueue_drains s :
  let s' := flushInboundEventQueue s in
  mEvents s' = []
  /\ Forall2 queueGrows (mNanoapps s) (mNanoapps s')
  /\ map withoutQueue (mNanoapps s') = map withoutQueue (mNanoapps s)
  /\ exists t, trace s' = trace s ++ t /\ forallb is_drop_or_free t = true.
Proof.
  destruct (flushInboundEventQueue_loop_spec (length (mEvents s)) s
              (Nat.le_refl _)) as (He & _ & _ & Hq & _ & Ht).
  fold (flushInboundEventQueue s) in *.
  repeat split; auto. apply queueGrows_withoutQueue, Hq.
Qed.

(** *** unloadNanoapp *)

Lemma findIndexByInstanceId_spec apps instanceId : forall start,
  match findIndexByInstanceId apps instanceId start with
  | Some (i, app) =>
      (start <= i)%nat /\ apps !! (i - start)%nat = Some app
      /\ getInstanceId app = instanceId
  | None => forall app, In app apps -> getInstanceId app <> instanceId
  end.
Proof.
  induction apps as [| app apps IH]; intros start; cbn.
  - intros app [].
  - destruct (Z.eqb_spec instanceId (getInstanceId app)) as [Heq | Hne].
    + rewrite Nat.sub_diag. auto.
    + specialize (IH (S start)).
      destruct (findIndexByInstanceId apps instanceId (S start))
        as [[i found] |].
      * destruct IH as (Hle & Hl & Hid). split; [lia |].
        replace (i - start)%nat with (S (i - S start)) by lia. auto.
      * intros a [<- | Hin]; [congruence | auto].
Qed.

Lemma flushMessagesSentByNanoapp_frame env posts : forall s,
  let s' := flushMessagesSentByNanoapp env posts s in
  mNanoapps s' = mNanoapps s /\ mCurrentApp s' = mCurrentApp s
  /\ mRunning s' = mRunning s /\ mLastInstanceId s' = mLastInstanceId s
  /\ List.filter is_NanoappEnd (trace s') = List.filter is_NanoappEnd (trace s).
Proof.
  induction posts as [| p posts IH]; intros s; [cbn; auto |].
  change (flushMessagesSentByNanoapp env (p :: posts) s)
    with (flushMessagesSentByNanoapp env posts (snd (post env p s))).
  destruct (postEvent_frame env (postedType p) (postedData p)
                   (postedFreeCallback p) (postedSender p) (postedTarget p) s)
    as (Hn & Hc & Hr & Hl & Ht).
  fold (post env p s) in Hn, Hc, Hr, Hl, Ht.
  destruct (IH (snd (post env p s))) as (Hn' & Hc' & Hr' & Hl' & Ht').
  cbv zeta. rewrite Hn', Hc', Hr', Hl', Ht', Hn, Hc, Hr, Hl.
  repeat split; auto.
  destruct Ht as [-> | ->]; [reflexivity |].
  rewrite List.filter_app. cbn. apply app_nil_r.
Qed.

Lemma drop_or_free_no_end t :
  forallb is_drop_or_free t = true -> List.filter is_NanoappEnd t = [].
Proof.
  induction t as [| a t IH]; [reflexivity |]. cbn.
  intros H. apply andb_true_iff in H as [Ha Ht].
  destruct a; try discriminate; cbn; auto.
Qed.

Lemma delivery_no_end t :
  forallb is_delivery t = true -> List.filter is_NanoappEnd t = [].
Proof.
  induction t as [| a t IH]; [reflexivity |]. cbn.
  intros H. apply andb_true_iff in H as [Ha Ht].
  destruct a; try discriminate; cbn; auto.
Qed.

Lemma withoutQueue_popHead apps :
  map withoutQueue (map popHead apps) = map withoutQueue apps.
Proof. rewrite map_map. apply map_ext. intros []; reflexivity. Qed.

Lemma flushNanoappEventQueues_loop_withoutQueue fuel : forall s s1,
  flushNanoappEventQueues_loop fuel s = Some s1 ->
  map withoutQueue (mNanoapps s1) = map withoutQueue (mNanoapps s).
Proof.
  induction fuel as [| fuel IH]; intros s s1; [discriminate |].
  cbn [flushNanoappEventQueues_loop].
  destruct (deliverEvents_spec s) as (Hn & _).
  destruct (deliverEvents s) as [[] s2]; cbn [fst snd] in *.
  - intros Hrun. apply IH in Hrun.
    rewrite Hrun, Hn, withoutQueue_popHead. reflexivity.
  - intros [= <-]. rewrite Hn, withoutQueue_popHead. reflexivity.
Qed.

Lemma withoutQueue_id apps :
  Forall (fun app => mEventQueue app = []) apps ->
  map withoutQueue apps = apps.
Proof.
  induction 1 as [| app apps Hq _ IH]; [reflexivity |].
  cbn. rewrite IH. f_equal. destruct app. cbn in Hq. subst. reflexivity.
Qed.

(** X16: [unloadNanoapp] looks for the first nanoapp with the instance id.
    Without one it returns false and changes nothing; for a system nanoapp
    that it is not allowed to unload it returns false and only logs an
    error. Otherwise it returns true, having emptied the queues of all
    nanoapps and then called the end entry point of the nanoapp, once and
    as the last thing done, in the context of that nanoapp; the nanoapp is
    gone from the list, the others are there in their order. *)
Theorem unloadNanoapp_outcome env posts instanceId allow s :
  match findIndexByInstanceId (mNanoapps s) instanceId 0 with
  | None =>
      (forall app, In app (mNanoapps s) -> getInstanceId app <> instanceId)
      /\ unloadNanoapp env posts instanceId allow s = Some (false, s)
  | Some (i, app) =>
      mNanoapps s !! i = Some app /\ getInstanceId app = instanceId
      /\ if negb allow && mIsSystemNanoapp app then
           unloadNanoapp env posts instanceId allow s
           = Some (false, emit LogError s)
         else
           exists s',
             unloadNanoapp env posts instanceId allow s = Some (true, s')
             /\ mNanoapps s' = delete i (map withoutQueue (mNanoapps s))
             /\ List.filter is_NanoappEnd (trace s')
                = List.filter is_NanoappEnd (trace s)
                  ++ [NanoappEnd (Some instanceId)]
             /\ last (trace s') = Some (NanoappEnd (Some instanceId))
  end.
Proof.
  unfold unloadNanoapp.
  pose proof (findIndexByInstanceId_spec (mNanoapps s) instanceId 0) as Hfind.
  destruct (findIndexByInstanceId (mNanoapps s) instanceId 0)
    as [[i app] |]; [| auto].
  destruct Hfind as (_ & Hl & Hid). rewrite Nat.sub_0_r in Hl.
  split; [exact Hl |]. split; [exact Hid |].
  destruct (negb allow && mIsSystemNanoapp app); [reflexivity |].
  destruct (flushMessagesSentByNanoapp_frame env posts s)
    as (Hn1 & _ & _ & _ & Ht1).
  set (s1 := flushMessagesSentByNanoapp env posts s) in *.
  destruct (flushInboundEventQueue_loop_spec (length (mEvents s1)) s1
              (Nat.le_refl _)) as (He2 & _ & _ & Hq2 & _ & t2 & Ht2 & Hd2).
  fold (flushInboundEventQueue s1) in *.
  set (s2 := flushInboundEventQueue s1) in *.
  destruct (flushNanoappEventQueues_loop_spec (S (pendingEvents s2)) s2)
    as (s3 & t3 & Hflush & Hempty & _ & He3 & Ht3 & Hd3); [lia |].
  pose proof (flushNanoappEventQueues_loop_withoutQueue _ _ _ Hflush) as Hw3.
  fold (flushNanoappEventQueues s2) in Hflush.
  cbv zeta. rewrite Hflush. cbn [mbind option_bind].
  assert (Happs3 : mNanoapps s3 = map withoutQueue (mNanoapps s)).
  { rewrite <- (withoutQueue_id _ Hempty), Hw3.
    rewrite (queueGrows_withoutQueue _ _ Hq2), Hn1. reflexivity. }
  assert (Hl3 : mNanoapps s3 !! i = Some (withoutQueue app)).
  { rewrite Happs3, list_lookup_fmap, Hl. reflexivity. }
  eexists. split; [reflexivity |].
  unfold unloadNanoappAtIndex. rewrite Hl3. cbn.
  unfold getInstanceId in Hid.
  rewrite Happs3, Ht3, Ht2, Hid.
  split; [reflexivity |]. split.
  - rewrite !List.filter_app, (drop_or_free_no_end _ Hd2),
      (delivery_no_end _ Hd3), Ht1, !app_nil_r. reflexivity.
  - apply last_snoc.
Qed.

(** *** An event from postEvent to its free callback *)

Lemma insert_alter_eq {A} (f : A -> A) (l : list A) i x :
  <[i := x]> (alter f i l) = <[i := x]> l.
Proof.
  revert i. induction l as [| y l IH]; intros [| i]; cbn; auto.
  f_equal. apply IH.
Qed.

Lemma insert_iter_alter_eq {A} (f : A -> A) n (l : list A) i x :
  <[i := x]> (Nat.iter n (alter f i) l) = <[i := x]> l.
Proof.
  induction n as [| n IH]; [reflexivity |]. cbn.
  rewrite insert_alter_eq. exact IH.
Qed.

Lemma map_insert_same {A B} (f : A -> B) (l : list A) i a b :
  l !! i = Some a -> f b = f a -> map f (<[i := b]> l) = map f l.
Proof.
  revert i. induction l as [| y l IH]; intros [| i]; cbn; try discriminate.
  - intros [= ->] ->. reflexivity.
  - intros Hl Hf. f_equal. apply IH; assumption.
Qed.

Lemma addRefs_0 e : addRefs 0 e = e.
Proof. destruct e. unfold addRefs. cbn. f_equal. lia. Qed.

(** The delivery of an event that is alone in the queue of the nanoapp at
    [index] and has [S k] references: the handler is called in the context
    of the nanoapp, and the event is freed if this was the last
    reference. *)
Lemma deliverNextEvent_single index s app event e k :
  mNanoapps s !! index = Some app ->
  mEventQueue app = [event] ->
  mEventPool s !! event = Some (Some (addRefs (S k) e)) ->
  mRefCount e = O ->
  let r := deliverNextEvent index s in
  fst r = false
  /\ mNanoapps (snd r) = <[index := setEventQueue [] app]> (mNanoapps s)
  /\ mEvents (snd r) = mEvents s
  /\ mCurrentApp (snd r) = None
  /\ trace (snd r)
     = trace s ++ [handlerCall e app]
       ++ (if (k =? 0)%nat then freeEventActions s e else [])
  /\ mEventPool (snd r)
     = <[event := if (k =? 0)%nat then None else Some (addRefs k e)]>
         (mEventPool s).
Proof.
  intros Happ Hq Hslot Hrefs.
  assert (Hlt : (index < length (mNanoapps s))%nat)
    by (eapply lookup_lt_Some, Happ).
  assert (Hplt : (event < length (mEventPool s))%nat)
    by (eapply lookup_lt_Some, Hslot).
  unfold deliverNextEvent, processNextEvent.
  cbn [mNanoapps set_current]. rewrite Happ, Hq.
  assert (Hd0 : deref (set_nanoapps
                         (<[index := setEventQueue [] app]> (mNanoapps s))
                         (set_current (getInstanceId <$> Some app) s)) event
                = Some (addRefs (S k) e)).
  { unfold deref. cbn. rewrite Hslot. reflexivity. }
  rewrite Hd0. cbv beta iota zeta.
  set (s1 := set_current None _).
  assert (Hpool1 : mEventPool s1
                   = <[event := Some (addRefs k e)]> (mEventPool s)).
  { unfold s1. cbn. apply list_eq. intros j.
    destruct (decide (j = event)) as [-> | Hne].
    - rewrite list_lookup_alter_eq, Hslot, list_lookup_insert_eq by exact Hplt.
      cbn. do 2 f_equal. destruct e. unfold addRefs, decrementRefCount. cbn.
      f_equal. lia.
    - rewrite list_lookup_alter_ne, list_lookup_insert_ne by auto.
      reflexivity. }
  assert (Hd1 : deref s1 event = Some (addRefs k e)).
  { unfold deref. rewrite Hpool1, list_lookup_insert_eq by exact Hplt.
    reflexivity. }
  assert (Hn1 : mNanoapps s1 = <[index := setEventQueue [] app]> (mNanoapps s))
    by reflexivity.
  assert (Ht1 : trace s1 = trace s ++ [handlerCall e app]) by reflexivity.
  assert (He1 : mEvents s1 = mEvents s) by reflexivity.
  assert (Hc1 : mCurrentApp s1 = None) by reflexivity.
  rewrite Hd1. unfold isUnreferenced. cbn [mRefCount addRefs]. rewrite Hrefs.
  cbn [Nat.add].
  assert (Hids : map getInstanceId (mNanoapps s1)
                 = map getInstanceId (mNanoapps s)).
  { rewrite Hn1. apply (map_insert_same _ _ _ _ _ Happ). reflexivity. }
  destruct (Nat.eqb_spec k 0) as [-> | Hk]; cbn [fst snd].
  - rewrite mNanoapps_freeEvent, mEvents_freeEvent, trace_freeEvent,
      mEventPool_freeEvent, Hd1, Hn1, He1, Ht1, Hpool1.
    rewrite list_lookup_insert_eq by exact Hlt.
    cbn. rewrite list_insert_insert_eq, addRefs_0, <- app_assoc.
    rewrite (freeEventActions_ids s1 s e Hids).
    repeat split; auto.
    apply mCurrentApp_freeEvent. exact Hc1.
  - rewrite Hn1, He1, Ht1, Hpool1, Hc1.
    rewrite list_lookup_insert_eq by exact Hlt.
    cbn. repeat split; auto.
Qed.

(** A round of [deliverEvents] right after [distributeEvent] gave an event
    to nanoapps whose queues were empty: the handlers of the recipients are
    called in the order of the list and the event is freed after the last
    of them. *)
Lemma deliverEvents_loop_after_distribute e event : forall todo done s have k,
  Forall (fun nanoapp => mEventQueue nanoapp = []) todo ->
  mNanoapps s = done ++ map (afterDistribute e event) todo ->
  k = length (List.filter (takesEvent e) todo) ->
  mRefCount e = O ->
  (k <> O -> mEventPool s !! event = Some (Some (addRefs k e))) ->
  let r := deliverEvents_loop (length todo) (length done) have s in
  fst r = have
  /\ mNanoapps (snd r) = done ++ todo
  /\ mEvents (snd r) = mEvents s
  /\ trace (snd r)
     = trace s ++ map (handlerCall e) (List.filter (takesEvent e) todo)
       ++ (if (k =? 0)%nat then [] else freeEventActions s e)
  /\ mEventPool (snd r)
     = (if (k =? 0)%nat then mEventPool s
        else <[event := None]> (mEventPool s))
  /\ (mCurrentApp s = None -> mCurrentApp (snd r) = None).
Proof.
  induction todo as [| nanoapp todo IH]; intros done s have k Hempty Happs Hk Hrefs
    Hslot.
  - cbn in *. subst k. cbn. rewrite !app_nil_r.
    rewrite app_nil_r in Happs. repeat split; auto.
  - apply Forall_cons in Hempty as [Hq Hempty].
    cbn [deliverEvents_loop length map] in *.
    assert (Hl : mNanoapps s !! length done = Some (afterDistribute e event nanoapp))
      by (rewrite Happs; apply list_lookup_middle; reflexivity).
    rewrite Hl. cbn [List.filter] in Hk |- *. unfold afterDistribute in Hl |- *.
    unfold afterDistribute in Happs at 1.
    destruct (takesEvent e nanoapp) eqn:Hrec.
    + rewrite Hq in *. cbn [app] in *.
      change (hasPendingEvent (setEventQueue [event] nanoapp)) with true.
      cbn iota. cbn [length] in Hk. destruct k as [| k']; [discriminate |].
      injection Hk as Hk.
      destruct (deliverNextEvent_single (length done) s
                  (setEventQueue [event] nanoapp) event e k' Hl eq_refl
                  (Hslot (Nat.neq_succ_0 _)) Hrefs)
        as (Hf1 & Hn1 & He1 & Hc1 & Ht1 & Hp1).
      destruct (deliverNextEvent (length done) s) as [pending s1].
      cbn [fst snd] in *. subst pending. rewrite orb_false_r.
      assert (Happ_id : setEventQueue [] (setEventQueue [event] nanoapp) = nanoapp).
      { destruct nanoapp. cbn in Hq. subst. reflexivity. }
      rewrite Happ_id in Hn1.
      assert (Happs1 : mNanoapps s1
                       = (done ++ [nanoapp]) ++ map (afterDistribute e event) todo).
      { rewrite Hn1, Happs, insert_app_r_alt by lia.
        rewrite Nat.sub_diag, <- app_assoc. reflexivity. }
      assert (Hids : map getInstanceId (mNanoapps s1)
                     = map getInstanceId (mNanoapps s)).
      { rewrite Hn1. apply (map_insert_same _ _ _ _ _ Hl). reflexivity. }
      assert (Hslot1 : k' <> O ->
                       mEventPool s1 !! event = Some (Some (addRefs k' e))).
      { intros Hk'. rewrite Hp1.
        destruct (Nat.eqb_spec k' 0) as [| _]; [contradiction |].
        apply list_lookup_insert_eq. eapply lookup_lt_Some.
        apply (Hslot (Nat.neq_succ_0 _)). }
      specialize (IH (done ++ [nanoapp]) s1 have k' Hempty Happs1 Hk Hrefs Hslot1).
      rewrite length_app in IH. cbn [length] in IH.
      rewrite Nat.add_1_r in IH. cbv zeta in IH.
      destruct IH as (Hf2 & Hn2 & He2 & Ht2 & Hp2 & Hc2).
      cbv zeta. rewrite Hf2, Hn2, He2, Ht2, Hp2, He1, Ht1, Hp1, <- !app_assoc.
      cbn [Nat.eqb app map].
      split; [reflexivity |]. split; [reflexivity |]. split; [reflexivity |].
      change (handlerCall e (setEventQueue [event] nanoapp))
        with (handlerCall e nanoapp).
      destruct (Nat.eqb_spec k' 0) as [Hz | Hnz].
      * assert (Hnone : List.filter (takesEvent e) todo = []).
        { apply length_zero_iff_nil. congruence. }
        rewrite Hnone. cbn. rewrite app_nil_r. auto.
      * rewrite (freeEventActions_ids s1 s e Hids), list_insert_insert_eq.
        cbn. auto.
    + assert (Hp : hasPendingEvent nanoapp = false)
        by (unfold hasPendingEvent; rewrite Hq; reflexivity).
      rewrite Hp.
      assert (Happs1 : mNanoapps s
                       = (done ++ [nanoapp]) ++ map (afterDistribute e event) todo)
        by (rewrite <- app_assoc; exact Happs).
      specialize (IH (done ++ [nanoapp]) s have k Hempty Happs1 Hk Hrefs Hslot).
      rewrite length_app in IH. cbn [length] in IH.
      rewrite Nat.add_1_r in IH. cbv zeta in IH.
      rewrite <- app_assoc in IH. exact IH.
Qed.

(** X17: an event posted to a running loop in which no event is waiting,
    followed by one pass of the main loop. The post succeeds when the pool
    has a free block and the inbound queue and the queues of the nanoapps
    have room; the pass then calls the handler of every recipient once, in
    the order of the nanoapps and in the context of the recipient (or,
    without recipient, logs the drop unless the sender is the SYSTEM
    instance), and after that frees the event, calling its free callback
    once. The pass reports that no nanoapp has an event pending, and the
    nanoapps and their queues are as before. *)
Theorem post_then_iterate env p s event
    (Hrunning : mRunning s = true) (Hidle : idle s)
    (Hfree : first_free (mEventPool s) = Some event)
    (Hroom : (0 < kMaxUnscheduledEventCount env)%nat)
    (Hcap : Forall (fun app => (0 < mEventQueueCapacity app)%nat)
                   (mNanoapps s)) :
  let e := eventOf p in
  let recipients := List.filter (isRecipient e) (mNanoapps s) in
  exists s1 s2,
    post env p s = (true, s1)
    /\ (forall havePendingEvents,
          run_iteration havePendingEvents s1 = Some (false, s2))
    /\ mNanoapps s2 = mNanoapps s
    /\ trace s2
       = trace s
         ++ match recipients with
            | [] => if postedSender p =? kSystemInstanceId then []
                    else [LogDroppingEvent (postedType p)]
            | _ :: _ => map (handlerCall e) recipients
            end
         ++ freeEventActions s e.
Proof.
  intros e recipients. destruct Hidle as [Hev Hq].
  assert (Htakes : List.filter (takesEvent e) (mNanoapps s)
                   = List.filter (isRecipient e) (mNanoapps s)).
  { apply takesEvent_recipients. apply Forall_forall. intros nanoapp Hin.
    apply list_elem_of_In, List.filter_In in Hin as [Hin _].
    apply list_elem_of_In in Hin. rewrite Forall_forall in Hq, Hcap.
    unfold hasRoom. rewrite (Hq nanoapp Hin). apply Nat.ltb_lt, Hcap, Hin. }
  fold recipients in Htakes.
  pose proof (first_free_Some _ _ Hfree) as Hslot.
  assert (Hplt : (event < length (mEventPool s))%nat)
    by (eapply lookup_lt_Some, Hslot).
  set (pool1 := <[event := Some e]> (mEventPool s)).
  set (s1 := set_events [event] (set_pool pool1 s)).
  assert (Hpost : post env p s = (true, s1)).
  { unfold post, postEvent, allocate. rewrite Hrunning, Hfree.
    cbv beta iota zeta. cbn [mEvents set_pool]. rewrite Hev. cbn [length].
    destruct (Nat.ltb_spec 0 (kMaxUnscheduledEventCount env)); [| lia].
    reflexivity. }
  set (s1' := set_events [] s1).
  assert (Hiter : forall have,
             run_iteration have s1
             = Some (deliverEvents (distributeEvent event s1')))
    by (intros [|]; reflexivity).
  assert (Hrefs : mRefCount e = O) by reflexivity.
  assert (Hd1 : deref s1' event = Some e).
  { unfold deref. cbn. unfold pool1.
    rewrite list_lookup_insert_eq by exact Hplt. reflexivity. }
  pose proof (distributeToNanoapps_apps e event (mNanoapps s) pool1) as Happs.
  pose proof (distributeToNanoapps_pool e event (mNanoapps s) pool1) as Hpool.
  rewrite Htakes in Hpool.
  assert (Hslot1 : pool1 !! event = Some (Some e)).
  { unfold pool1. apply list_lookup_insert_eq, Hplt. }
  pose proof (iter_increment_lookup (length recipients) event _ _ Hslot1)
    as Hafter.
  set (sd := distributeEvent event s1').
  assert (Hsd : mNanoapps sd = map (afterDistribute e event) (mNanoapps s)
                /\ mEvents sd = []
                /\ (length recipients <> O ->
                    mEventPool sd !! event
                    = Some (Some (addRefs (length recipients) e)))
                /\ trace sd
                   = trace s
                     ++ match recipients with
                        | [] => (if postedSender p =? kSystemInstanceId then []
                                 else [LogDroppingEvent (postedType p)])
                                ++ freeEventActions s e
                        | _ :: _ => []
                        end
                /\ mEventPool sd
                   = match recipients with
                     | [] => mEventPool s
                     | _ :: _ =>
                       Nat.iter (length recipients)
                                (alter (fmap incrementRefCount) event) pool1
                     end).
  { unfold sd, distributeEvent. rewrite Hd1.
    change (mNanoapps s1') with (mNanoapps s).
    change (mEventPool s1') with pool1.
    destruct (distributeToNanoapps e event (mNanoapps s) pool1)
      as [apps pool]. cbn [fst snd] in Happs, Hpool. subst apps.
    assert (Hd2 : deref (set_pool pool
                           (set_nanoapps
                              (map (afterDistribute e event) (mNanoapps s))
                              s1')) event
                  = Some (addRefs (length recipients) e)).
    { apply deref_Some. cbn. rewrite Hpool. exact Hafter. }
    rewrite Hd2. unfold isUnreferenced. cbn [mRefCount addRefs eventOf e].
    cbn [Nat.add].
    destruct recipients as [| r recipients'] eqn:Hrecs; cbn [length Nat.eqb].
    - rewrite mNanoapps_freeEvent, mEvents_freeEvent, trace_freeEvent,
        mEventPool_freeEvent.
      cbn [Nat.iter length] in Hpool. subst pool.
      assert (Hnone : map (afterDistribute e event) (mNanoapps s)
                      = mNanoapps s).
      { apply map_afterDistribute_none. rewrite Htakes. reflexivity. }
      rewrite addRefs_0 in Hd2 |- *. cbn [Nat.iter] in Hd2 |- *.
      change (senderInstanceId e) with (postedSender p).
      change (eventType e) with (postedType p).
      destruct (postedSender p =? kSystemInstanceId); cbn [negb].
      + rewrite Hd2. cbn. rewrite Hnone.
        split; [reflexivity |]. split; [reflexivity |].
        split; [congruence |]. split; [reflexivity |].
        unfold pool1. rewrite list_insert_insert_eq.
        apply list_insert_id, Hslot.
      + match goal with
        | |- context [deref (emit ?a ?st) event] =>
          assert (Hd3 : deref (emit a st) event = Some e) by exact Hd2;
          rewrite Hd3
        end. cbn. rewrite Hnone, <- app_assoc.
        split; [reflexivity |]. split; [reflexivity |].
        split; [congruence |]. split; [reflexivity |].
        unfold pool1. rewrite list_insert_insert_eq.
        apply list_insert_id, Hslot.
    - cbn. rewrite app_nil_r, Hpool.
      split; [reflexivity |]. split; [reflexivity |].
      split; [intros _; exact Hafter |]. split; reflexivity. }
  destruct Hsd as (Hnd & Hed & Hslotd & Htd & Hpd).
  destruct (deliverEvents_loop_after_distribute e event (mNanoapps s) [] sd
              false (length recipients) Hq Hnd
              (eq_sym (f_equal length Htakes)) Hrefs Hslotd)
    as (Hf & Hn & He & Ht & Hp & _).
  rewrite Htakes in Ht.
  assert (Hlen : length (mNanoapps sd) = length (mNanoapps s))
    by (rewrite Hnd; apply length_map).
  cbn [length] in Hf, Hn, He, Ht, Hp. rewrite <- Hlen in Hf, Hn, He, Ht, Hp.
  fold (deliverEvents sd) in Hf, Hn, He, Ht, Hp.
  exists s1, (snd (deliverEvents sd)).
  split; [exact Hpost |]. split.
  { intros have. rewrite Hiter. fold sd. rewrite <- Hf. destruct (deliverEvents sd).
    reflexivity. }
  split; [exact Hn |].
  assert (Hids : map getInstanceId (mNanoapps sd)
                 = map getInstanceId (mNanoapps s)).
  { rewrite Hnd, map_map. apply map_ext. intros a. unfold afterDistribute.
    destruct (takesEvent e a); reflexivity. }
  rewrite Ht, Htd. clear Htakes.
  destruct recipients as [| r recipients']; cbn [length Nat.eqb].
  - cbn. rewrite !app_nil_r. reflexivity.
  - rewrite app_nil_r, (freeEventActions_ids sd s e Hids). reflexivity.
Qed.

(** An instance: two nanoapps, the first registered for events of type
    0x100, and a broadcast of that type by the second. *)
Lemma post_then_iterate_witness :
  let env := mkEnv 4 (fun _ => true) in
  let p := mkPostedEvent 256 7 (Some 42) 2 kBroadcastInstanceId in
  let s := mkEventLoop true
             [mkNanoapp 1000 1 false true [256] [] 4;
              mkNanoapp 2000 2 false true [] [] 4]
             [] [None; None] None 2 [] in
  (mRunning s = true /\ idle s /\ first_free (mEventPool s) = Some O
   /\ (0 < kMaxUnscheduledEventCount env)%nat
   /\ Forall (fun app => (0 < mEventQueueCapacity app)%nat) (mNanoapps s))
  /\ exists s1 s2,
       post env p s = (true, s1)
       /\ run_iteration false s1 = Some (false, s2)
       /\ trace s2 = [NanoappHandleEvent (Some 1) 2 256 7;
                      FreeCallback (Some 2) 42 256 7].
Proof.
  intros env p s.
  assert (Hidle : idle s) by (split; [reflexivity | repeat constructor]).
  assert (Hroom : (0 < kMaxUnscheduledEventCount env)%nat) by (cbn; lia).
  assert (Hcap : Forall (fun app => (0 < mEventQueueCapacity app)%nat)
                        (mNanoapps s)) by (repeat constructor).
  split.
  { split; [reflexivity |]. split; [exact Hidle |].
    split; [reflexivity |]. split; [exact Hroom | exact Hcap]. }
  destruct (post_then_iterate env p s O eq_refl Hidle eq_refl Hroom Hcap)
    as (s1 & s2 & Hpost & Hiter & _ & Htrace).
  exists s1, s2. split; [exact Hpost |]. split; [exact (Hiter false) |].
  exact Htrace.
Defined.

(** *** What every sequence of calls preserves *)

Lemma mCurrentApp_deliverNextEvent index s :
  mCurrentApp (snd (deliverNextEvent index s)) = None.
Proof.
  unfold deliverNextEvent.
  destruct (processNextEvent index _) as [[event |] s1]; cbn [snd];
    [| reflexivity].
  destruct (deref (set_current None s1) event) as [e |]; [| reflexivity].
  destruct (isUnreferenced e); [| reflexivity].
  apply mCurrentApp_freeEvent. reflexivity.
Qed.

Lemma mCurrentApp_deliverEvents_loop count : forall index have s,
  mCurrentApp s = None ->
  mCurrentApp (snd (deliverEvents_loop count index have s)) = None.
Proof.
  induction count as [| count IH]; intros index have s Hcur; simpl;
    [exact Hcur |].
  destruct (mNanoapps s !! index) as [nanoapp |]; [| exact Hcur].
  destruct (hasPendingEvent nanoapp); [| apply IH, Hcur].
  pose proof (mCurrentApp_deliverNextEvent index s) as Hnext.
  destruct (deliverNextEvent index s) as [pending s1]. apply IH, Hnext.
Qed.

Lemma flushNanoappEventQueues_loop_current fuel : forall s s1,
  flushNanoappEventQueues_loop fuel s = Some s1 ->
  mCurrentApp s = None -> mCurrentApp s1 = None.
Proof.
  induction fuel as [| fuel IH]; intros s s1; simpl; [discriminate |].
  pose proof (mCurrentApp_deliverEvents_loop (length (mNanoapps s)) 0 false s)
    as Hdeliver.
  fold (deliverEvents s) in Hdeliver.
  destruct (deliverEvents s) as [[|] s2]; cbn [snd] in Hdeliver.
  - intros Hloop Hcur. eapply IH; [exact Hloop | apply Hdeliver, Hcur].
  - intros [= <-]. exact Hdeliver.
Qed.

Lemma map_getAppId_withoutQueue apps apps' :
  map withoutQueue apps' = map withoutQueue apps ->
  map getAppId apps' = map getAppId apps.
Proof.
  intros H. apply (f_equal (map getAppId)) in H. rewrite !map_map in H.
  exact H.
Qed.

Lemma find_appId_None apps appId :
  List.find (fun app => getAppId app =? appId) apps = None ->
  ~ In appId (map getAppId apps).
Proof.
  induction apps as [| nanoapp apps IH]; simpl; [tauto |].
  destruct (Z.eqb_spec (getAppId nanoapp) appId); [discriminate |].
  intros Hfind [Heq | Hin]; [congruence | exact (IH Hfind Hin)].
Qed.

Lemma NoDup_map_delete {A B} (f : A -> B) (l : list A) i :
  NoDup (map f l) -> NoDup (map f (delete i l)).
Proof.
  revert i. induction l as [| x l IH]; intros i Hnd; [destruct i; exact Hnd |].
  simpl in Hnd. apply NoDup_cons in Hnd as [Hx Hnd].
  destruct i as [| i]; simpl; [exact Hnd |].
  apply NoDup_cons. split; [| apply IH, Hnd].
  intros Hin. apply Hx. apply list_elem_of_In in Hin. apply list_elem_of_In.
  apply in_map_iff in Hin as (y & Hy & Hin). rewrite <- Hy. apply in_map.
  apply list_elem_of_In. eapply list_elem_of_delete_inv.
  apply list_elem_of_In. exact Hin.
Qed.

Lemma loopStep_invariant env op s :
  NoDup (map getAppId (mNanoapps s)) /\ mCurrentApp s = None ->
  NoDup (map getAppId (mNanoapps (loopStep env s op)))
  /\ mCurrentApp (loopStep env s op) = None.
Proof.
  intros [Hnd Hcur].
  destruct op as [p | nanoapp | | | posts instanceId allow |]; cbn [loopStep].
  - destruct (postEvent_frame env (postedType p) (postedData p)
                (postedFreeCallback p) (postedSender p) (postedTarget p) s)
      as (Hn & Hc & _).
    unfold post. rewrite Hn, Hc. split; assumption.
  - unfold startNanoapp. destruct nanoapp as [nanoapp |]; [| split; assumption].
    unfold findNanoappInstanceIdByAppId.
    destruct (List.find _ (mNanoapps s)) as [existing |] eqn:Hfind;
      [split; assumption |]. cbn [fmap option_fmap option_map].
    destruct (nanoappsCanGrow env _); cbn [negb]; [| split; assumption].
    cbn. destruct (startResult nanoapp); cbn.
    + split; [| reflexivity]. rewrite map_app. apply NoDup_app.
      split; [exact Hnd |]. split; [| apply NoDup_singleton].
      intros x Hx Hx'. apply list_elem_of_singleton in Hx'. subst x.
      apply list_elem_of_In in Hx. exact (find_appId_None _ _ Hfind Hx).
    + split; [| reflexivity]. rewrite length_app. cbn [length].
      replace (length (mNanoapps s) + 1 - 1)%nat with (length (mNanoapps s))
        by lia.
      rewrite take_app_length. exact Hnd.
  - destruct (mEvents s) as [| event rest]; [split; assumption |].
    destruct (distributeEvent_frame event (set_events rest s))
      as (_ & _ & _ & Hgrow & Hc & _).
    split; [| apply Hc, Hcur].
    rewrite (map_getAppId_withoutQueue _ _ (queueGrows_withoutQueue _ _ Hgrow)).
    exact Hnd.
  - destruct (deliverEvents_spec s) as (Hn & _). split.
    + rewrite Hn.
      rewrite (map_getAppId_withoutQueue _ _ (withoutQueue_popHead _)).
      exact Hnd.
    + apply mCurrentApp_deliverEvents_loop, Hcur.
  - unfold unloadNanoapp.
    destruct (findIndexByInstanceId (mNanoapps s) instanceId 0)
      as [[i nanoapp] |]; [| split; assumption].
    destruct (negb allow && mIsSystemNanoapp nanoapp); [split; assumption |].
    destruct (flushMessagesSentByNanoapp_frame env posts s)
      as (Hn1 & Hc1 & _).
    set (s1 := flushMessagesSentByNanoapp env posts s) in *.
    destruct (flushInboundEventQueue_loop_spec (length (mEvents s1)) s1
                (Nat.le_refl _)) as (_ & _ & _ & Hgrow & Hc2 & _).
    fold (flushInboundEventQueue s1) in Hgrow, Hc2.
    set (s2 := flushInboundEventQueue s1) in *.
    cbn [mbind option_bind].
    destruct (flushNanoappEventQueues s2) as [s3 |] eqn:Hflush;
      cbn [mbind option_bind]; [| split; assumption].
    pose proof (flushNanoappEventQueues_loop_withoutQueue _ _ _ Hflush) as Hn3.
    pose proof (flushNanoappEventQueues_loop_current _ _ _ Hflush) as Hc3.
    assert (Hnd3 : NoDup (map getAppId (mNanoapps s3))).
    { rewrite (map_getAppId_withoutQueue _ _ Hn3).
      rewrite (map_getAppId_withoutQueue _ _
                 (queueGrows_withoutQueue _ _ Hgrow)).
      rewrite Hn1. exact Hnd. }
    assert (Hcur3 : mCurrentApp s3 = None).
    { apply Hc3, Hc2. rewrite Hc1. exact Hcur. }
    unfold unloadNanoappAtIndex.
    destruct (mNanoapps s3 !! i); [| split; assumption]. cbn.
    split; [apply NoDup_map_delete, Hnd3 | reflexivity].
  - unfold stop.
    destruct (postEvent_frame env 0 0 None kSystemInstanceId kSystemInstanceId
                s) as (Hn & Hc & _).
    destruct (postEvent env 0 0 None kSystemInstanceId kSystemInstanceId s)
      as [ok s1]. cbn [snd] in Hn, Hc. cbn. rewrite Hn, Hc. split; assumption.
Qed.

(** X18: whatever calls the event loop receives, and in whatever order
    (events posted, nanoapps started and unloaded, inbound events
    distributed, events delivered, the loop stopped), no two nanoapps of
    its list have the same app id, and between two calls no nanoapp is the
    current one. *)
Theorem loaded_app_ids_distinct env ops running blocks :
  let s := runOps env ops (newEventLoop running blocks) in
  NoDup (map getAppId (mNanoapps s)) /\ mCurrentApp s = None.
Proof.
  cbv zeta. unfold runOps.
  assert (Hinit : NoDup (map getAppId (mNanoapps (newEventLoop running blocks)))
                  /\ mCurrentApp (newEventLoop running blocks) = None)
    by (split; [apply NoDup_nil_2 | reflexivity]).
  revert Hinit. generalize (newEventLoop running blocks).
  induction ops as [| op ops IH]; intros s Hinv; [exact Hinv |].
  cbn [foldl]. apply IH, loopStep_invariant, Hinv.
Qed.

(** *** After stop *)

Lemma mRunning_deliverNextEvent index s :
  mRunning (snd (deliverNextEvent index s)) = mRunning s.
Proof.
  unfold deliverNextEvent.
  destruct (processNextEvent index _) as [event s1] eqn:Hprocess.
  assert (Hs1 : mRunning s1 = mRunning s).
  { unfold processNextEvent in Hprocess. cbn in Hprocess.
    destruct (mNanoapps s !! index) as [nanoapp |];
      [destruct (mEventQueue nanoapp) as [| head rest] |];
      try (injection Hprocess as <- <-; reflexivity).
    injection Hprocess as <- <-. cbn.
    destruct (deref _ head); reflexivity. }
  cbn [snd]. destruct event as [event |]; [| exact Hs1].
  destruct (deref (set_current None s1) event) as [e |]; [| exact Hs1].
  destruct (isUnreferenced e); [| exact Hs1].
  rewrite mRunning_freeEvent. exact Hs1.
Qed.

Lemma mRunning_deliverEvents_loop count : forall index have s,
  mRunning (snd (deliverEvents_loop count index have s)) = mRunning s.
Proof.
  induction count as [| count IH]; intros index have s; simpl; [reflexivity |].
  destruct (mNanoapps s !! index) as [nanoapp |]; [| reflexivity].
  destruct (hasPendingEvent nanoapp); [| apply IH].
  pose proof (mRunning_deliverNextEvent index s) as Hnext.
  destruct (deliverNextEvent index s) as [pending s1]. rewrite IH.
  exact Hnext.
Qed.

Lemma flushNanoappEventQueues_loop_running fuel : forall s s1,
  flushNanoappEventQueues_loop fuel s = Some s1 -> mRunning s1 = mRunning s.
Proof.
  induction fuel as [| fuel IH]; intros s s1; simpl; [discriminate |].
  pose proof (mRunning_deliverEvents_loop (length (mNanoapps s)) 0 false s)
    as Hdeliver.
  fold (deliverEvents s) in Hdeliver.
  destruct (deliverEvents s) as [[|] s2]; cbn [snd] in Hdeliver.
  - intros Hloop. rewrite (IH _ _ Hloop). exact Hdeliver.
  - intros [= <-]. exact Hdeliver.
Qed.

Lemma mRunning_startNanoapp env nanoapp s :
  mRunning (snd (startNanoapp env nanoapp s)) = mRunning s.
Proof.
  unfold startNanoapp. destruct nanoapp as [nanoapp |]; [| reflexivity].
  destruct (findNanoappInstanceIdByAppId s (getAppId nanoapp));
    [reflexivity |].
  destruct (nanoappsCanGrow env _); cbn [negb]; [| reflexivity].
  cbn. destruct (startResult nanoapp); reflexivity.
Qed.

Lemma loopStep_running env op s :
  mRunning (loopStep env s op)
  = match op with OpStop => false | _ => mRunning s end.
Proof.
  destruct op as [p | nanoapp | | | posts instanceId allow |]; cbn [loopStep].
  - apply postEvent_frame.
  - apply mRunning_startNanoapp.
  - destruct (mEvents s) as [| event rest]; [reflexivity |].
    apply (distributeEvent_frame event (set_events rest s)).
  - apply mRunning_deliverEvents_loop.
  - unfold unloadNanoapp.
    destruct (findIndexByInstanceId (mNanoapps s) instanceId 0)
      as [[i nanoapp] |]; [| reflexivity].
    destruct (negb allow && mIsSystemNanoapp nanoapp); [reflexivity |].
    destruct (flushMessagesSentByNanoapp_frame env posts s)
      as (_ & _ & Hr1 & _).
    set (s1 := flushMessagesSentByNanoapp env posts s) in *.
    destruct (flushInboundEventQueue_loop_spec (length (mEvents s1)) s1
                (Nat.le_refl _)) as (_ & Hr2 & _).
    fold (flushInboundEventQueue s1) in Hr2.
    set (s2 := flushInboundEventQueue s1) in *.
    destruct (flushNanoappEventQueues s2) as [s3 |] eqn:Hflush;
      cbn [mbind option_bind]; [| reflexivity].
    apply flushNanoappEventQueues_loop_running in Hflush.
    unfold unloadNanoappAtIndex.
    destruct (mNanoapps s3 !! i); cbn; congruence.
  - unfold stop.
    destruct (postEvent env 0 0 None kSystemInstanceId kSystemInstanceId s).
    reflexivity.
Qed.

(** X19: [stop] is final. Whatever calls follow it (events posted, nanoapps
    started and unloaded, events distributed and delivered), the running
    flag stays cleared: [currentNanoappIsStopping] answers true for every
    nanoapp, and [postEvent] returns false and leaves pool and queues as
    they are. *)
Theorem stop_is_final env ops s :
  let s' := runOps env ops (stop env s) in
  mRunning s' = false
  /\ (forall mStoppingNanoapp,
        currentNanoappIsStopping mStoppingNanoapp s' = true)
  /\ (forall p, post env p s' = (false, s')).
Proof.
  cbv zeta.
  assert (Hstopped : mRunning (runOps env ops (stop env s)) = false).
  { assert (Hinit : mRunning (stop env s) = false).
    { unfold stop.
      destruct (postEvent env 0 0 None kSystemInstanceId kSystemInstanceId s).
      reflexivity. }
    revert Hinit. generalize (stop env s). unfold runOps.
    induction ops as [| op ops IH]; intros s0 Hs0; [exact Hs0 |].
    cbn [foldl]. apply IH. rewrite loopStep_running.
    destruct op; [exact Hs0 .. | reflexivity]. }
  split; [exact Hstopped |]. split.
  - intros mStoppingNanoapp. unfold currentNanoappIsStopping.
    rewrite Hstopped. apply orb_true_r.
  - intros p. unfold post, postEvent. rewrite Hstopped. reflexivity.
Qed.

(** *** The pointers of the loop and the blocks of the pool *)

Lemma countQueued_app apps apps' event :
  countQueued (apps ++ apps') event
  = (countQueued apps event + countQueued apps' event)%nat.
Proof.
  unfold countQueued, queuedEvents.
  rewrite flat_map_app, List.filter_app, length_app. reflexivity.
Qed.

Lemma countQueued_0 apps event :
  countQueued apps event = O <-> ~ In event (queuedEvents apps).
Proof.
  unfold countQueued. generalize (queuedEvents apps). intros l.
  induction l as [| x l IH]; cbn; [tauto |].
  destruct (Nat.eqb_spec event x) as [-> | Hne]; cbn.
  - split; [discriminate | intros H; exfalso; apply H; left; reflexivity].
  - rewrite IH. split; [intros H [Hx | Hin]; auto | tauto].
Qed.

Lemma countQueued_afterDistribute e event apps other :
  countQueued (map (afterDistribute e event) apps) other
  = (countQueued apps other
     + if (other =? event)%nat
       then length (List.filter (takesEvent e) apps) else 0)%nat.
Proof.
  induction apps as [| nanoapp apps IH].
  - cbn. destruct (other =? event)%nat; reflexivity.
  - change (nanoapp :: apps) with ([nanoapp] ++ apps).
    rewrite map_app, !countQueued_app, IH, List.filter_app, length_app.
    assert (Hone : countQueued (map (afterDistribute e event) [nanoapp]) other
                   = (countQueued [nanoapp] other
                      + if (other =? event)%nat
                        then length (List.filter (takesEvent e) [nanoapp])
                        else 0)%nat).
    { unfold countQueued, queuedEvents, afterDistribute. cbn [map flat_map
        List.filter]. rewrite !app_nil_r.
      destruct (takesEvent e nanoapp); cbn [mEventQueue setEventQueue length].
      - rewrite List.filter_app, length_app. cbn [List.filter].
        destruct (other =? event)%nat; reflexivity.
      - destruct (other =? event)%nat; lia. }
    rewrite Hone. destruct (other =? event)%nat; lia.
Qed.

Lemma countQueued_single nanoapp event :
  countQueued [nanoapp] event
  = length (List.filter (Nat.eqb event) (mEventQueue nanoapp)).
Proof.
  unfold countQueued, queuedEvents. cbn. rewrite app_nil_r. reflexivity.
Qed.

Lemma countQueued_insert apps i nanoapp queue other :
  apps !! i = Some nanoapp ->
  (countQueued (<[i := setEventQueue queue nanoapp]> apps) other
   + length (List.filter (Nat.eqb other) (mEventQueue nanoapp)))%nat
  = (countQueued apps other + length (List.filter (Nat.eqb other) queue))%nat.
Proof.
  revert i. induction apps as [| a apps IH]; intros [| i] Hl;
    try discriminate.
  - injection Hl as ->. cbn [insert list_insert].
    change (?x :: apps) with ([x] ++ apps).
    rewrite !countQueued_app, !countQueued_single.
    cbn [mEventQueue setEventQueue]. lia.
  - cbn in Hl. specialize (IH i Hl).
    change (<[S i := setEventQueue queue nanoapp]> (a :: apps))
      with ([a] ++ <[i := setEventQueue queue nanoapp]> apps).
    change (a :: apps) with ([a] ++ apps). rewrite !countQueued_app. lia.
Qed.

Lemma queuedEvents_insert apps i nanoapp queue event :
  apps !! i = Some nanoapp ->
  In event (queuedEvents (<[i := setEventQueue queue nanoapp]> apps)) ->
  In event (queuedEvents apps) \/ In event queue.
Proof.
  revert i. induction apps as [| a apps IH]; intros [| i] Hl;
    try discriminate.
  - injection Hl as ->. unfold queuedEvents. cbn. rewrite !in_app_iff.
    tauto.
  - cbn in Hl. unfold queuedEvents in *. cbn. rewrite !in_app_iff.
    intros [H | H]; [tauto |]. destruct (IH i Hl H); tauto.
Qed.

Lemma queuedEvents_lookup apps i nanoapp event :
  apps !! i = Some nanoapp -> In event (mEventQueue nanoapp) ->
  In event (queuedEvents apps).
Proof.
  intros Hl Hin. unfold queuedEvents. apply in_flat_map.
  exists nanoapp. split; [| exact Hin].
  apply list_elem_of_In. eapply list_elem_of_lookup_2, Hl.
Qed.

Lemma queuedEvents_empty apps :
  Forall (fun app => mEventQueue app = []) apps -> queuedEvents apps = [].
Proof.
  induction 1 as [| a apps Ha _ IH]; [reflexivity |].
  unfold queuedEvents in *. cbn. rewrite Ha, IH. reflexivity.
Qed.

Lemma deliverNextEvent_pool index s app event rest e :
  mNanoapps s !! index = Some app ->
  mEventQueue app = event :: rest ->
  mEventPool s !! event = Some (Some e) ->
  let r := deliverNextEvent index s in
  mNanoapps (snd r) = <[index := setEventQueue rest app]> (mNanoapps s)
  /\ mEvents (snd r) = mEvents s
  /\ mEventPool (snd r)
     = <[event := if (Nat.pred (mRefCount e) =? 0)%nat then None
                  else Some (decrementRefCount e)]> (mEventPool s).
Proof.
  intros Happ Hq Hslot.
  assert (Hplt : (event < length (mEventPool s))%nat)
    by (eapply lookup_lt_Some, Hslot).
  unfold deliverNextEvent, processNextEvent.
  cbn [mNanoapps set_current]. rewrite Happ, Hq.
  assert (Hd0 : deref (set_nanoapps
                         (<[index := setEventQueue rest app]> (mNanoapps s))
                         (set_current (getInstanceId <$> Some app) s)) event
                = Some e).
  { unfold deref. cbn. rewrite Hslot. reflexivity. }
  rewrite Hd0. cbv beta iota zeta.
  set (s1 := set_current None _).
  assert (Hpool1 : mEventPool s1
                   = <[event := Some (decrementRefCount e)]> (mEventPool s)).
  { unfold s1. cbn. apply list_eq. intros j.
    destruct (decide (j = event)) as [-> | Hne].
    - rewrite list_lookup_alter_eq, Hslot, list_lookup_insert_eq by exact Hplt.
      reflexivity.
    - rewrite list_lookup_alter_ne, list_lookup_insert_ne by auto.
      reflexivity. }
  assert (Hd1 : deref s1 event = Some (decrementRefCount e)).
  { unfold deref. rewrite Hpool1, list_lookup_insert_eq by exact Hplt.
    reflexivity. }
  assert (Hn1 : mNanoapps s1
                = <[index := setEventQueue rest app]> (mNanoapps s))
    by reflexivity.
  assert (He1 : mEvents s1 = mEvents s) by reflexivity.
  rewrite Hd1. unfold isUnreferenced. cbn [mRefCount decrementRefCount].
  destruct (Nat.pred (mRefCount e) =? 0)%nat; cbn [fst snd].
  - rewrite mNanoapps_freeEvent, mEvents_freeEvent, mEventPool_freeEvent,
      Hd1, Hpool1, list_insert_insert_eq.
    split; [exact Hn1 |]. split; [exact He1 | reflexivity].
  - split; [exact Hn1 |]. split; [exact He1 | exact Hpool1].
Qed.

Lemma lookup_iter_alter_ne {A} (f : A -> A) n (l : list A) i j :
  i <> j -> Nat.iter n (alter f i) l !! j = l !! j.
Proof.
  intros Hne. induction n as [| n IH]; [reflexivity |]. cbn.
  rewrite list_lookup_alter_ne by exact Hne. exact IH.
Qed.

Lemma length_iter_alter {A} (f : A -> A) n (l : list A) i :
  length (Nat.iter n (alter f i) l) = length l.
Proof.
  induction n as [| n IH]; [reflexivity |]. cbn.
  rewrite length_alter. exact IH.
Qed.

Lemma eventsAccounted_queues apps apps' events pool :
  queuedEvents apps' = queuedEvents apps ->
  eventsAccounted apps events pool -> eventsAccounted apps' events pool.
Proof.
  intros Hq (Hnd & Hin & Hqu & Hrc). unfold eventsAccounted, countQueued.
  rewrite Hq. split; [exact Hnd |]. split; [exact Hin |].
  split; [exact Hqu | exact Hrc].
Qed.

(** A block taken from the pool for a new event, which is then pushed to
    the inbound queue or not. *)
Lemma eventsAccounted_allocate apps events pool event e :
  eventsAccounted apps events pool ->
  pool !! event = Some None -> mRefCount e = O ->
  eventsAccounted apps events (<[event := Some e]> pool)
  /\ eventsAccounted apps (events ++ [event]) (<[event := Some e]> pool).
Proof.
  intros (Hnd & Hin & Hqu & Hrc) Hslot Hrefs.
  assert (Hlt : (event < length pool)%nat) by (eapply lookup_lt_Some, Hslot).
  assert (Hfree : forall other, is_Some (mjoin (pool !! other)) ->
                                other <> event).
  { intros other [x Hx] ->. rewrite Hslot in Hx. discriminate. }
  assert (Hnew : ~ In event events)
    by (intros H; apply (Hfree event); [apply Hin, H | reflexivity]).
  assert (Hnq : ~ In event (queuedEvents apps))
    by (intros H; apply (Hfree event); [apply Hqu, H | reflexivity]).
  assert (Hkeep : forall other, is_Some (mjoin (pool !! other)) ->
                    is_Some (mjoin (<[event := Some e]> pool !! other))).
  { intros other Hother. rewrite list_lookup_insert_ne; [exact Hother |].
    intros ->. exact (Hfree other Hother eq_refl). }
  assert (Hrc' : forall other e', <[event := Some e]> pool !! other
                                  = Some (Some e') ->
                   mRefCount e' = countQueued apps other).
  { intros other e' Hl. destruct (decide (other = event)) as [-> | Hne].
    - rewrite list_lookup_insert_eq in Hl by exact Hlt. injection Hl as <-.
      rewrite Hrefs. symmetry. apply countQueued_0, Hnq.
    - rewrite list_lookup_insert_ne in Hl by auto. exact (Hrc other e' Hl). }
  split.
  - split; [exact Hnd |]. split; [| split; [| exact Hrc']].
    + intros other Hother. split; [apply Hkeep|]; apply Hin, Hother.
    + intros other Hother. apply Hkeep, Hqu, Hother.
  - split; [| split; [| split; [| exact Hrc']]].
    + apply NoDup_app. split; [exact Hnd |].
      split; [| apply NoDup_singleton].
      intros x Hx Hx'. apply list_elem_of_singleton in Hx'. subst x.
      apply Hnew, list_elem_of_In, Hx.
    + intros other Hother. apply in_app_or in Hother as [Hother | [<- | []]].
      * split; [apply Hkeep|]; apply Hin, Hother.
      * split; [| exact Hnq].
        rewrite list_lookup_insert_eq by exact Hlt. eexists. reflexivity.
    + intros other Hother. apply Hkeep, Hqu, Hother.
Qed.

(** [postEvent] keeps the account and the number of blocks. *)
Lemma eventsAccounted_postEvent env type data callback sender target s :
  eventsAccounted (mNanoapps s) (mEvents s) (mEventPool s) ->
  let s' := snd (postEvent env type data callback sender target s) in
  eventsAccounted (mNanoapps s') (mEvents s') (mEventPool s')
  /\ length (mEventPool s') = length (mEventPool s).
Proof.
  intros Hacc. unfold postEvent, allocate.
  destruct (mRunning s); [| split; [exact Hacc | reflexivity]].
  destruct (first_free (mEventPool s)) as [event |] eqn:Hfree;
    [| split; [exact Hacc | reflexivity]].
  pose proof (first_free_Some _ _ Hfree) as Hslot.
  destruct (eventsAccounted_allocate _ _ _ event
              (mkEvent type data callback sender target 0) Hacc Hslot eq_refl)
    as [Hleak Hpush].
  cbv beta iota zeta. cbn [mEvents set_pool].
  destruct (_ <? _)%nat; cbn [snd]; cbn.
  - split; [exact Hpush | apply length_insert].
  - split; [exact Hleak | apply length_insert].
Qed.

Lemma countQueued_pos apps event :
  countQueued apps event <> O <-> In event (queuedEvents apps).
Proof.
  pose proof (countQueued_0 apps event) as H0.
  destruct (in_dec Nat.eq_dec event (queuedEvents apps)) as [Hin | Hnin].
  - split; [auto |]. intros _ Hz. apply H0 in Hz. contradiction.
  - split; [| contradiction]. intros Hnz. exfalso. apply Hnz, H0, Hnin.
Qed.

(** The fan-out of [distributeEvent]: the event at the head of the inbound
    queue goes to the queues of the nanoapps that take it, with one
    reference for each. *)
Lemma eventsAccounted_fanout apps event rest pool e :
  eventsAccounted apps (event :: rest) pool ->
  pool !! event = Some (Some e) ->
  eventsAccounted
    (map (afterDistribute e event) apps) rest
    (Nat.iter (length (List.filter (takesEvent e) apps))
              (alter (fmap incrementRefCount) event) pool).
Proof.
  intros (Hnd & Hin & Hqu & Hrc) Hslot.
  apply NoDup_cons in Hnd as [Hnotin Hnd].
  set (k := length (List.filter (takesEvent e) apps)).
  pose proof (countQueued_afterDistribute e event apps) as Hcount.
  fold k in Hcount.
  assert (Hnq : countQueued apps event = O).
  { apply countQueued_0. apply (Hin event). left. reflexivity. }
  assert (Hrefs : mRefCount e = O) by (rewrite (Hrc _ _ Hslot); exact Hnq).
  pose proof (iter_increment_lookup k event _ _ Hslot) as Hat.
  assert (Hother : forall x, x <> event ->
            Nat.iter k (alter (fmap incrementRefCount) event) pool !! x
            = pool !! x).
  { intros x Hx. apply lookup_iter_alter_ne. auto. }
  split; [exact Hnd |]. split; [| split].
  - intros x Hx.
    assert (Hne : x <> event).
    { intros ->. apply Hnotin, list_elem_of_In, Hx. }
    destruct (Hin x (or_intror Hx)) as [Hall Hnqx].
    rewrite (Hother x Hne). split; [exact Hall |].
    apply countQueued_0. rewrite Hcount.
    destruct (Nat.eqb_spec x event); [contradiction |].
    rewrite Nat.add_0_r. apply countQueued_0, Hnqx.
  - intros x Hx. destruct (decide (x = event)) as [-> | Hne].
    + rewrite Hat. eexists. reflexivity.
    + rewrite (Hother x Hne). apply Hqu, countQueued_pos.
      apply countQueued_pos in Hx. rewrite Hcount in Hx.
      destruct (Nat.eqb_spec x event); [contradiction |].
      rewrite Nat.add_0_r in Hx. exact Hx.
  - intros x e' Hl. rewrite Hcount.
    destruct (Nat.eqb_spec x event) as [-> | Hne].
    + rewrite Hat in Hl. injection Hl as <-. cbn. rewrite Hrefs, Hnq.
      reflexivity.
    + rewrite (Hother x Hne) in Hl. rewrite Nat.add_0_r.
      exact (Hrc x e' Hl).
Qed.

(** An event that no nanoapp took is dropped: its block goes back to the
    pool. *)
Lemma eventsAccounted_drop apps event events pool :
  eventsAccounted apps events pool ->
  ~ In event events -> ~ In event (queuedEvents apps) ->
  eventsAccounted apps events (<[event := None]> pool).
Proof.
  intros (Hnd & Hin & Hqu & Hrc) Hne Hnq.
  split; [exact Hnd |]. split; [| split].
  - intros x Hx. destruct (Hin x Hx) as [Hall Hnqx].
    split; [| exact Hnqx].
    rewrite list_lookup_insert_ne; [exact Hall |]. intros ->. exact (Hne Hx).
  - intros x Hx. rewrite list_lookup_insert_ne; [exact (Hqu x Hx) |].
    intros ->. exact (Hnq Hx).
  - intros x e' Hl. destruct (decide (x = event)) as [-> | Hxe].
    + destruct (decide (event < length pool)%nat) as [Hlt | Hge].
      * rewrite list_lookup_insert_eq in Hl by exact Hlt. discriminate.
      * rewrite list_insert_ge in Hl by lia. exact (Hrc _ _ Hl).
    + rewrite list_lookup_insert_ne in Hl by auto. exact (Hrc _ _ Hl).
Qed.

(** One delivery: the head of the queue of a nanoapp is taken off and the
    nanoapp gives up its reference; the block goes back to the pool with
    the last reference. *)
Lemma eventsAccounted_deliver apps events pool index app event rest e :
  eventsAccounted apps events pool ->
  apps !! index = Some app -> mEventQueue app = event :: rest ->
  pool !! event = Some (Some e) ->
  eventsAccounted
    (<[index := setEventQueue rest app]> apps) events
    (<[event := if (Nat.pred (mRefCount e) =? 0)%nat then None
                else Some (decrementRefCount e)]> pool).
Proof.
  intros (Hnd & Hin & Hqu & Hrc) Happ Hq Hslot.
  set (apps' := <[index := setEventQueue rest app]> apps).
  assert (Hlt : (event < length pool)%nat) by (eapply lookup_lt_Some, Hslot).
  assert (Hcount : forall x,
            (countQueued apps' x + if (x =? event)%nat then 1 else 0)%nat
            = countQueued apps x).
  { intros x. pose proof (countQueued_insert apps index app rest x Happ) as H.
    fold apps' in H. rewrite Hq in H. cbn [List.filter] in H.
    destruct (x =? event)%nat; cbn [length] in H; lia. }
  assert (Hhead : In event (queuedEvents apps)).
  { apply (queuedEvents_lookup _ _ _ _ Happ). rewrite Hq. left. reflexivity. }
  assert (Hrefs : mRefCount e = countQueued apps event) by exact (Hrc _ _ Hslot).
  assert (Hpos : countQueued apps event <> O) by (apply countQueued_pos, Hhead).
  pose proof (Hcount event) as Hce. rewrite Nat.eqb_refl in Hce.
  split; [exact Hnd |]. split; [| split].
  - intros x Hx. destruct (Hin x Hx) as [Hall Hnqx].
    assert (Hne : event <> x) by (intros ->; exact (Hnqx Hhead)).
    rewrite list_lookup_insert_ne by exact Hne. split; [exact Hall |].
    apply countQueued_0. apply countQueued_0 in Hnqx.
    specialize (Hcount x). lia.
  - intros x Hx. apply countQueued_pos in Hx.
    destruct (decide (x = event)) as [-> | Hne].
    + rewrite list_lookup_insert_eq by exact Hlt.
      destruct (Nat.eqb_spec (Nat.pred (mRefCount e)) 0) as [Hz | Hnz];
        [exfalso; lia | eexists; reflexivity].
    + rewrite list_lookup_insert_ne by auto. apply Hqu, countQueued_pos.
      specialize (Hcount x).
      destruct (Nat.eqb_spec x event); [contradiction | lia].
  - intros x e' Hl. destruct (decide (x = event)) as [-> | Hne].
    + rewrite list_lookup_insert_eq in Hl by exact Hlt.
      destruct (Nat.pred (mRefCount e) =? 0)%nat; [discriminate |].
      injection Hl as <-. cbn. lia.
    + rewrite list_lookup_insert_ne in Hl by auto.
      rewrite (Hrc x e' Hl). specialize (Hcount x).
      destruct (Nat.eqb_spec x event); [contradiction | lia].
Qed.

Lemma accounted_distributeEvent event rest s :
  eventsAccounted (mNanoapps s) (event :: rest) (mEventPool s) ->
  mEvents s = rest ->
  accounted (distributeEvent event s)
  /\ length (mEventPool (distributeEvent event s)) = length (mEventPool s).
Proof.
  intros Hacc Hev.
  pose proof Hacc as (Hnd & Hin & Hqu & Hrc).
  apply NoDup_cons in Hnd as [Hnotin Hnd].
  destruct (Hin event (or_introl eq_refl)) as [[e He] Hnq].
  assert (Hd : deref s event = Some e) by exact He.
  assert (Hslot : mEventPool s !! event = Some (Some e))
    by (apply deref_Some, Hd).
  assert (Hrefs : mRefCount e = O).
  { rewrite (Hrc _ _ Hslot). apply countQueued_0, Hnq. }
  pose proof (eventsAccounted_fanout _ _ _ _ e Hacc Hslot) as Hfan.
  pose proof (distributeToNanoapps_apps e event (mNanoapps s) (mEventPool s))
    as Happs.
  pose proof (distributeToNanoapps_pool e event (mNanoapps s) (mEventPool s))
    as Hpool.
  set (k := length (List.filter (takesEvent e) (mNanoapps s))) in *.
  pose proof (iter_increment_lookup k event _ _ Hslot) as Hat.
  unfold accounted, distributeEvent. rewrite Hd.
  destruct (distributeToNanoapps e event (mNanoapps s) (mEventPool s))
    as [apps pool]. cbn [fst snd] in Happs, Hpool. subst apps pool.
  set (s1 := set_pool _ (set_nanoapps _ s)).
  assert (Hd1 : deref s1 event = Some (addRefs k e))
    by (apply deref_Some; exact Hat).
  rewrite Hd1. unfold isUnreferenced. cbn [mRefCount addRefs]. rewrite Hrefs.
  cbn [Nat.add].
  destruct (Nat.eqb_spec k 0) as [Hk | Hk].
  - set (s2 := if negb _ then emit _ s1 else s1).
    assert (Hs2 : mNanoapps s2 = mNanoapps s1 /\ mEvents s2 = mEvents s1
                  /\ mEventPool s2 = mEventPool s1)
      by (unfold s2; destruct (negb _); repeat split; reflexivity).
    destruct Hs2 as (Hn2 & He2 & Hp2).
    assert (Hd2 : deref s2 event = Some (addRefs k e))
      by (unfold deref; rewrite Hp2; exact Hd1).
    rewrite mNanoapps_freeEvent, mEvents_freeEvent, mEventPool_freeEvent,
      Hd2, Hn2, He2, Hp2.
    cbn [mNanoapps mEvents mEventPool s1 set_pool set_nanoapps].
    rewrite Hev. split; [| rewrite length_insert; apply length_iter_alter].
    apply eventsAccounted_drop; [exact Hfan | |].
    + intros Hx. apply Hnotin, list_elem_of_In, Hx.
    + apply countQueued_0. rewrite countQueued_afterDistribute.
      fold k. rewrite Hk, Nat.eqb_refl, Nat.add_0_r.
      apply countQueued_0, Hnq.
  - cbn [mNanoapps mEvents mEventPool s1 set_pool set_nanoapps].
    rewrite Hev. split; [exact Hfan | apply length_iter_alter].
Qed.

Lemma accounted_deliverNextEvent index s app :
  accounted s -> mNanoapps s !! index = Some app ->
  hasPendingEvent app = true ->
  accounted (snd (deliverNextEvent index s))
  /\ length (mEventPool (snd (deliverNextEvent index s)))
     = length (mEventPool s).
Proof.
  intros Hacc Happ Hpending.
  destruct (mEventQueue app) as [| event rest] eqn:Hq.
  { unfold hasPendingEvent in Hpending. rewrite Hq in Hpending.
    discriminate. }
  pose proof Hacc as (_ & _ & Hqu & _).
  assert (Hhead : In event (queuedEvents (mNanoapps s))).
  { apply (queuedEvents_lookup _ _ _ _ Happ). rewrite Hq. left. reflexivity. }
  destruct (Hqu event Hhead) as [e He].
  assert (Hslot : mEventPool s !! event = Some (Some e)).
  { destruct (mEventPool s !! event) as [[e' |] |]; cbn in He;
      congruence. }
  destruct (deliverNextEvent_pool index s app event rest e Happ Hq Hslot)
    as (Hn & Hev & Hp).
  unfold accounted. rewrite Hn, Hev, Hp.
  split; [| apply length_insert].
  apply eventsAccounted_deliver; assumption.
Qed.

Lemma accounted_deliverEvents_loop count : forall index have s,
  accounted s ->
  accounted (snd (deliverEvents_loop count index have s))
  /\ length (mEventPool (snd (deliverEvents_loop count index have s)))
     = length (mEventPool s).
Proof.
  induction count as [| count IH]; intros index have s Hacc; simpl;
    [split; [exact Hacc | reflexivity] |].
  destruct (mNanoapps s !! index) as [nanoapp |] eqn:Happ;
    [| split; [exact Hacc | reflexivity]].
  destruct (hasPendingEvent nanoapp) eqn:Hpending; [| apply IH, Hacc].
  destruct (accounted_deliverNextEvent index s nanoapp Hacc Happ Hpending)
    as [Hacc1 Hlen1].
  destruct (deliverNextEvent index s) as [pending s1]. cbn [snd] in *.
  destruct (IH (S index) (have || pending) s1 Hacc1) as [Hacc2 Hlen2].
  split; [exact Hacc2 | congruence].
Qed.

Lemma accounted_flushNanoappEventQueues_loop fuel : forall s s1,
  flushNanoappEventQueues_loop fuel s = Some s1 -> accounted s ->
  accounted s1 /\ length (mEventPool s1) = length (mEventPool s).
Proof.
  induction fuel as [| fuel IH]; intros s s1; simpl; [discriminate |].
  intros Hloop Hacc.
  destruct (accounted_deliverEvents_loop (length (mNanoapps s)) 0 false s
              Hacc) as [Hacc1 Hlen1].
  fold (deliverEvents s) in Hacc1, Hlen1.
  destruct (deliverEvents s) as [[|] s2]; cbn [snd] in *.
  - destruct (IH _ _ Hloop Hacc1) as [Hacc2 Hlen2].
    split; [exact Hacc2 | congruence].
  - injection Hloop as <-. split; assumption.
Qed.

Lemma accounted_flushInboundEventQueue_loop fuel : forall s,
  accounted s ->
  accounted (flushInboundEventQueue_loop fuel s)
  /\ length (mEventPool (flushInboundEventQueue_loop fuel s))
     = length (mEventPool s).
Proof.
  induction fuel as [| fuel IH]; intros s Hacc; simpl;
    [split; [exact Hacc | reflexivity] |].
  destruct (mEvents s) as [| event rest] eqn:Hev;
    [split; [exact Hacc | reflexivity] |].
  unfold accounted in Hacc. rewrite Hev in Hacc.
  destruct (accounted_distributeEvent event rest (set_events rest s) Hacc
              eq_refl) as [Hacc1 Hlen1].
  destruct (IH _ Hacc1) as [Hacc2 Hlen2].
  split; [exact Hacc2 |]. rewrite Hlen2, Hlen1. reflexivity.
Qed.

Lemma accounted_startNanoapp env nanoapp s :
  mEventQueue nanoapp = [] -> accounted s ->
  accounted (snd (startNanoapp env (Some nanoapp) s))
  /\ length (mEventPool (snd (startNanoapp env (Some nanoapp) s)))
     = length (mEventPool s).
Proof.
  intros Hfresh Hacc. unfold startNanoapp.
  destruct (findNanoappInstanceIdByAppId s (getAppId nanoapp));
    [split; [exact Hacc | reflexivity] |].
  destruct (nanoappsCanGrow env _); cbn [negb];
    [| split; [exact Hacc | reflexivity]].
  cbn. destruct (startResult nanoapp); cbn; unfold accounted; cbn.
  - split; [| reflexivity].
    eapply eventsAccounted_queues; [| exact Hacc].
    unfold queuedEvents. rewrite flat_map_app. cbn. rewrite Hfresh.
    rewrite !app_nil_r. reflexivity.
  - split; [| reflexivity]. rewrite length_app. cbn [length].
    replace (length (mNanoapps s) + 1 - 1)%nat with (length (mNanoapps s))
      by lia.
    rewrite take_app_length. exact Hacc.
Qed.

Lemma accounted_flushMessagesSentByNanoapp env posts : forall s,
  accounted s ->
  accounted (flushMessagesSentByNanoapp env posts s)
  /\ length (mEventPool (flushMessagesSentByNanoapp env posts s))
     = length (mEventPool s).
Proof.
  unfold flushMessagesSentByNanoapp.
  induction posts as [| p posts IH]; intros s Hacc;
    [split; [exact Hacc | reflexivity] |].
  cbn [foldl].
  destruct (eventsAccounted_postEvent env (postedType p) (postedData p)
              (postedFreeCallback p) (postedSender p) (postedTarget p) s
              Hacc) as [Hacc1 Hlen1].
  destruct (IH _ Hacc1) as [Hacc2 Hlen2].
  split; [exact Hacc2 |]. unfold post in *. rewrite Hlen2. exact Hlen1.
Qed.

Lemma accounted_unloadNanoapp env posts instanceId allow s :
  accounted s ->
  match unloadNanoapp env posts instanceId allow s with
  | Some (_, s') =>
      accounted s' /\ length (mEventPool s') = length (mEventPool s)
  | None => True
  end.
Proof.
  intros Hacc. unfold unloadNanoapp.
  destruct (findIndexByInstanceId (mNanoapps s) instanceId 0)
    as [[i nanoapp] |]; [| split; [exact Hacc | reflexivity]].
  destruct (negb allow && mIsSystemNanoapp nanoapp);
    [split; [exact Hacc | reflexivity] |].
  destruct (accounted_flushMessagesSentByNanoapp env posts s Hacc)
    as [Hacc1 Hlen1].
  set (s1 := flushMessagesSentByNanoapp env posts s) in *.
  destruct (accounted_flushInboundEventQueue_loop (length (mEvents s1)) s1
              Hacc1) as [Hacc2 Hlen2].
  fold (flushInboundEventQueue s1) in Hacc2, Hlen2.
  set (s2 := flushInboundEventQueue s1) in *.
  destruct (flushNanoappEventQueues_loop_spec (S (pendingEvents s2)) s2)
    as (s3 & t3 & Hflush & Hempty & _); [lia |].
  destruct (accounted_flushNanoappEventQueues_loop _ _ _ Hflush Hacc2)
    as [Hacc3 Hlen3].
  fold (flushNanoappEventQueues s2) in Hflush.
  cbv zeta. rewrite Hflush. cbn [mbind option_bind].
  unfold unloadNanoappAtIndex.
  destruct (mNanoapps s3 !! i) as [gone |];
    [| split; [exact Hacc3 | congruence]].
  unfold accounted. cbn. split; [| congruence].
  eapply eventsAccounted_queues; [| exact Hacc3].
  rewrite (queuedEvents_empty _ Hempty). apply queuedEvents_empty.
  apply Forall_forall. intros x Hx. rewrite Forall_forall in Hempty.
  apply Hempty. eapply list_elem_of_delete_inv, Hx.
Qed.

Lemma accounted_loopStep env op s :
  startsFresh op -> accounted s ->
  accounted (loopStep env s op)
  /\ length (mEventPool (loopStep env s op)) = length (mEventPool s).
Proof.
  intros Hfresh Hacc.
  destruct op as [p | [nanoapp |] | | | posts instanceId allow |];
    cbn [loopStep].
  - apply eventsAccounted_postEvent, Hacc.
  - apply accounted_startNanoapp; assumption.
  - split; [exact Hacc | reflexivity].
  - destruct (mEvents s) as [| event rest] eqn:Hev;
      [split; [exact Hacc | reflexivity] |].
    unfold accounted in Hacc. rewrite Hev in Hacc.
    apply (accounted_distributeEvent event rest (set_events rest s) Hacc
             eq_refl).
  - apply accounted_deliverEvents_loop, Hacc.
  - pose proof (accounted_unloadNanoapp env posts instanceId allow s Hacc)
      as Hunload.
    destruct (unloadNanoapp env posts instanceId allow s) as [[ok s'] |];
      [exact Hunload | split; [exact Hacc | reflexivity]].
  - unfold stop.
    pose proof (eventsAccounted_postEvent env 0 0 None kSystemInstanceId
                  kSystemInstanceId s Hacc) as Hpost.
    destruct (postEvent env 0 0 None kSystemInstanceId kSystemInstanceId s)
      as [ok s1]. exact Hpost.
Qed.

(** Whatever calls a loop receives from its construction on, nanoapps
    being handed to [startNanoapp] with no event waiting: its inbound
    queue holds pointers to distinct blocks in use, the pointers in the
    queues of the nanoapps refer to blocks in use, the reference count of
    every block in use is the number of times it waits in these queues,
    and the pool has the blocks it started with. *)
Lemma reachable_accounted env ops running blocks :
  Forall startsFresh ops ->
  let s := runOps env ops (newEventLoop running blocks) in
  accounted s /\ inboundWellFormed s /\ length (mEventPool s) = blocks.
Proof.
  intros Hfresh. cbv zeta.
  assert (Hinit : accounted (newEventLoop running blocks)
                  /\ length (mEventPool (newEventLoop running blocks))
                     = blocks).
  { split; [| apply length_replicate].
    split; [apply NoDup_nil_2 |]. split; [intros event [] |].
    split; [intros event [] |].
    intros event e Hl. cbn in Hl. apply lookup_replicate in Hl as [Hl _].
    discriminate. }
  assert (Hrun : accounted (runOps env ops (newEventLoop running blocks))
                 /\ length (mEventPool
                              (runOps env ops (newEventLoop running blocks)))
                    = blocks).
  { revert Hinit. generalize (newEventLoop running blocks). unfold runOps.
    induction Hfresh as [| op ops Hop _ IH]; intros s [Hacc Hlen];
      [split; assumption |].
    cbn [foldl].
    destruct (accounted_loopStep env op s Hop Hacc) as [Hacc1 Hlen1].
    apply IH. split; [exact Hacc1 | congruence]. }
  destruct Hrun as [Hacc Hlen]. split; [exact Hacc |].
  split; [| exact Hlen].
  destruct Hacc as (Hnd & Hin & _). split; [exact Hnd |].
  intros event Hev. apply (Hin event Hev).
Qed.

End EventLoopFacts.
